(** * mmq: Majorize-Minimize Quadratic optimisation

    A shallow embedding of [mmq/mmq.py]: the numpy operations the module
    relies on, the [Potential] hierarchy, [Criterion] and [QuadCriterion],
    and the two solvers [mmmg] and [mmcg]; and of the operators of
    [mmq/operators.py] that do not go through the FFT: the base class
    [Operator] and the difference operator [Diff].

    Conventions of the embedding.
    - A float is a real number ([R]); an operation whose IEEE result would be
      an infinity or a NaN (a division by zero) has no real value and stops
      the computation with [ZeroDivision].
    - A numpy array is an array of floats: its shape and its entries in
      row-major (C) order; a Python scalar is the array of shape [()].
    - A Python exception is a [Raise] in the [result] monad.  [Unsupported]
      marks numpy behaviour left out of the embedding (arrays of three or more
      dimensions under [@], [.T] and [np.c_]); it is never taken as an error
      of the program.
    - [numpy.linalg.pinv] is a parameter of [mmmg]. *)

From Stdlib Require Import Reals Lra Lia List Bool Arith.
Import ListNotations.

Set Implicit Arguments.

(** ** Exceptions and the [result] monad *)

Inductive exn : Type :=
| ValueError      (* shapes that do not fit: broadcasting, reshape, vstack, matmul *)
| TypeError       (* iteration over, or indexing of, a 0-d array *)
| LinAlgError
| ZeroDivision    (* the float result would be inf or nan *)
| Unsupported.    (* numpy behaviour outside the embedding *)

Inductive result (A : Type) : Type :=
| Ok (a : A)
| Raise (e : exn).

Arguments Ok {A} a.
Arguments Raise {A} e.

Definition bind {A B : Type} (m : result A) (k : A -> result B) : result B :=
  match m with
  | Ok a => k a
  | Raise e => Raise e
  end.

Notation "x <- m ;; k" := (bind m (fun x => k))
  (at level 61, m at next level, right associativity).
Notation "' p <- m ;; k" := (bind m (fun p => k))
  (at level 61, p pattern, m at next level, right associativity).

Fixpoint mapM {A B : Type} (f : A -> result B) (l : list A) : result (list B) :=
  match l with
  | [] => Ok []
  | a :: l' => b <- f a ;; bs <- mapM f l' ;; Ok (b :: bs)
  end.

(** ** Arrays *)

Record ndarray (A : Type) : Type := mk_array {
  shape : list nat;
  data : list A
}.

Definition prod_shape (s : list nat) : nat := fold_right Nat.mul 1%nat s.

(** [a.size] *)
Definition size {A} (a : ndarray A) : nat := prod_shape (shape a).

(** The invariant of every numpy array: as many entries as the shape says. *)
Definition wf {A} (a : ndarray A) : Prop := length (data a) = size a.

(** A Python scalar. *)
Definition scalar {A} (x : A) : ndarray A := mk_array [] [x].

(** [np.reshape(a, s)] for an explicit shape [s]. *)
Definition np_reshape {A} (a : ndarray A) (s : list nat) : result (ndarray A) :=
  if Nat.eqb (prod_shape s) (size a) then Ok (mk_array s (data a))
  else Raise ValueError.

(** [a.reshape((-1, 1))]: the column vector of the entries. *)
Definition reshape_col {A} (a : ndarray A) : ndarray A :=
  mk_array [size a; 1%nat] (data a).

(** [n] consecutive chunks of [k] entries. *)
Fixpoint chunks {A} (k n : nat) (l : list A) : list (list A) :=
  match n with
  | O => []
  | S n' => firstn k l :: chunks k n' (skipn k l)
  end.

(** *** Broadcasting *)

Definition pad_shape (n : nat) (s : list nat) : list nat :=
  repeat 1%nat (n - length s) ++ s.

Definition broadcast_dim (a b : nat) : option nat :=
  if Nat.eqb a b then Some a
  else if Nat.eqb a 1 then Some b
  else if Nat.eqb b 1 then Some a
  else None.

Fixpoint broadcast_aligned (s1 s2 : list nat) : option (list nat) :=
  match s1, s2 with
  | [], [] => Some []
  | a :: r1, b :: r2 =>
      match broadcast_dim a b, broadcast_aligned r1 r2 with
      | Some d, Some r => Some (d :: r)
      | _, _ => None
      end
  | _, _ => None
  end.

(** [np.broadcast_shapes]: align on the right, each pair of dimensions equal
    or one of them 1. *)
Definition broadcast_shapes (s1 s2 : list nat) : option (list nat) :=
  let n := Nat.max (length s1) (length s2) in
  broadcast_aligned (pad_shape n s1) (pad_shape n s2).

(** The entries of an array of (aligned) shape [s] seen at shape [t]. *)
Fixpoint broadcast_data {A} (s t : list nat) (d : list A) : list A :=
  match s, t with
  | a :: s', b :: t' =>
      let parts := map (broadcast_data s' t') (chunks (prod_shape s') a d) in
      if Nat.eqb a b then concat parts else concat (repeat (concat parts) b)
  | _, _ => d
  end.

Definition broadcast_to {A} (a : ndarray A) (t : list nat) : list A :=
  broadcast_data (pad_shape (length t) (shape a)) t (data a).

Definition map2 {A B C} (f : A -> B -> C) (l1 : list A) (l2 : list B) : list C :=
  map (fun p => f (fst p) (snd p)) (combine l1 l2).

(** An elementwise binary operation with broadcasting. *)
Definition np_binop {A B C} (f : A -> B -> C) (a : ndarray A) (b : ndarray B)
  : result (ndarray C) :=
  match broadcast_shapes (shape a) (shape b) with
  | Some s => Ok (mk_array s (map2 f (broadcast_to a s) (broadcast_to b s)))
  | None => Raise ValueError
  end.

(** An elementwise function. *)
Definition amap {A B} (f : A -> B) (a : ndarray A) : ndarray B :=
  mk_array (shape a) (map f (data a)).

(** *** Boolean masks: [a[idx]] and [a[idx] = v] *)

Fixpoint select {A} (mask : list bool) (l : list A) : list A :=
  match mask, l with
  | true :: m, x :: l' => x :: select m l'
  | false :: m, _ :: l' => select m l'
  | _, _ => []
  end.

(** [a[idx]] for a boolean array [idx] of the shape of [a]: the selected
    entries as a 1-d array. *)
Definition mask_get {A} (a : ndarray A) (idx : ndarray bool) : result (ndarray A) :=
  if list_eq_dec Nat.eq_dec (shape idx) (shape a) then
    let s := select (data idx) (data a) in
    Ok (mk_array [length s] s)
  else Raise ValueError.

Fixpoint scatter {A} (mask : list bool) (l v : list A) : list A :=
  match mask, l with
  | true :: m, x :: l' =>
      match v with
      | y :: v' => y :: scatter m l' v'
      | [] => x :: scatter m l' []
      end
  | false :: m, x :: l' => x :: scatter m l' v
  | _, _ => l
  end.

Definition count_true (mask : list bool) : nat := length (filter (fun b => b) mask).

(** [a[idx] = v] for [a] the result of an arithmetic operation: without
    dimension such a result is a numpy scalar, which has no item assignment
    (a [TypeError]); otherwise [v] is broadcast to the 1-d shape of the
    selected entries. *)
Definition mask_set {A} (a : ndarray A) (idx : ndarray bool) (v : ndarray A)
  : result (ndarray A) :=
  match shape a with
  | [] => Raise TypeError
  | _ :: _ =>
      if list_eq_dec Nat.eq_dec (shape idx) (shape a) then
        let k := count_true (data idx) in
        match broadcast_shapes (shape v) [k] with
        | Some [k'] =>
            if Nat.eqb k' k then
              Ok (mk_array (shape a) (scatter (data idx) (data a) (broadcast_to v [k])))
            else Raise ValueError
        | _ => Raise ValueError
        end
      else Raise ValueError
  end.

(** *** 2-d arrays: rows, [.T], [@], [np.c_], [np.tile] *)

Definition rows {A} (a : ndarray A) : list (list A) :=
  match shape a with
  | [m; n] => chunks n m (data a)
  | _ => []
  end.

Definition column {A} (d : A) (j : nat) (rs : list (list A)) : list A :=
  map (fun r => nth j r d) rs.

(** [a.T]: nothing to do below two dimensions. *)
Definition np_transpose {A} (d : A) (a : ndarray A) : result (ndarray A) :=
  match shape a with
  | [] | [_] => Ok a
  | [m; n] => Ok (mk_array [n; m] (concat (map (fun j => column d j (rows a)) (seq 0 n))))
  | _ => Raise Unsupported
  end.

(** The operand of [np.c_] as a 2-d array: a scalar is 1x1, a 1-d array a
    column. *)
Definition as_columns {A} (a : ndarray A) : result (ndarray A) :=
  match shape a with
  | [] => Ok (mk_array [1%nat; 1%nat] (data a))
  | [n] => Ok (mk_array [n; 1%nat] (data a))
  | [_; _] => Ok a
  | _ => Raise Unsupported
  end.

(** [np.c_[a, b]]: the columns of [a] followed by the columns of [b]. *)
Definition np_c_ {A} (a b : ndarray A) : result (ndarray A) :=
  a2 <- as_columns a ;;
  b2 <- as_columns b ;;
  match shape a2, shape b2 with
  | [m; n1], [m'; n2] =>
      if Nat.eqb m m' then
        Ok (mk_array [m; (n1 + n2)%nat] (concat (map2 (@app A) (rows a2) (rows b2))))
      else Raise ValueError
  | _, _ => Raise Unsupported
  end.

(** [np.tile(a, 2)]: every run along the last axis, twice. *)
Definition np_tile2 {A} (a : ndarray A) : ndarray A :=
  match shape a with
  | [] => mk_array [2%nat] (data a ++ data a)
  | s =>
      let k := last s 1%nat in
      let n := prod_shape (removelast s) in
      mk_array (removelast s ++ [(2 * k)%nat])
               (concat (map (fun r => r ++ r) (chunks k n (data a))))
  end.

(** [a[lo:hi]]: a slice along the first axis, clipped to the array. *)
Definition slice0 {A} (a : ndarray A) (lo hi : nat) : result (ndarray A) :=
  match shape a with
  | [] => Raise TypeError
  | d :: rest =>
      let hi' := Nat.min hi d in
      let n := (hi' - lo)%nat in
      let k := prod_shape rest in
      Ok (mk_array (n :: rest) (firstn (n * k) (skipn (lo * k) (data a))))
  end.

(** [for arr in a]: the sub-arrays along the first axis. *)
Definition iter_array {A} (a : ndarray A) : result (list (ndarray A)) :=
  match shape a with
  | [] => Raise TypeError
  | d :: rest => Ok (map (mk_array rest) (chunks (prod_shape rest) d (data a)))
  end.

(** ** Scalars

    The arithmetic [Potential.gr_coeffs] needs, so that the base method is
    stated once for every kind of entry. *)

Class Scalar (A : Type) : Type := {
  s_zero : A;
  s_one : A;
  s_mul : A -> A -> A;
  s_div : A -> A -> result A;
  s_is_zero : A -> bool
}.

Definition R_is_zero (x : R) : bool :=
  if Req_dec_T x 0%R then true else false.

(** [x / y] on floats, as far as it is a real number. *)
Definition R_div (x y : R) : result R :=
  if R_is_zero y then Raise ZeroDivision else Ok (x / y)%R.

#[export] Instance R_Scalar : Scalar R := {
  s_zero := 0%R;
  s_one := 1%R;
  s_mul := Rmult;
  s_div := R_div;
  s_is_zero := R_is_zero
}.

(** [a / b] elementwise, with broadcasting. *)
Definition np_divide {A} `{Scalar A} (a b : ndarray A) : result (ndarray A) :=
  match broadcast_shapes (shape a) (shape b) with
  | Some s =>
      d <- mapM (fun p => s_div (fst p) (snd p))
                (combine (broadcast_to a s) (broadcast_to b s)) ;;
      Ok (mk_array s d)
  | None => Raise ValueError
  end.

(** [np.ones_like(a)] *)
Definition np_ones_like {A} `{Scalar A} (a : ndarray A) : ndarray A :=
  mk_array (shape a) (repeat s_one (length (data a))).

(** [a != 0] *)
Definition np_nonzero_mask {A} `{Scalar A} (a : ndarray A) : ndarray bool :=
  amap (fun x => negb (s_is_zero x)) a.

(** ** Real arithmetic on arrays *)

Local Open Scope R_scope.

Definition np_add (a b : ndarray R) : result (ndarray R) := np_binop Rplus a b.
Definition np_sub (a b : ndarray R) : result (ndarray R) := np_binop Rminus a b.
Definition np_mul (a b : ndarray R) : result (ndarray R) := np_binop Rmult a b.
Definition np_neg (a : ndarray R) : ndarray R := amap Ropp a.

(** [h * a] for a float [h]. *)
Definition np_scale (h : R) (a : ndarray R) : ndarray R := amap (Rmult h) a.

(** [np.zeros_like(a)] *)
Definition np_zeros_like (a : ndarray R) : ndarray R :=
  mk_array (shape a) (repeat 0 (length (data a))).

(** [np.ones((2, 1))] *)
Definition np_ones_2_1 : ndarray R := mk_array [2%nat; 1%nat] [1; 1].

Definition Rsum (l : list R) : R := fold_right Rplus 0 l.

(** [np.sum(a)] *)
Definition np_sum (a : ndarray R) : R := Rsum (data a).

(** [numpy.linalg.norm(a)]: the 2-norm of the flattened array. *)
Definition la_norm (a : ndarray R) : R := sqrt (Rsum (map (fun x => x * x) (data a))).

Definition dot (u v : list R) : R := Rsum (map2 Rmult u v).

(** [a @ b] *)
Definition np_matmul (a b : ndarray R) : result (ndarray R) :=
  match shape a, shape b with
  | [], _ | _, [] => Raise ValueError
  | [m; k], [k'; n] =>
      if Nat.eqb k k' then
        Ok (mk_array [m; n]
              (concat (map (fun r => map (fun j => dot r (column 0 j (rows b))) (seq 0 n))
                           (rows a))))
      else Raise ValueError
  | _, _ => Raise Unsupported
  end.

(** [a += b]: the sum has to have the shape of [a]. *)
Definition np_iadd (a b : ndarray R) : result (ndarray R) :=
  r <- np_add a b ;;
  if list_eq_dec Nat.eq_dec (shape r) (shape a) then Ok r else Raise ValueError.

(** [a /= b] *)
Definition np_idiv (a b : ndarray R) : result (ndarray R) :=
  r <- np_divide a b ;;
  if list_eq_dec Nat.eq_dec (shape r) (shape a) then Ok r else Raise ValueError.

(** [float(a)] for an array of one entry. *)
Definition py_float (a : ndarray R) : ndarray R := scalar (nth 0 (data a) 0).

(** The entry of an array of one entry. *)
Definition entry (a : ndarray R) : R := nth 0 (data a) 0.

(** [np.where(c, x, y)], [np.sign], comparisons on floats. *)
Definition R_leb (x y : R) : bool := if Rle_dec x y then true else false.
Definition R_ltb (x y : R) : bool := if Rlt_dec x y then true else false.
Definition R_sign (x : R) : R :=
  if R_ltb 0 x then 1 else if R_ltb x 0 then -1 else 0.

(** The truth value of [a >= 0]: defined for an array of one entry only. *)
Definition np_truth_ge0 (a : ndarray R) : result bool :=
  if Nat.eqb (size a) 1 then Ok (R_leb 0 (entry a)) else Raise ValueError.

(** ** Potentials *)

Module Potential.

(** The attributes and the two abstract methods of a potential; [convex]
    and [coercive] are set by the subclasses. *)
Record t (A : Type) : Type := mk {
  inf : A;
  value : ndarray A -> ndarray A;
  gradient : ndarray A -> ndarray A;
  convex : bool;
  coercive : bool
}.

(** [self.inf = v] *)
Definition set_inf {A} (self : t A) (v : A) : t A :=
  mk v (value self) (gradient self) (convex self) (coercive self).

(** The GR coefficients at a given point (the method of the base class).
    [self.inf * np.ones_like(point)] is a numpy scalar when [point] has no
    dimension; the right-hand side of the assignment is evaluated before the
    assignment is tried. *)
Definition gr_coeffs {A} `{Scalar A} (self : t A) (point : ndarray A)
  : result (ndarray A) :=
  let aux := amap (s_mul (inf self)) (np_ones_like point) in
  let idx := np_nonzero_mask point in
  num <- mask_get point idx ;;
  den <- mask_get point idx ;;
  q <- np_divide (gradient self num) den ;;
  mask_set aux idx q.

Definition call {A} (self : t A) (point : ndarray A) : ndarray A :=
  value self point.

End Potential.

Module VminProj.
Definition value (vmin : R) (point : ndarray R) : ndarray R :=
  scalar (Rsum (map (fun u => (u - vmin) ^ 2 / 2)
                    (filter (fun u => R_ltb u vmin) (data point)))).
Definition gradient (vmin : R) (point : ndarray R) : ndarray R :=
  amap (fun u => if R_ltb vmin u then 0 else u - vmin) point.
Definition new (vmin : R) : Potential.t R :=
  Potential.mk 1 (value vmin) (gradient vmin) true true.
End VminProj.

Module VmaxProj.
Definition value (vmax : R) (point : ndarray R) : ndarray R :=
  scalar (Rsum (map (fun u => (u - vmax) ^ 2 / 2)
                    (filter (fun u => R_ltb vmax u) (data point)))).
Definition gradient (vmax : R) (point : ndarray R) : ndarray R :=
  amap (fun u => if R_ltb u vmax then 0 else u - vmax) point.
Definition new (vmax : R) : Potential.t R :=
  Potential.mk 1 (value vmax) (gradient vmax) true true.
End VmaxProj.

Module Square.
Definition value (point : ndarray R) : ndarray R :=
  amap (fun u => u ^ 2 / 2) point.
Definition gradient (point : ndarray R) : ndarray R := point.
Definition new : Potential.t R := Potential.mk 1 value gradient true true.
End Square.

Module Hyperbolic.
Definition value (delta : R) (point : ndarray R) : ndarray R :=
  amap (fun u => sqrt (1 + (u ^ 2) / (delta ^ 2)) - 1) point.
Definition gradient (delta : R) (point : ndarray R) : ndarray R :=
  amap (fun u => (u / (delta ^ 2)) * sqrt (1 + (u ^ 2) / delta ^ 2)) point.
(** [inf] is set by the base class and then assigned again. *)
Definition new (delta : R) : Potential.t R :=
  let self := Potential.mk (1 / (delta ^ 2)) (value delta) (gradient delta) true true in
  Potential.set_inf self (1 / (2 * delta)).
End Hyperbolic.

Module Huber.
Definition value (delta : R) (point : ndarray R) : ndarray R :=
  amap (fun u => if R_leb (Rabs u) delta then u ^ 2 else Rabs u) point.
Definition gradient (delta : R) (point : ndarray R) : ndarray R :=
  amap (fun u => if R_leb (Rabs u) delta then 2 * u else 2 * delta * R_sign u) point.
Definition new (delta : R) : Potential.t R :=
  Potential.mk 1 (value delta) (gradient delta) true true.
End Huber.

Module GemanMcClure.
Definition value (delta : R) (point : ndarray R) : ndarray R :=
  amap (fun u => u ^ 2 / (2 * delta ^ 2 + u ^ 2)) point.
Definition gradient (delta : R) (point : ndarray R) : ndarray R :=
  amap (fun u => 4 * u * delta ^ 2 / (2 * delta ^ 2 + u ^ 2) ^ 2) point.
Definition new (delta : R) : Potential.t R :=
  Potential.mk (1 / (delta ^ 2)) (value delta) (gradient delta) false false.
End GemanMcClure.

Module SquareTruncApprox.
Definition value (delta : R) (point : ndarray R) : ndarray R :=
  amap (fun u => 1 - exp (- (u ^ 2) / (2 * delta ^ 2))) point.
Definition gradient (delta : R) (point : ndarray R) : ndarray R :=
  amap (fun u => u / (delta ^ 2) * exp (- (u ^ 2) / (2 * delta ^ 2))) point.
Definition new (delta : R) : Potential.t R :=
  Potential.mk (1 / (delta ^ 2)) (value delta) (gradient delta) false false.
End SquareTruncApprox.

(** Floats with their infinities, for the one potential whose [inf] is
    [np.inf].  The sign of a zero is not tracked. *)
Inductive xreal : Type :=
| Finite (r : R)
| PInf
| NInf
| NaN.

(** The infinity of the sign of [s]. *)
Definition x_inf_of_sign (s : R) : xreal :=
  if R_ltb 0 s then PInf else if R_ltb s 0 then NInf else NaN.

Definition x_mul (a b : xreal) : xreal :=
  match a, b with
  | NaN, _ | _, NaN => NaN
  | Finite x, Finite y => Finite (x * y)
  | Finite x, PInf | PInf, Finite x => x_inf_of_sign x
  | Finite x, NInf | NInf, Finite x => x_inf_of_sign (- x)
  | PInf, PInf | NInf, NInf => PInf
  | PInf, NInf | NInf, PInf => NInf
  end.

Definition x_add (a b : xreal) : xreal :=
  match a, b with
  | NaN, _ | _, NaN => NaN
  | Finite x, Finite y => Finite (x + y)
  | PInf, NInf | NInf, PInf => NaN
  | PInf, _ | _, PInf => PInf
  | NInf, _ | _, NInf => NInf
  end.

Definition x_div (a b : xreal) : xreal :=
  match a, b with
  | NaN, _ | _, NaN => NaN
  | Finite x, Finite y => if R_is_zero y then x_inf_of_sign x else Finite (x / y)
  | Finite _, PInf | Finite _, NInf => Finite 0
  | PInf, Finite y => if R_ltb y 0 then NInf else PInf
  | NInf, Finite y => if R_ltb y 0 then PInf else NInf
  | _, _ => NaN
  end.

Definition x_log (a : xreal) : xreal :=
  match a with
  | Finite x => if R_ltb 0 x then Finite (ln x) else if R_is_zero x then NInf else NaN
  | PInf => PInf
  | _ => NaN
  end.

#[export] Instance xreal_Scalar : Scalar xreal := {
  s_zero := Finite 0;
  s_one := Finite 1;
  s_mul := x_mul;
  s_div := fun a b => Ok (x_div a b);
  s_is_zero := fun a => match a with Finite r => R_is_zero r | _ => false end
}.

Module HerbertLeahy.
Definition value (delta : R) (point : ndarray xreal) : ndarray xreal :=
  amap (fun u => x_log (x_add (Finite 1) (x_div (x_mul u u) (Finite (delta ^ 2))))) point.
Definition gradient (delta : R) (point : ndarray xreal) : ndarray xreal :=
  amap (fun u => x_div (x_mul (Finite 2) u) (x_add (Finite (delta ^ 2)) (x_mul u u))) point.
Definition new (delta : R) : Potential.t xreal :=
  Potential.mk PInf (value delta) (gradient delta) false true.
End HerbertLeahy.

(** ** Criterion *)

(** [ArrOrList]: what an operator returns and an adjoint accepts. *)
Inductive arr_or_list : Type :=
| Arr (a : ndarray R)
| ArrList (l : list (ndarray R)).

(** [np.cumsum] on integers. *)
Fixpoint cumsum_from (acc : nat) (l : list nat) : list nat :=
  match l with
  | [] => []
  | x :: l' => (acc + x)%nat :: cumsum_from (acc + x)%nat l'
  end.
Definition np_cumsum (l : list nat) : list nat := cumsum_from 0%nat l.

Module Criterion.

Record t : Type := mk {
  operator : ndarray R -> result arr_or_list;
  adjoint : arr_or_list -> result (ndarray R);
  mean : arr_or_list;
  _stacked : bool;
  _shape : list (list nat);   (* set only when [_stacked] *)
  _idx : list nat;            (* set only when [_stacked] *)
  _mean : ndarray R;
  hyper : R;
  potential : Potential.t R
}.

(** [np.vstack([arr.reshape((-1, 1)) for arr in arr_list])]; [np.vstack]
    refuses an empty list. *)
Definition _list2vec (arr_list : list (ndarray R)) : result (ndarray R) :=
  match arr_list with
  | [] => Raise ValueError
  | _ =>
      let cols := map (@reshape_col R) arr_list in
      Ok (mk_array [list_sum (map (@size R) cols); 1%nat]
                   (concat (map (@data R) cols)))
  end.

(** The defaults of [__init__]. *)
Definition default_hyper : R := 1.
Definition default_mean : arr_or_list := Arr (scalar 0).

Definition __init__ (operator : ndarray R -> result arr_or_list)
    (adjoint : arr_or_list -> result (ndarray R))
    (potential : Potential.t R) (hyper : R) (mean : arr_or_list) : result t :=
  match mean with
  | ArrList l =>
      let shape_ := map (@shape R) l in
      let idx := np_cumsum (0%nat :: map (@size R) l) in
      m <- _list2vec l ;;
      Ok (mk operator adjoint mean true shape_ idx m hyper potential)
  | Arr a =>
      Ok (mk operator adjoint mean false [] [] a hyper potential)
  end.

Definition _vec2list (self : t) (arr : ndarray R) : result (list (ndarray R)) :=
  mapM (fun p : nat * list nat =>
          let (i, shape_) := p in
          s <- slice0 arr (nth i (_idx self) 0%nat) (nth (i + 1) (_idx self) 0%nat) ;;
          np_reshape s shape_)
       (combine (seq 0 (length (_shape self))) (_shape self)).

Definition _operator (self : t) (point : ndarray R) : result (ndarray R) :=
  if _stacked self then
    out <- operator self point ;;
    match out with
    | ArrList l => _list2vec l
    | Arr a => l <- iter_array a ;; _list2vec l
    end
  else
    out <- operator self point ;;
    match out with
    | Arr a => Ok a
    | ArrList _ => Raise Unsupported
    end.

Definition _adjoint (self : t) (point : ndarray R) : result (ndarray R) :=
  if _stacked self then
    l <- _vec2list self point ;;
    adjoint self (ArrList l)
  else adjoint self (Arr point).

(** [mu * phi(V x - omega)], summed. *)
Definition value (self : t) (point : ndarray R) : result R :=
  out <- _operator self point ;;
  obj <- np_sub out (_mean self) ;;
  Ok (hyper self * np_sum (Potential.call (potential self) obj)).

(** [mu * V^t phi'(V x - omega)] *)
Definition gradient (self : t) (point : ndarray R) : result (ndarray R) :=
  out <- _operator self point ;;
  obj <- np_sub out (_mean self) ;;
  g <- _adjoint self (Potential.gradient (potential self) obj) ;;
  Ok (np_scale (hyper self) g).

(** [phi'(V x - omega) / (V x - omega)] *)
Definition gr_coeffs (self : t) (point : ndarray R) : result (ndarray R) :=
  out <- _operator self point ;;
  obj <- np_sub out (_mean self) ;;
  Potential.gr_coeffs (potential self) obj.

(** The matrix [W^t diag(b) W] for the coefficients [b], before the
    conversion of a single entry to a float. *)
Definition major_matrix (b vecs : ndarray R) : result (ndarray R) :=
  vt <- np_transpose 0 vecs ;;
  bv <- np_mul (reshape_col b) vecs ;;
  np_matmul vt bv.

Definition norm_mat_major (self : t) (vecs point : ndarray R)
  : result (ndarray R) :=
  vt <- np_transpose 0 vecs ;;
  b <- gr_coeffs self point ;;
  bv <- np_mul (reshape_col b) vecs ;;
  matrix <- np_matmul vt bv ;;
  Ok (if Nat.eqb (size matrix) 1 then py_float matrix else matrix).

Definition call (self : t) (point : ndarray R) : result R := value self point.

End Criterion.

Module QuadCriterion.

(** The attributes of the base class, and the two the subclass adds. *)
Record t : Type := mk {
  base : Criterion.t;
  normal : ndarray R -> result (ndarray R);
  mean_t : ndarray R
}.

Definition __init__ (operator : ndarray R -> result arr_or_list)
    (adjoint : arr_or_list -> result (ndarray R))
    (normal : ndarray R -> result (ndarray R))
    (hyper : R) (mean : arr_or_list) : result t :=
  self <- Criterion.__init__ operator adjoint Square.new hyper mean ;;
  mt <- Criterion._adjoint self (Criterion._mean self) ;;
  Ok (mk self normal mt).

Definition value (self : t) (point : ndarray R) : result R :=
  out <- Criterion._operator (base self) point ;;
  obj <- np_sub out (Criterion._mean (base self)) ;;
  Ok (Criterion.hyper (base self) * np_sum (amap (fun u => u ^ 2) obj) / 2).

(** [mu * (Q x - b)] with [Q = V^t V] and [b = V^t omega] *)
Definition gradient (self : t) (point : ndarray R) : result (ndarray R) :=
  q <- normal self point ;;
  d <- np_sub q (mean_t self) ;;
  Ok (np_scale (Criterion.hyper (base self)) d).

Definition norm_mat_major (self : t) (vecs point : ndarray R)
  : result (ndarray R) :=
  vt <- np_transpose 0 vecs ;;
  np_matmul vt vecs.

Definition gr_coeffs (self : t) (point : ndarray R) : ndarray R := scalar 1.

Definition call (self : t) (point : ndarray R) : result R := value self point.

End QuadCriterion.

(** ** The solvers *)

(** What the solvers ask of an entry of [crit_list]: three methods. *)
Module Crit.
Record t : Type := mk {
  operator : ndarray R -> result arr_or_list;
  gradient : ndarray R -> result (ndarray R);
  norm_mat_major : ndarray R -> ndarray R -> result (ndarray R)
}.
End Crit.

Definition Criterion_as_crit (c : Criterion.t) : Crit.t :=
  Crit.mk (Criterion.operator c) (Criterion.gradient c) (Criterion.norm_mat_major c).

Definition QuadCriterion_as_crit (c : QuadCriterion.t) : Crit.t :=
  Crit.mk (Criterion.operator (QuadCriterion.base c))
          (QuadCriterion.gradient c) (QuadCriterion.norm_mat_major c).

(** [np.reshape(out, (-1, 1))] for the output of a callable: a list of arrays
    is first made an array, which numpy refuses for arrays of different
    shapes. *)
Definition reshape_col_out (out : arr_or_list) : result (ndarray R) :=
  match out with
  | Arr a => Ok (reshape_col a)
  | ArrList [] => Ok (mk_array [0%nat; 1%nat] [])
  | ArrList (a :: l) =>
      if forallb (fun b => if list_eq_dec Nat.eq_dec (shape b) (shape a) then true else false) l
      then Ok (mk_array [(length (a :: l) * size a)%nat; 1%nat]
                        (concat (map (@data R) (a :: l))))
      else Raise ValueError
  end.

(** Call [func] with [point] reshaped as [shape] and return vectorized
    output. *)
Definition vect (func : ndarray R -> result arr_or_list) (point : ndarray R)
    (shape_ : list nat) : result (ndarray R) :=
  p <- np_reshape point shape_ ;;
  out <- func p ;;
  reshape_col_out out.

(** Python's [sum] over a generator: the terms are produced and added one
    after the other, starting from the integer 0. *)
Definition py_sum_gen {X} (f : X -> result (ndarray R)) (l : list X)
  : result (ndarray R) :=
  fold_left (fun acc x => s <- acc ;; a <- f x ;; np_add s a) l (Ok (scalar 0)).

(** Compute sum of gradient with vectorized parameters and return. *)
Definition gradient (crit_list : list Crit.t) (point : ndarray R)
    (shape_ : list nat) : result (ndarray R) :=
  py_sum_gen (fun crit => vect (fun x => g <- Crit.gradient crit x ;; Ok (Arr g))
                               point shape_)
             crit_list.

(** How an iteration of a [for] loop ends. *)
Inductive flow (S : Type) : Type :=
| Continue (s : S)
| Break (s : S).

Arguments Continue {S} s.
Arguments Break {S} s.

Section Solvers.

(** [numpy.linalg.pinv] *)
Variable la_pinv : ndarray R -> result (ndarray R).

Variable crit_list : list Crit.t.
Variable init : ndarray R.
Variable tol : R.

(** *** mmmg *)

(** The local variables of [mmmg]; [m_iterations] is a ghost counter of the
    loop bodies entered.  [m_point] is a view of [init]: the buffer is
    threaded through the state. *)
Record mmmg_state : Type := mk_mmmg {
  m_point : ndarray R;
  m_move : ndarray R;
  m_op_directions : list (ndarray R);
  m_step : ndarray R;
  m_norm_grad : list R;
  m_iterations : nat
}.

(** One pass through the body of the loop. *)
Definition mmmg_iter (st : mmmg_state) : result (flow mmmg_state) :=
  let point := m_point st in
  let move := m_move st in
  (* Vectorized gradient *)
  grad <- gradient crit_list point (shape init) ;;
  let norm_grad := m_norm_grad st ++ [la_norm grad] in
  let iterations := S (m_iterations st) in
  (* Stopping test *)
  if R_ltb (last norm_grad 0) (INR (size point) * tol) then
    Ok (Break (mk_mmmg point move (m_op_directions st) (m_step st) norm_grad iterations))
  else
    (* Memory gradient directions *)
    directions <- np_c_ (np_neg grad) move ;;
    (* Step by Majorize-Minimize *)
    op_directions <-
      mapM (fun p : Crit.t * ndarray R =>
              let (crit, i_op_dir) := p in
              v <- vect (Crit.operator crit) grad (shape init) ;;
              w <- np_matmul i_op_dir (m_step st) ;;
              np_c_ v w)
           (combine crit_list (m_op_directions st)) ;;
    a <- py_sum_gen (fun p : Crit.t * ndarray R =>
                       let (crit, i_op_dir) := p in
                       x <- np_reshape point (shape init) ;;
                       Crit.norm_mat_major crit i_op_dir x)
                    (combine crit_list op_directions) ;;
    pa <- la_pinv a ;;
    dt <- np_transpose 0 directions ;;
    dg <- np_matmul dt grad ;;
    step <- np_matmul (np_neg pa) dg ;;
    move' <- np_matmul directions step ;;
    (* update *)
    point' <- np_iadd point move' ;;
    Ok (Continue (mk_mmmg point' move' op_directions step norm_grad iterations)).

(** [for _ in range(n)] *)
Fixpoint mmmg_loop (n : nat) (st : mmmg_state) : result mmmg_state :=
  match n with
  | O => Ok st
  | S n' =>
      f <- mmmg_iter st ;;
      match f with
      | Break st' => Ok st'
      | Continue st' => mmmg_loop n' st'
      end
  end.

Definition mmmg_init : result mmmg_state :=
  let point := reshape_col init in
  let move := np_zeros_like point in
  op_directions <-
    mapM (fun crit => v <- vect (Crit.operator crit) move (shape init) ;;
                      Ok (np_tile2 v))
         crit_list ;;
  Ok (mk_mmmg point move op_directions np_ones_2_1 [] 0).

(** The run of [mmmg] up to the [return]. *)
Definition mmmg_run (max_iter : nat) : result mmmg_state :=
  st <- mmmg_init ;;
  mmmg_loop max_iter st.

(** The Majorize-Minimize Memory Gradient (3mg) algorithm. *)
Definition mmmg (max_iter : nat) : result (ndarray R * list R) :=
  st <- mmmg_run max_iter ;;
  minimiser <- np_reshape (m_point st) (shape init) ;;
  Ok (minimiser, m_norm_grad st).

(** *** mmcg *)

Variable precond : option (ndarray R -> result (ndarray R)).

(** [if precond is None: precond = lambda x: x] *)
Definition precond_ (x : ndarray R) : result (ndarray R) :=
  match precond with
  | Some f => f x
  | None => Ok x
  end.

Record mmcg_state : Type := mk_mmcg {
  c_point : ndarray R;
  c_residual : ndarray R;
  c_sec : ndarray R;
  c_direction : ndarray R;
  c_delta : ndarray R;
  c_norm_res : list R
}.

Definition mmcg_iter (st : mmcg_state) : result (flow mmcg_state) :=
  let point := c_point st in
  let direction := c_direction st in
  (* update *)
  op_direction <- mapM (fun crit => vect (Crit.operator crit) direction (shape init))
                       crit_list ;;
  dt <- np_transpose 0 direction ;;
  step <- np_matmul dt (c_residual st) ;;
  curv <- py_sum_gen (fun p : Crit.t * ndarray R =>
                        let (crit, i_op_dir) := p in
                        x <- np_reshape point (shape init) ;;
                        Crit.norm_mat_major crit i_op_dir x)
                     (combine crit_list op_direction) ;;
  step <- np_idiv step curv ;;
  sd <- np_mul step direction ;;
  point <- np_iadd point sd ;;
  (* Gradient *)
  g <- gradient crit_list point (shape init) ;;
  let residual := np_neg g in
  (* Stop test *)
  let norm_res := c_norm_res st ++ [la_norm residual] in
  if R_ltb (last norm_res 0) (INR (size point) * tol) then
    Ok (Break (mk_mmcg point residual (c_sec st) direction (c_delta st) norm_res))
  else
    (* Conjugate direction. No reset is done, see Shewchuck. *)
    let delta_old := c_delta st in
    rt <- np_transpose 0 residual ;;
    delta_mid <- np_matmul rt (c_sec st) ;;
    sec <- precond_ residual ;;
    rt' <- np_transpose 0 residual ;;
    delta <- np_matmul rt' sec ;;
    num <- np_sub delta delta_mid ;;
    beta <- np_divide num delta_old ;;
    nonneg <- np_truth_ge0 beta ;;
    if nonneg : bool then
      num' <- np_sub delta delta_mid ;;
      beta' <- np_divide num' delta_old ;;
      bd <- np_mul beta' direction ;;
      direction' <- np_add sec bd ;;
      Ok (Continue (mk_mmcg point residual sec direction' delta norm_res))
    else
      Ok (Continue (mk_mmcg point residual sec sec delta norm_res)).

Fixpoint mmcg_loop (n : nat) (st : mmcg_state) : result mmcg_state :=
  match n with
  | O => Ok st
  | S n' =>
      f <- mmcg_iter st ;;
      match f with
      | Break st' => Ok st'
      | Continue st' => mmcg_loop n' st'
      end
  end.

Definition mmcg_init : result mmcg_state :=
  let point := reshape_col init in
  g <- gradient crit_list point (shape init) ;;
  let residual := np_neg g in
  sec <- precond_ residual ;;
  let direction := sec in
  rt <- np_transpose 0 residual ;;
  delta <- np_matmul rt direction ;;
  Ok (mk_mmcg point residual sec direction delta [la_norm residual]).

(** The Majorize-Minimize Conjugate Gradient (MM-CG) algorithm. *)
Definition mmcg (max_iter : nat) : result (ndarray R * list R) :=
  st <- mmcg_init ;;
  st' <- mmcg_loop max_iter st ;;
  minimiser <- np_reshape (c_point st') (shape init) ;;
  Ok (minimiser, c_norm_res st').

End Solvers.

(** ** Operators and criteria of the examples *)

(** The identity as operator, adjoint and normal operator. *)
Definition op_identity (x : ndarray R) : result arr_or_list := Ok (Arr x).
Definition adj_identity (e : arr_or_list) : result (ndarray R) :=
  match e with
  | Arr a => Ok a
  | ArrList _ => Raise TypeError
  end.
Definition normal_identity (x : ndarray R) : result (ndarray R) := Ok x.

(** A callable that is not linear, [e + 1], in the place of the adjoint, and
    its composition with the identity operator. *)
Definition adj_shift (e : arr_or_list) : result (ndarray R) :=
  match e with
  | Arr a => Ok (amap (fun v => v + 1) a)
  | ArrList _ => Raise TypeError
  end.
Definition normal_shift (x : ndarray R) : result (ndarray R) :=
  Ok (amap (fun v => v + 1) x).


(** [QuadCriterion(identity, e + 1, x + 1, 1, [2])], as its constructor builds
    it. *)
Definition quad_shift : QuadCriterion.t :=
  QuadCriterion.mk
    (Criterion.mk op_identity adj_shift (Arr (mk_array [1%nat] [2])) false [] []
                  (mk_array [1%nat] [2]) 1 Square.new)
    normal_shift (mk_array [1%nat] [2 + 1]).

(** [QuadCriterion(identity, identity, identity)], with the default [hyper]
    and [mean], as its constructor builds it. *)
Definition quad_identity : QuadCriterion.t :=
  QuadCriterion.mk
    (Criterion.mk op_identity adj_identity Criterion.default_mean false [] []
                  (scalar 0) 1 Square.new)
    normal_identity (scalar 0).

(** The pseudo-inverse of the matrix [[9, 0], [0, 0]], the only one the
    example asks for. *)
Definition pinv_9_0_0_0 (a : ndarray R) : result (ndarray R) :=
  Ok (mk_array [2%nat; 2%nat] [1 / 9; 0; 0; 0]).

(** The states of [mmmg] on [init = [3]], with that criterion, [tol = 1/10]
    and that pseudo-inverse: after the initialisation, after the first
    iteration, and at the end of the second, which stops. *)
Definition mmmg_st0 : mmmg_state :=
  mk_mmmg (mk_array [1%nat; 1%nat] [3]) (mk_array [1%nat; 1%nat] [0])
          [mk_array [1%nat; 2%nat] [0; 0]] np_ones_2_1 [] 0.
Definition mmmg_st1 : mmmg_state :=
  mk_mmmg (mk_array [1%nat; 1%nat] [0]) (mk_array [1%nat; 1%nat] [-3])
          [mk_array [1%nat; 2%nat] [3; 0]] (mk_array [2%nat; 1%nat] [1; 0]) [3] 1.
Definition mmmg_st2 : mmmg_state :=
  mk_mmmg (mk_array [1%nat; 1%nat] [0]) (mk_array [1%nat; 1%nat] [-3])
          [mk_array [1%nat; 2%nat] [3; 0]] (mk_array [2%nat; 1%nat] [1; 0]) [3; 0] 2.

(** The operator [diag(1, 2)] on two unknowns, its adjoint and its normal
    operator [diag(1, 4)], and the [QuadCriterion] of these with [hyper = 1]
    and [mean = [0, 0]], as its constructor builds it. *)
Definition op_diag12 (x : ndarray R) : result arr_or_list :=
  Ok (Arr (mk_array (shape x) (map2 Rmult [1; 2] (data x)))).
Definition adj_diag12 (e : arr_or_list) : result (ndarray R) :=
  match e with
  | Arr a => Ok (mk_array (shape a) (map2 Rmult [1; 2] (data a)))
  | ArrList _ => Raise TypeError
  end.
Definition normal_diag14 (x : ndarray R) : result (ndarray R) :=
  Ok (mk_array (shape x) (map2 Rmult [1; 4] (data x))).

Definition quad_diag : QuadCriterion.t :=
  QuadCriterion.mk
    (Criterion.mk op_diag12 adj_diag12 (Arr (mk_array [2%nat] [0; 0])) false [] []
                  (mk_array [2%nat] [0; 0]) 1 Square.new)
    normal_diag14 (mk_array [2%nat] [1 * 0; 2 * 0]).

(** The states of [mmcg] on [init = [1, 1]] with that criterion and
    [tol = 1/10]: after the initialisation and after the first iteration. *)
Definition mmcg_st0 : mmcg_state :=
  mk_mmcg (mk_array [2%nat; 1%nat] [1; 1]) (mk_array [2%nat; 1%nat] [-1; -4])
          (mk_array [2%nat; 1%nat] [-1; -4]) (mk_array [2%nat; 1%nat] [-1; -4])
          (mk_array [1%nat; 1%nat] [17]) [sqrt 17].

Definition mmcg_st1 : mmcg_state :=
  mk_mmcg (mk_array [2%nat; 1%nat] [48 / 65; -3 / 65])
          (mk_array [2%nat; 1%nat] [-48 / 65; 12 / 65])
          (mk_array [2%nat; 1%nat] [-48 / 65; 12 / 65])
          (mk_array [2%nat; 1%nat] [-3264 / 4225; 204 / 4225])
          (mk_array [1%nat; 1%nat] [2448 / 4225])
          [sqrt 17; la_norm (mk_array [2%nat; 1%nat] [-48 / 65; 12 / 65])].

(** An operator that returns its argument twice, as a list of two arrays,
    and its adjoint, the sum of the two arrays. *)
Definition op_twice (x : ndarray R) : result arr_or_list := Ok (ArrList [x; x]).
Definition adj_twice (e : arr_or_list) : result (ndarray R) :=
  match e with
  | ArrList [a; b] => np_add a b
  | _ => Raise TypeError
  end.

(** ** Operators *)

(** The base class of the linear operators: two abstract methods, and the
    methods derived from them. *)
Module Operator.

Record t : Type := mk {
  forward : ndarray R -> result (ndarray R);
  adjoint : ndarray R -> result (ndarray R)
}.

(** Return [H^t e]. *)
Definition backward (self : t) (point : ndarray R) : result (ndarray R) :=
  adjoint self point.

Definition transpose (self : t) (point : ndarray R) : result (ndarray R) :=
  adjoint self point.

Definition T (self : t) (point : ndarray R) : result (ndarray R) :=
  adjoint self point.

(** Return [H^t H x]. *)
Definition fwback (self : t) (point : ndarray R) : result (ndarray R) :=
  f <- forward self point ;;
  backward self f.

Definition call (self : t) (point : ndarray R) : result (ndarray R) :=
  forward self point.

End Operator.

(** numpy's [normalize_axis_index]: an axis from [-ndim] to [ndim - 1], counted
    from the end when negative; the [AxisError] of numpy is a [ValueError]. *)
Definition normalize_axis (axis : Z) (ndim : nat) : result nat :=
  if (Z.leb (- Z.of_nat ndim) axis && Z.ltb axis (Z.of_nat ndim))%bool
  then Ok (Z.to_nat (if Z.ltb axis 0 then axis + Z.of_nat ndim else axis))
  else Raise ValueError.

(** The entries of an array of shape [s] seen along the axis [k]: for each
    index before the axis, the sub-arrays along the axis, each flattened. *)
Definition axis_rows {A} (s : list nat) (k : nat) (d : list A) : list (list (list A)) :=
  let dk := nth k s 0%nat in
  let inner := prod_shape (skipn (S k) s) in
  let outer := prod_shape (firstn k s) in
  map (chunks inner dk) (chunks (dk * inner) outer d).

Definition of_axis_rows {A} (blocks : list (list (list A))) : list A :=
  concat (map (@concat A) blocks).

(** The shape [s] with [n] in the place of the axis [k]. *)
Definition set_axis (s : list nat) (k n : nat) : list nat :=
  firstn k s ++ n :: skipn (S k) s.

(** [a[1:] - a[:-1]] along the axis, on the sub-arrays of one block. *)
Definition diff_rows (rs : list (list R)) : list (list R) :=
  map2 (map2 Rminus) (tl rs) rs.

(** [np.diff(a, axis=axis)] *)
Definition np_diff (a : ndarray R) (axis : Z) : result (ndarray R) :=
  match shape a with
  | [] => Raise ValueError
  | s =>
      k <- normalize_axis axis (length s) ;;
      Ok (mk_array (set_axis s k (nth k s 0%nat - 1))
                   (of_axis_rows (map diff_rows (axis_rows s k (data a)))))
  end.

(** [np.diff(a, prepend=0, append=0, axis=axis)]: a sub-array of zeros is put
    before and after the others along the axis. *)
Definition np_diff_pad0 (a : ndarray R) (axis : Z) : result (ndarray R) :=
  match shape a with
  | [] => Raise ValueError
  | s =>
      k <- normalize_axis axis (length s) ;;
      let zero := repeat 0 (prod_shape (skipn (S k) s)) in
      Ok (mk_array (set_axis s k (nth k s 0%nat + 2 - 1))
                   (of_axis_rows (map (fun rs => diff_rows (zero :: rs ++ [zero]))
                                      (axis_rows s k (data a)))))
  end.

(** The difference operator: the first order differences along an axis. *)
Module Diff.

Definition forward (axis : Z) (point : ndarray R) : result (ndarray R) :=
  np_diff point axis.

Definition adjoint (axis : Z) (point : ndarray R) : result (ndarray R) :=
  d <- np_diff_pad0 point axis ;;
  Ok (np_neg d).

Definition new (axis : Z) : Operator.t := Operator.mk (forward axis) (adjoint axis).

End Diff.

(** * Properties *)

Unset Implicit Arguments.

(** A method on arrays, seen on one entry. *)
Definition at_point (f : ndarray R -> ndarray R) (u : R) : R := entry (f (scalar u)).

(** [gradient(u) / u], the quantity whose limit at 0 [inf] documents. *)
Definition gr_ratio (P : Potential.t R) (u : R) : R :=
  at_point (Potential.gradient P) u / u.

(** [l] is the limit of [f] at 0, over the non-zero reals. *)
Definition limit_at_0 (f : R -> R) (l : R) : Prop :=
  limit1_in f (fun u => u <> 0) l 0.

(** What [gr_coeffs] owes for an entry [u] of its argument: the stored [inf]
    (times the entry of [np.ones_like]) at a zero, the quotient of [g u] by
    [u] elsewhere. *)
Definition gr_entry {A} `{Scalar A} (inf_ : A) (g : A -> A) (u r : A) : Prop :=
  if s_is_zero u then r = s_mul inf_ s_one else s_div (g u) u = Ok r.

(** An array of shape [s], with as many entries. *)
Definition has_shape {A} (a : ndarray A) (s : list nat) : Prop :=
  shape a = s /\ length (data a) = prod_shape s.

(** What [mmmg] asks of a criterion for an unknown of the shape of [init]:
    its operator returns an array of [M] entries, its gradient one of
    [init.size] entries, and its majorant matrix for two directions is 2x2. *)
Definition well_shaped_crit (init : ndarray R) (crit : Crit.t) (M : nat) : Prop :=
  (forall x, has_shape x (shape init) ->
             exists o, Crit.operator crit x = Ok (Arr o) /\ wf o /\ size o = M) /\
  (forall x, has_shape x (shape init) ->
             exists g, Crit.gradient crit x = Ok g /\ wf g /\ size g = size init) /\
  (forall W x, has_shape W [M; 2%nat] -> has_shape x (shape init) ->
               exists a, Crit.norm_mat_major crit W x = Ok a /\
                         has_shape a [2%nat; 2%nat]).

(** The pseudo-inverse of a 2x2 matrix is a 2x2 matrix. *)
Definition pinv_2x2 (la_pinv : ndarray R -> result (ndarray R)) : Prop :=
  forall a, has_shape a [2%nat; 2%nat] ->
            exists p, la_pinv a = Ok p /\ has_shape p [2%nat; 2%nat].

(** The shapes of the local variables of [mmmg]. *)
Definition mmmg_shapes (init : ndarray R) (crit_list : list Crit.t)
    (st : mmmg_state) : Prop :=
  has_shape (m_point st) [size init; 1%nat] /\
  has_shape (m_move st) [size init; 1%nat] /\
  has_shape (m_step st) [2%nat; 1%nat] /\
  Forall2 (fun crit d => exists M, well_shaped_crit init crit M /\
                                   has_shape d [M; 2%nat])
          crit_list (m_op_directions st).

(** The state a pass through the body of a solver leaves. *)
Definition flow_state {S} (f : flow S) : S :=
  match f with
  | Continue s => s
  | Break s => s
  end.

(** What [mmcg] keeps between two passes: the point is a column of the size
    of [init], the residual is the opposite of the gradient at the point, and
    its norm is the last one recorded. *)
Definition mmcg_inv (crit_list : list Crit.t) (init : ndarray R) (st : mmcg_state)
  : Prop :=
  shape (c_point st) = [size init; 1%nat] /\
  exists g, gradient crit_list (c_point st) (shape init) = Ok g /\
            c_residual st = np_neg g /\
            last (c_norm_res st) 0 = la_norm g.

(** The number an entry with infinities stands for, when it is finite. *)
Definition finite_part (x : xreal) : R :=
  match x with
  | Finite r => r
  | _ => 0
  end.

(** A method on arrays with infinities, seen on one finite entry. *)
Definition at_finite (f : ndarray xreal -> ndarray xreal) (u : R) : R :=
  finite_part (nth 0 (data (f (scalar (Finite u)))) NaN).

(** The opposite of the differences of the sub-arrays [ys] along an axis,
    with [p] put before them and zeros after. *)
Definition adjoint_rows (p : list R) (n : nat) (ys : list (list R)) : list (list R) :=
  map (map Ropp) (diff_rows (p :: ys ++ [repeat 0 n])).

(** A block of an array and a block of its differences along an axis: one
    sub-array less, all of [n] entries. *)
Definition blocks_fit (n : nat) (bx by_ : list (list R)) : Prop :=
  length bx = S (length by_) /\
  Forall (fun r => length r = n) bx /\
  Forall (fun r => length r = n) by_.

(** The list the adjoint of a stacked criterion is handed: entry by entry,
    the gradient [g] of the potential at the difference of an output and
    the array of the mean it goes with. *)
Definition residual_list (g : R -> R) (outs mean : list (ndarray R)) : list (ndarray R) :=
  map2 (fun o m => mk_array (shape o) (map g (map2 Rminus (data o) (data m)))) outs mean.

(** ** Comparisons *)

Lemma R_leb_true (x y : R) : x <= y -> R_leb x y = true.
Proof. intros H. unfold R_leb. destruct (Rle_dec x y); [reflexivity | contradiction]. Qed.

Lemma R_leb_false (x y : R) : y < x -> R_leb x y = false.
Proof. intros H. unfold R_leb. destruct (Rle_dec x y); [lra | reflexivity]. Qed.

Lemma R_ltb_true (x y : R) : x < y -> R_ltb x y = true.
Proof. intros H. unfold R_ltb. destruct (Rlt_dec x y); [reflexivity | contradiction]. Qed.

Lemma R_ltb_false (x y : R) : y <= x -> R_ltb x y = false.
Proof. intros H. unfold R_ltb. destruct (Rlt_dec x y); [lra | reflexivity]. Qed.

Lemma R_is_zero_true (x : R) : x = 0 -> R_is_zero x = true.
Proof. intros H. unfold R_is_zero. destruct (Req_dec_T x 0); [reflexivity | contradiction]. Qed.

Lemma R_is_zero_false (x : R) : x <> 0 -> R_is_zero x = false.
Proof. intros H. unfold R_is_zero. destruct (Req_dec_T x 0); [contradiction | reflexivity]. Qed.

Lemma R_sign_pos (x : R) : 0 < x -> R_sign x = 1.
Proof. intros H. unfold R_sign. now rewrite R_ltb_true. Qed.

(** ** The limit of a function at 0 *)

Lemma limit_at_0_unique (f : R -> R) (l l' : R) :
  limit_at_0 f l -> limit_at_0 f l' -> l = l'.
Proof.
  unfold limit_at_0. intros H H'.
  apply (single_limit f (fun u => u <> 0) l l' 0); trivial.
  intros alp Halp. exists (alp / 2). split; [lra |].
  unfold Rdist. rewrite Rminus_0_r, Rabs_pos_eq; lra.
Qed.

(** ** Hyperbolic *)

Lemma sqrt_1_plus_bounds (t : R) : 0 <= t -> 1 <= sqrt (1 + t) <= 1 + t / 2.
Proof.
  intros Ht.
  assert (Hs : 0 <= sqrt (1 + t)) by apply sqrt_pos.
  assert (Hq : sqrt (1 + t) * sqrt (1 + t) = 1 + t) by (apply sqrt_sqrt; lra).
  split; nra.
Qed.

Lemma pow2_pos (x : R) : x <> 0 -> 0 < x ^ 2.
Proof. intros H. assert (0 <= x ^ 2) by apply pow2_ge_0. simpl in *. nra. Qed.

Lemma Hyperbolic_value_at (delta u : R) :
  at_point (Hyperbolic.value delta) u = sqrt (1 + u ^ 2 / delta ^ 2) - 1.
Proof. reflexivity. Qed.

Lemma Hyperbolic_gradient_at (delta u : R) :
  at_point (Hyperbolic.gradient delta) u = (u / delta ^ 2) * sqrt (1 + u ^ 2 / delta ^ 2).
Proof. reflexivity. Qed.

(** The derivative of the value of [Hyperbolic(delta)]. *)
Lemma Hyperbolic_value_derivative (delta u : R) :
  delta <> 0 ->
  derivable_pt_lim (at_point (Hyperbolic.value delta)) u
                   ((u / delta ^ 2) / sqrt (1 + u ^ 2 / delta ^ 2)).
Proof.
  intros Hd.
  assert (Hd2 : 0 < delta ^ 2) by (apply pow2_pos; exact Hd).
  assert (Hpos : 0 < 1 + u ^ 2 / delta ^ 2).
  { assert (0 <= u ^ 2 / delta ^ 2).
    { apply Rmult_le_pos; [apply pow2_ge_0 | left; apply Rinv_0_lt_compat; exact Hd2]. }
    lra. }
  assert (Hs : 0 < sqrt (1 + u ^ 2 / delta ^ 2)) by (apply sqrt_lt_R0; exact Hpos).
  set (inner := fun x : R => 1 + x ^ 2 / delta ^ 2).
  assert (Hinner : derivable_pt_lim inner u (2 * u / delta ^ 2)).
  { unfold inner.
    replace (2 * u / delta ^ 2) with (0 + (INR 2 * u ^ Nat.pred 2) * / delta ^ 2)
      by (simpl; field; lra).
    apply (derivable_pt_lim_plus (fun _ => 1) (fun x => x ^ 2 / delta ^ 2)).
    - apply derivable_pt_lim_const.
    - unfold Rdiv.
      replace (INR 2 * u ^ Nat.pred 2 * / delta ^ 2)
        with (INR 2 * u ^ Nat.pred 2 * / delta ^ 2 + u ^ 2 * 0) by ring.
      apply (derivable_pt_lim_mult (fun x => x ^ 2) (fun _ => / delta ^ 2)).
      + apply derivable_pt_lim_pow.
      + apply derivable_pt_lim_const. }
  assert (Hcomp : derivable_pt_lim (comp sqrt inner) u
                    (/ (2 * sqrt (inner u)) * (2 * u / delta ^ 2))).
  { apply derivable_pt_lim_comp; [exact Hinner |].
    apply derivable_pt_lim_sqrt. exact Hpos. }
  replace ((u / delta ^ 2) / sqrt (1 + u ^ 2 / delta ^ 2))
    with (/ (2 * sqrt (inner u)) * (2 * u / delta ^ 2) - 0)
    by (unfold inner; field; split; lra).
  apply (derivable_pt_lim_minus (comp sqrt inner) (fun _ => 1)).
  - exact Hcomp.
  - apply derivable_pt_lim_const.
Qed.

(** The gradient of the code is the derivative times [1 + u^2/delta^2]: the
    two agree at [u = 0] only. *)
Lemma Hyperbolic_gradient_vs_derivative (delta u : R) :
  delta <> 0 ->
  at_point (Hyperbolic.gradient delta) u
  = (u / delta ^ 2) / sqrt (1 + u ^ 2 / delta ^ 2) * (1 + u ^ 2 / delta ^ 2).
Proof.
  intros Hd. rewrite Hyperbolic_gradient_at.
  assert (Hd2 : 0 < delta ^ 2) by (apply pow2_pos; exact Hd).
  assert (Hpos : 0 < 1 + u ^ 2 / delta ^ 2).
  { assert (0 <= u ^ 2 / delta ^ 2).
    { apply Rmult_le_pos; [apply pow2_ge_0 | left; apply Rinv_0_lt_compat; exact Hd2]. }
    lra. }
  assert (Hs : 0 < sqrt (1 + u ^ 2 / delta ^ 2)) by (apply sqrt_lt_R0; exact Hpos).
  rewrite <- (sqrt_sqrt (1 + u ^ 2 / delta ^ 2)) at 3 by lra.
  field. split; lra.
Qed.

Lemma sqrt_25_16 : sqrt (1 + (3 / 4) ^ 2 / 1 ^ 2) = 5 / 4.
Proof. apply sqrt_lem_1; lra. Qed.

(** C1. At [delta = 1] and [u = 3/4], [Hyperbolic.gradient] returns 15/16,
    while the derivative of [Hyperbolic.value], and the formula
    [(u/delta^2)/sqrt(1 + u^2/delta^2)], is 3/5: the code multiplies by the
    square root where the derivative divides by it. *)
Theorem Hyperbolic_gradient_not_derivative :
  at_point (Hyperbolic.gradient 1) (3 / 4) = 15 / 16 /\
  derivable_pt_lim (at_point (Hyperbolic.value 1)) (3 / 4) (3 / 5) /\
  (3 / 4 / 1 ^ 2) / sqrt (1 + (3 / 4) ^ 2 / 1 ^ 2) = 3 / 5 /\
  at_point (Hyperbolic.gradient 1) (3 / 4)
    <> (3 / 4 / 1 ^ 2) / sqrt (1 + (3 / 4) ^ 2 / 1 ^ 2).
Proof.
  assert (Hg : at_point (Hyperbolic.gradient 1) (3 / 4) = 15 / 16).
  { rewrite Hyperbolic_gradient_at, sqrt_25_16. lra. }
  assert (Hf : (3 / 4 / 1 ^ 2) / sqrt (1 + (3 / 4) ^ 2 / 1 ^ 2) = 3 / 5).
  { rewrite sqrt_25_16. lra. }
  repeat split.
  - exact Hg.
  - rewrite <- Hf. apply Hyperbolic_value_derivative. lra.
  - exact Hf.
  - rewrite Hg, Hf. lra.
Qed.

(** ** Huber *)

Lemma Huber_value_at (delta u : R) :
  at_point (Huber.value delta) u = if R_leb (Rabs u) delta then u ^ 2 else Rabs u.
Proof. reflexivity. Qed.

Lemma Huber_gradient_at (delta u : R) :
  at_point (Huber.gradient delta) u
  = if R_leb (Rabs u) delta then 2 * u else 2 * delta * R_sign u.
Proof. reflexivity. Qed.

Lemma Huber_value_inside (delta u : R) :
  Rabs u <= delta -> at_point (Huber.value delta) u = u ^ 2.
Proof. intros H. rewrite Huber_value_at, R_leb_true; trivial. Qed.

Lemma Huber_value_above (delta u : R) :
  0 <= delta -> delta < u -> at_point (Huber.value delta) u = u.
Proof.
  intros H0 H. rewrite Huber_value_at.
  rewrite Rabs_pos_eq by lra. rewrite R_leb_false; trivial.
Qed.

Lemma Huber_gradient_above (delta u : R) :
  0 <= delta -> delta < u -> at_point (Huber.gradient delta) u = 2 * delta.
Proof.
  intros H0 H. rewrite Huber_gradient_at.
  rewrite Rabs_pos_eq by lra. rewrite R_leb_false by trivial.
  rewrite R_sign_pos by lra. ring.
Qed.

(** Above [delta] the value is [|u|]: its derivative is 1. *)
Lemma Huber_value_derivative_above (delta u : R) :
  0 <= delta -> delta < u ->
  derivable_pt_lim (at_point (Huber.value delta)) u 1.
Proof.
  intros H0 H.
  apply (derivable_pt_lim_locally_ext id (at_point (Huber.value delta)) u delta (u + 1)).
  - lra.
  - intros z Hz. unfold id. symmetry. apply Huber_value_above; lra.
  - apply derivable_pt_lim_id.
Qed.

(** The value jumps from [delta^2] to [delta] at [delta], here for
    [delta = 2]. *)
Lemma Huber_value_not_continuous :
  ~ continuity_pt (at_point (Huber.value 2)) 2.
Proof.
  intros Hc. destruct (Hc 1) as [alp [Halp Hlim]]; [lra |].
  set (x := 2 + Rmin (alp / 2) 1).
  assert (Hm1 : Rmin (alp / 2) 1 <= alp / 2) by apply Rmin_l.
  assert (Hm2 : Rmin (alp / 2) 1 <= 1) by apply Rmin_r.
  assert (Hm3 : 0 < Rmin (alp / 2) 1) by (apply Rmin_glb_lt; lra).
  specialize (Hlim x).
  assert (Hx : D_x no_cond 2 x /\ Rdist x 2 < alp).
  { split.
    - split; [exact I | unfold x; lra].
    - unfold Rdist, x. rewrite Rabs_pos_eq; lra. }
  apply Hlim in Hx. simpl in Hx. unfold Rdist in Hx.
  rewrite (Huber_value_above 2 x) in Hx by (unfold x; lra).
  rewrite (Huber_value_inside 2 2) in Hx
    by (rewrite Rabs_pos_eq; lra).
  unfold x in Hx.
  rewrite Rabs_left in Hx by lra. lra.
Qed.

(** C2. For [Huber(2)] at [u = 3] (where [|u| > delta]): [value] returns
    [|u| = 3], a function without the factor [delta] that is not continuous at
    [|u| = delta]; its derivative at 3 is 1, and [gradient] returns
    [2 * delta = 4]. *)
Theorem Huber_gradient_not_derivative :
  at_point (Huber.value 2) 3 = 3 /\
  at_point (Huber.gradient 2) 3 = 4 /\
  derivable_pt_lim (at_point (Huber.value 2)) 3 1 /\
  ~ derivable_pt_lim (at_point (Huber.value 2)) 3 (at_point (Huber.gradient 2) 3) /\
  ~ continuity_pt (at_point (Huber.value 2)) 2.
Proof.
  assert (Hg : at_point (Huber.gradient 2) 3 = 4).
  { rewrite Huber_gradient_above; lra. }
  assert (Hd : derivable_pt_lim (at_point (Huber.value 2)) 3 1).
  { apply Huber_value_derivative_above; lra. }
  repeat split.
  - apply Huber_value_above; lra.
  - exact Hg.
  - exact Hd.
  - rewrite Hg. intros H4.
    pose proof (uniqueness_limite _ _ _ _ Hd H4). lra.
  - exact Huber_value_not_continuous.
Qed.

(** ** [inf] and the limit of [gradient(u) / u] *)

Lemma Hyperbolic_inf (delta : R) :
  Potential.inf (Hyperbolic.new delta) = 1 / (2 * delta).
Proof. reflexivity. Qed.

Lemma Hyperbolic_gr_ratio (delta u : R) :
  delta <> 0 -> u <> 0 ->
  gr_ratio (Hyperbolic.new delta) u = 1 / delta ^ 2 * sqrt (1 + u ^ 2 / delta ^ 2).
Proof.
  intros Hd Hu. unfold gr_ratio. simpl Potential.gradient.
  rewrite Hyperbolic_gradient_at.
  assert (0 < delta ^ 2) by (apply pow2_pos; exact Hd).
  field. split; lra.
Qed.

(** With the gradient of the code, [gradient(u) / u] tends to [1 / delta^2]
    at 0. *)
Lemma Hyperbolic_gr_ratio_limit (delta : R) :
  delta <> 0 -> limit_at_0 (gr_ratio (Hyperbolic.new delta)) (1 / delta ^ 2).
Proof.
  intros Hd eps Heps.
  assert (Hd2 : 0 < delta ^ 2) by (apply pow2_pos; exact Hd).
  assert (Hd4 : 0 < delta ^ 2 * delta ^ 2) by (apply Rmult_lt_0_compat; exact Hd2).
  exists (Rmin 1 (eps * (delta ^ 2 * delta ^ 2))). split.
  - apply Rmin_glb_lt; [lra | apply Rmult_lt_0_compat; lra].
  - intros u [Hu Hdist]. cbn [dist R_met] in Hdist. unfold Rdist in Hdist.
    rewrite Rminus_0_r in Hdist.
    assert (H1 : Rabs u < 1) by (eapply Rlt_le_trans; [exact Hdist | apply Rmin_l]).
    assert (H2 : Rabs u < eps * (delta ^ 2 * delta ^ 2))
      by (eapply Rlt_le_trans; [exact Hdist | apply Rmin_r]).
    assert (Ha : 0 <= Rabs u) by apply Rabs_pos.
    assert (Hsq : u ^ 2 = Rabs u * Rabs u).
    { rewrite <- Rabs_mult. rewrite Rabs_pos_eq; [ring | nra]. }
    assert (Hu2 : u ^ 2 < eps * (delta ^ 2 * delta ^ 2)) by nra.
    assert (Ht : 0 <= u ^ 2 / delta ^ 2).
    { apply Rmult_le_pos; [apply pow2_ge_0 | left; apply Rinv_0_lt_compat; exact Hd2]. }
    pose proof (sqrt_1_plus_bounds _ Ht) as [Hlo Hhi].
    cbn [dist R_met]. unfold Rdist. rewrite Hyperbolic_gr_ratio by assumption.
    replace (1 / delta ^ 2 * sqrt (1 + u ^ 2 / delta ^ 2) - 1 / delta ^ 2)
      with ((sqrt (1 + u ^ 2 / delta ^ 2) - 1) / delta ^ 2) by (field; lra).
    rewrite Rabs_pos_eq.
    + apply Rlt_le_trans with (u ^ 2 / delta ^ 2 / delta ^ 2).
      * apply Rle_lt_trans with (u ^ 2 / delta ^ 2 / 2 / delta ^ 2).
        -- apply Rmult_le_compat_r; [left; apply Rinv_0_lt_compat; exact Hd2 | lra].
        -- assert (Hq : 0 <= u ^ 2 / delta ^ 2 / delta ^ 2).
           { apply Rmult_le_pos; [exact Ht | left; apply Rinv_0_lt_compat; exact Hd2]. }
           assert (Hne : u ^ 2 <> 0) by (apply pow_nonzero; exact Hu).
           assert (Hp : 0 < u ^ 2 / delta ^ 2 / delta ^ 2).
           { apply Rmult_lt_0_compat; [apply Rmult_lt_0_compat |];
               try (apply Rinv_0_lt_compat; exact Hd2).
             assert (0 <= u ^ 2) by apply pow2_ge_0. lra. }
           replace (u ^ 2 / delta ^ 2 / 2 / delta ^ 2)
             with (u ^ 2 / delta ^ 2 / delta ^ 2 / 2) by (field; lra).
           lra.
      * left. apply Rmult_lt_reg_r with (delta ^ 2 * delta ^ 2); [exact Hd4 |].
        replace (u ^ 2 / delta ^ 2 / delta ^ 2 * (delta ^ 2 * delta ^ 2))
          with (u ^ 2) by (field; lra).
        exact Hu2.
    + apply Rmult_le_pos; [lra | left; apply Rinv_0_lt_compat; exact Hd2].
Qed.

Lemma Huber_gr_ratio_near_0 (delta u : R) :
  u <> 0 -> Rabs u <= delta -> gr_ratio (Huber.new delta) u = 2.
Proof.
  intros Hu Hle. unfold gr_ratio. simpl Potential.gradient.
  rewrite Huber_gradient_at, R_leb_true by exact Hle. field. exact Hu.
Qed.

(** For [Huber(delta)], [gradient(u) / u] tends to 2 at 0. *)
Lemma Huber_gr_ratio_limit (delta : R) :
  0 < delta -> limit_at_0 (gr_ratio (Huber.new delta)) 2.
Proof.
  intros Hd eps Heps. exists delta. split; [lra |].
  intros u [Hu Hdist]. cbn [dist R_met] in Hdist. unfold Rdist in Hdist.
  rewrite Rminus_0_r in Hdist.
  cbn [dist R_met]. unfold Rdist. rewrite Huber_gr_ratio_near_0 by (trivial; lra).
  rewrite Rminus_diag, Rabs_R0. lra.
Qed.

(** C3. [Hyperbolic(1)] stores [inf = 1/2] (the second assignment of its
    constructor) while [gradient(u) / u] tends to 1 at 0, the value of the
    first assignment; [Huber(1)] stores [inf = 1] while [gradient(u) / u]
    tends to 2. *)
Theorem inf_not_limit_of_gr_ratio :
  (Potential.inf (Hyperbolic.new 1) = 1 / 2 /\
   limit_at_0 (gr_ratio (Hyperbolic.new 1)) 1 /\
   ~ limit_at_0 (gr_ratio (Hyperbolic.new 1)) (Potential.inf (Hyperbolic.new 1))) /\
  (Potential.inf (Huber.new 1) = 1 /\
   limit_at_0 (gr_ratio (Huber.new 1)) 2 /\
   ~ limit_at_0 (gr_ratio (Huber.new 1)) (Potential.inf (Huber.new 1))).
Proof.
  assert (Hh : limit_at_0 (gr_ratio (Hyperbolic.new 1)) 1).
  { replace 1 with (1 / 1 ^ 2) at 2 by lra. apply Hyperbolic_gr_ratio_limit. lra. }
  assert (Hu : limit_at_0 (gr_ratio (Huber.new 1)) 2).
  { apply Huber_gr_ratio_limit. lra. }
  split; repeat split.
  - rewrite Hyperbolic_inf. lra.
  - exact Hh.
  - rewrite Hyperbolic_inf. intros H.
    pose proof (limit_at_0_unique _ _ _ Hh H). lra.
  - exact Hu.
  - intros H. simpl in H. pose proof (limit_at_0_unique _ _ _ Hu H). lra.
Qed.

(** [Square]: the stored [inf] is the limit of [gradient(u) / u] at 0. *)
Lemma limit_at_0_of_continuous (f h : R -> R) :
  continuity_pt h 0 -> (forall u, u <> 0 -> f u = h u) -> limit_at_0 f (h 0).
Proof.
  intros Hc Hf eps Heps. destruct (Hc eps Heps) as [alp [Halp H]].
  exists alp. split; [exact Halp |].
  intros u [Hu Hd]. rewrite (Hf u Hu). apply H. split; [| exact Hd].
  split; [exact I | intros E; apply Hu; symmetry; exact E].
Qed.

Lemma Square_inf_is_limit :
  limit_at_0 (gr_ratio Square.new) (Potential.inf Square.new).
Proof.
  apply (limit_at_0_of_continuous _ (fun _ => 1)).
  - apply continuity_pt_const. intros x y. reflexivity.
  - intros u Hu. unfold gr_ratio, at_point. cbn. field. exact Hu.
Qed.

(** X19. [GemanMcClure]: for [delta <> 0] the stored [inf], [1 / delta^2],
    is the limit of the GR coefficient [gradient(u) / u] at 0, as the
    docstring of [Potential] says of [inf]. *)
Theorem GemanMcClure_inf_is_limit (delta : R) :
  delta <> 0 ->
  limit_at_0 (gr_ratio (GemanMcClure.new delta)) (Potential.inf (GemanMcClure.new delta)).
Proof.
  intros Hd.
  assert (Hd2 : 0 < delta ^ 2) by (apply pow2_pos; exact Hd).
  set (h := fun u : R => 4 * delta ^ 2 / (2 * delta ^ 2 + u ^ 2) ^ 2).
  replace (Potential.inf (GemanMcClure.new delta)) with (h 0).
  - apply (limit_at_0_of_continuous _ h).
    + unfold h. reg. apply pow_nonzero. rewrite pow_i by lia. lra.
    + intros u Hu. unfold gr_ratio, at_point, h. cbn -[pow].
      assert (0 <= u ^ 2) by apply pow2_ge_0.
      field. split; [lra | exact Hu].
  - unfold h. cbn -[pow]. field. lra.
Qed.

Lemma GemanMcClure_inf_is_limit_witness :
  2 <> 0 /\
  limit_at_0 (gr_ratio (GemanMcClure.new 2)) (Potential.inf (GemanMcClure.new 2)).
Proof.
  assert (H : 2 <> 0) by lra.
  split; [exact H |].
  exact (GemanMcClure_inf_is_limit 2 H).
Defined.

(** X20. [SquareTruncApprox]: for [delta <> 0] the stored [inf],
    [1 / delta^2], is the limit of the GR coefficient [gradient(u) / u] at
    0. *)
Theorem SquareTruncApprox_inf_is_limit (delta : R) :
  delta <> 0 ->
  limit_at_0 (gr_ratio (SquareTruncApprox.new delta))
             (Potential.inf (SquareTruncApprox.new delta)).
Proof.
  intros Hd.
  assert (Hd2 : 0 < delta ^ 2) by (apply pow2_pos; exact Hd).
  set (h := fun u : R => 1 / delta ^ 2 * exp (- (u ^ 2) / (2 * delta ^ 2))).
  replace (Potential.inf (SquareTruncApprox.new delta)) with (h 0).
  - apply (limit_at_0_of_continuous _ h).
    + unfold h. reg. 
    + intros u Hu. unfold gr_ratio, at_point, h. cbn -[pow exp].
      field. split; [lra | exact Hu].
  - unfold h. cbn -[pow exp].
    replace (- 0 ^ 2 / (2 * delta ^ 2)) with 0 by (field; lra).
    rewrite exp_0. field. lra.
Qed.

Lemma SquareTruncApprox_inf_is_limit_witness :
  3 <> 0 /\
  limit_at_0 (gr_ratio (SquareTruncApprox.new 3))
             (Potential.inf (SquareTruncApprox.new 3)).
Proof.
  assert (H : 3 <> 0) by lra.
  split; [exact H |].
  exact (SquareTruncApprox_inf_is_limit 3 H).
Defined.

(** [VminProj] with a negative bound: the gradient vanishes around 0, the
    limit is 0 and [inf] is 1. *)
Lemma VminProj_gr_ratio_limit (vmin : R) :
  vmin < 0 -> limit_at_0 (gr_ratio (VminProj.new vmin)) 0.
Proof.
  intros Hv eps Heps. exists (- vmin). split; [lra |].
  intros u [Hu Hdist]. cbn [dist R_met] in Hdist. unfold Rdist in Hdist.
  rewrite Rminus_0_r in Hdist.
  assert (Hlt : vmin < u).
  { destruct (Rcase_abs u) as [Hneg | Hpos].
    - rewrite (Rabs_left u Hneg) in Hdist. lra.
    - lra. }
  cbn [dist R_met]. unfold Rdist, gr_ratio, at_point. cbn.
  rewrite (R_ltb_true vmin u Hlt).
  unfold Rdiv. rewrite Rmult_0_l, Rminus_diag, Rabs_R0. lra.
Qed.

(** ** Lists, chunks and broadcasting *)

Lemma firstn_plus {A} (a b : nat) (l : list A) :
  firstn (a + b) l = firstn a l ++ firstn b (skipn a l).
Proof.
  revert l. induction a as [| a IH]; intros l.
  - reflexivity.
  - destruct l as [| x l].
    + simpl. now rewrite firstn_nil.
    + simpl. now rewrite IH.
Qed.

Lemma concat_chunks {A} (k n : nat) (l : list A) :
  concat (chunks k n l) = firstn (n * k) l.
Proof.
  revert l. induction n as [| n IH]; intros l.
  - reflexivity.
  - simpl. rewrite IH. symmetry. apply firstn_plus.
Qed.

Lemma chunks_length {A} (k n : nat) (l : list A) :
  length l = (n * k)%nat -> Forall (fun c => length c = k) (chunks k n l).
Proof.
  revert l. induction n as [| n IH]; intros l Hl.
  - constructor.
  - simpl. constructor.
    + rewrite length_firstn. simpl in Hl. lia.
    + apply IH. rewrite length_skipn. simpl in Hl. lia.
Qed.

Lemma pad_shape_same (s : list nat) : pad_shape (length s) s = s.
Proof. unfold pad_shape. now rewrite Nat.sub_diag. Qed.

Lemma broadcast_dim_same (a : nat) : broadcast_dim a a = Some a.
Proof. unfold broadcast_dim. now rewrite Nat.eqb_refl. Qed.

Lemma broadcast_aligned_same (s : list nat) : broadcast_aligned s s = Some s.
Proof.
  induction s as [| a s IH]; [reflexivity |].
  simpl. now rewrite broadcast_dim_same, IH.
Qed.

(** Two arrays of one shape are combined at that shape. *)
Lemma broadcast_shapes_same (s : list nat) : broadcast_shapes s s = Some s.
Proof.
  unfold broadcast_shapes. rewrite Nat.max_id, pad_shape_same.
  apply broadcast_aligned_same.
Qed.

Lemma broadcast_data_same {A} (s : list nat) (d : list A) :
  length d = prod_shape s -> broadcast_data s s d = d.
Proof.
  revert d. induction s as [| a s IH]; intros d Hd.
  - reflexivity.
  - simpl. rewrite Nat.eqb_refl.
    simpl in Hd.
    assert (Hmap : map (broadcast_data s s) (chunks (prod_shape s) a d)
                   = chunks (prod_shape s) a d).
    { pose proof (chunks_length (prod_shape s) a d Hd) as Hall.
      induction Hall as [| c cs Hc _ IHc]; [reflexivity |].
      simpl. now rewrite IH, IHc. }
    rewrite Hmap, concat_chunks, <- Hd. apply firstn_all.
Qed.

(** ... and their entries are taken as they are. *)
Lemma broadcast_to_same {A} (a : ndarray A) (s : list nat) :
  shape a = s -> wf a -> broadcast_to a s = data a.
Proof.
  intros Hs Hwf. subst s. unfold broadcast_to. rewrite pad_shape_same.
  apply broadcast_data_same. exact Hwf.
Qed.

Lemma np_binop_same_shape {A B C} (f : A -> B -> C) (a : ndarray A) (b : ndarray B) :
  shape a = shape b -> wf a -> wf b ->
  np_binop f a b = Ok (mk_array (shape a) (map2 f (data a) (data b))).
Proof.
  intros Hs Ha Hb. unfold np_binop.
  rewrite <- Hs, broadcast_shapes_same.
  rewrite (broadcast_to_same a (shape a) eq_refl Ha).
  rewrite (broadcast_to_same b (shape a) (eq_sym Hs) Hb). reflexivity.
Qed.

(** ** Masks *)

Lemma select_length {A} (mask : list bool) (l : list A) :
  length mask = length l -> length (select mask l) = count_true mask.
Proof.
  revert l. induction mask as [| b m IH]; intros l Hl.
  - reflexivity.
  - destruct l as [| x l]; [discriminate |].
    injection Hl as Hl. destruct b; simpl; rewrite IH by exact Hl; reflexivity.
Qed.

Lemma wf_1d {A} (l : list A) : wf (mk_array [length l] l).
Proof. unfold wf, size. simpl. lia. Qed.

(** ** The base method [Potential.gr_coeffs] *)

Section BaseGrCoeffs.

Context {A : Type} {SA : Scalar A}.

(** A division whose divisor is not zero has a result. *)
Hypothesis div_defined :
  forall x y : A, s_is_zero y = false -> exists q, s_div x y = Ok q.

Variable P : Potential.t A.
Variable g : A -> A.

(** The gradient of the potential works entry by entry. *)
Hypothesis gradient_elementwise :
  forall v : ndarray A, Potential.gradient P v = amap g v.

Let nz (x : A) : bool := negb (s_is_zero x).

Lemma select_nonzero (d : list A) :
  Forall (fun y => s_is_zero y = false) (select (map nz d) d).
Proof.
  induction d as [| x d IH]; simpl; [constructor |].
  unfold nz at 1. destruct (s_is_zero x) eqn:Hx; simpl; [exact IH |].
  constructor; assumption.
Qed.

Lemma mapM_div_nonzero (s : list A) :
  Forall (fun y => s_is_zero y = false) s ->
  exists qs,
    mapM (fun p => s_div (fst p) (snd p)) (combine (map g s) s) = Ok qs /\
    Forall2 (fun y q => s_div (g y) y = Ok q) s qs.
Proof.
  induction 1 as [| y s Hy _ IH].
  - exists []. split; [reflexivity | constructor].
  - destruct IH as [qs [Hqs Hall]].
    destruct (div_defined (g y) y Hy) as [q Hq].
    exists (q :: qs). split.
    + simpl. rewrite Hq. simpl. rewrite Hqs. reflexivity.
    + constructor; assumption.
Qed.

Lemma scatter_gr_entry (d qs : list A) :
  Forall2 (fun y q => s_div (g y) y = Ok q) (select (map nz d) d) qs ->
  Forall2 (gr_entry (Potential.inf P) g) d
    (scatter (map nz d)
             (map (s_mul (Potential.inf P)) (repeat s_one (length d))) qs).
Proof.
  revert qs. induction d as [| x d IH]; intros qs Hqs; simpl.
  - constructor.
  - simpl in Hqs. unfold nz at 1 in Hqs. unfold nz at 1.
    destruct (s_is_zero x) eqn:Hx; simpl in *.
    + constructor; [| apply IH; exact Hqs].
      unfold gr_entry. rewrite Hx. reflexivity.
    + inversion Hqs as [| y q s' qs' Hq Hrest]; subst.
      constructor; [| apply IH; exact Hrest].
      unfold gr_entry. rewrite Hx. exact Hq.
Qed.

(** The divisor [point[idx]] has no zero entry, the division goes through,
    and the masked assignment is reached with the quotients. *)
Lemma gr_coeffs_to_assignment (s : list nat) (d : list A) :
  mask_get (mk_array s d) (np_nonzero_mask (mk_array s d))
  = Ok (mk_array [length (select (map nz d) d)] (select (map nz d) d)) /\
  exists qs,
    Forall2 (fun y q => s_div (g y) y = Ok q) (select (map nz d) d) qs /\
    Potential.gr_coeffs P (mk_array s d)
    = mask_set (amap (s_mul (Potential.inf P)) (np_ones_like (mk_array s d)))
               (np_nonzero_mask (mk_array s d))
               (mk_array [length (select (map nz d) d)] qs).
Proof.
  assert (Hget : mask_get (mk_array s d) (np_nonzero_mask (mk_array s d))
                 = Ok (mk_array [length (select (map nz d) d)] (select (map nz d) d))).
  { unfold mask_get, np_nonzero_mask, amap. simpl.
    destruct (list_eq_dec Nat.eq_dec s s) as [_ | Hne]; [reflexivity | contradiction]. }
  split; [exact Hget |].
  destruct (mapM_div_nonzero _ (select_nonzero d)) as [qs [Hqs Hall]].
  exists qs. split; [exact Hall |].
  unfold Potential.gr_coeffs. rewrite Hget. simpl bind.
  rewrite gradient_elementwise.
  unfold np_divide, amap. cbn [shape data].
  rewrite broadcast_shapes_same.
  set (k := length (select (map nz d) d)) in *.
  rewrite (broadcast_to_same (mk_array [k] (map g (select (map nz d) d))) [k] eq_refl)
    by (unfold wf, size, k; simpl; rewrite length_map; lia).
  rewrite (broadcast_to_same (mk_array [k] (select (map nz d) d)) [k] eq_refl)
    by (unfold wf, size, k; simpl; lia).
  cbn [data]. rewrite Hqs. reflexivity.
Qed.

(** The run of [gr_coeffs] on an array with a dimension at least: the
    divisor [point[idx]] has no zero entry, the division and the masked
    assignment go through, and the result has the shape of [point] and the
    entries [gr_entry] describes. *)
Lemma gr_coeffs_run (u : ndarray A) :
  shape u <> [] ->
  (exists den, mask_get u (np_nonzero_mask u) = Ok den /\
               Forall (fun y => s_is_zero y = false) (data den)) /\
  exists r, Potential.gr_coeffs P u = Ok r /\
            shape r = shape u /\
            Forall2 (gr_entry (Potential.inf P) g) (data u) (data r).
Proof.
  destruct u as [s d]. cbn [shape]. intros Hdim.
  destruct (gr_coeffs_to_assignment s d) as [Hget [qs [Hall Hrun]]].
  split.
  - eexists. split; [exact Hget |]. simpl. apply select_nonzero.
  - assert (Hlen : length qs = length (select (map nz d) d)).
    { symmetry. eapply Forall2_length. exact Hall. }
    assert (Hcount : count_true (map nz d) = length (select (map nz d) d)).
    { symmetry. apply select_length. apply length_map. }
    exists (mk_array s (scatter (map nz d)
               (map (s_mul (Potential.inf P)) (repeat s_one (length d))) qs)).
    split; [| split; [reflexivity | apply scatter_gr_entry; exact Hall]].
    rewrite Hrun.
    set (k := length (select (map nz d) d)) in *.
    unfold mask_set, np_nonzero_mask, np_ones_like, amap. cbn [shape data].
    destruct s as [| n s]; [contradiction |].
    destruct (list_eq_dec Nat.eq_dec (n :: s) (n :: s)) as [_ | Hne]; [| contradiction].
    fold nz. rewrite Hcount.
    rewrite broadcast_shapes_same, Nat.eqb_refl.
    rewrite (broadcast_to_same (mk_array [k] qs) [k] eq_refl)
      by (unfold wf, size; simpl; lia).
    reflexivity.
Qed.

(** On an array without dimension the quotients are computed and the
    assignment [aux[idx] = ...] fails: [aux] is a numpy scalar. *)
Lemma gr_coeffs_without_dimension (u : ndarray A) :
  shape u = [] -> Potential.gr_coeffs P u = Raise TypeError.
Proof.
  destruct u as [s d]. cbn [shape]. intros ->.
  destruct (gr_coeffs_to_assignment [] d) as [_ [qs [_ Hrun]]].
  rewrite Hrun. reflexivity.
Qed.

End BaseGrCoeffs.

(** The two kinds of entries have a division that is defined away from
    zero. *)
Lemma R_div_defined (x y : R) : s_is_zero y = false -> exists q, s_div x y = Ok q.
Proof.
  simpl. intros Hy. exists (x / y). unfold R_div. now rewrite Hy.
Qed.

Lemma xreal_div_defined (x y : xreal) :
  s_is_zero y = false -> exists q, s_div x y = Ok q.
Proof. intros _. exists (x_div x y). reflexivity. Qed.

Lemma gr_entry_real (inf_ : R) (g : R -> R) (u r : R) :
  gr_entry inf_ g u r <-> (u = 0 -> r = inf_) /\ (u <> 0 -> r = g u / u).
Proof.
  unfold gr_entry. simpl. unfold R_div, R_is_zero.
  destruct (Req_dec_T u 0) as [H0 | Hn].
  - split.
    + intros ->. split; [intros _; ring | contradiction].
    + intros [H _]. rewrite (H H0). ring.
  - split.
    + intros H. injection H as <-. split; [contradiction | reflexivity].
    + intros [_ H]. now rewrite (H Hn).
Qed.

(** The gradient of each variant works entry by entry. *)
Lemma amap_id {A} (v : ndarray A) : amap (fun x => x) v = v.
Proof. destruct v as [s d]. unfold amap. simpl. now rewrite map_id. Qed.

Lemma Square_gradient_elementwise (v : ndarray R) :
  Potential.gradient Square.new v = amap (fun u => u) v.
Proof. simpl. unfold Square.gradient. now rewrite amap_id. Qed.

Lemma VminProj_gradient_elementwise (vmin : R) (v : ndarray R) :
  Potential.gradient (VminProj.new vmin) v
  = amap (fun u => if R_ltb vmin u then 0 else u - vmin) v.
Proof. reflexivity. Qed.

Lemma VmaxProj_gradient_elementwise (vmax : R) (v : ndarray R) :
  Potential.gradient (VmaxProj.new vmax) v
  = amap (fun u => if R_ltb u vmax then 0 else u - vmax) v.
Proof. reflexivity. Qed.

Lemma Hyperbolic_gradient_elementwise (delta : R) (v : ndarray R) :
  Potential.gradient (Hyperbolic.new delta) v
  = amap (fun u => (u / (delta ^ 2)) * sqrt (1 + (u ^ 2) / delta ^ 2)) v.
Proof. reflexivity. Qed.

Lemma Huber_gradient_elementwise (delta : R) (v : ndarray R) :
  Potential.gradient (Huber.new delta) v
  = amap (fun u => if R_leb (Rabs u) delta then 2 * u else 2 * delta * R_sign u) v.
Proof. reflexivity. Qed.

Lemma GemanMcClure_gradient_elementwise (delta : R) (v : ndarray R) :
  Potential.gradient (GemanMcClure.new delta) v
  = amap (fun u => 4 * u * delta ^ 2 / (2 * delta ^ 2 + u ^ 2) ^ 2) v.
Proof. reflexivity. Qed.

Lemma SquareTruncApprox_gradient_elementwise (delta : R) (v : ndarray R) :
  Potential.gradient (SquareTruncApprox.new delta) v
  = amap (fun u => u / (delta ^ 2) * exp (- (u ^ 2) / (2 * delta ^ 2))) v.
Proof. reflexivity. Qed.

Lemma HerbertLeahy_gradient_elementwise (delta : R) (v : ndarray xreal) :
  Potential.gradient (HerbertLeahy.new delta) v
  = amap (fun u => x_div (x_mul (Finite 2) u) (x_add (Finite (delta ^ 2)) (x_mul u u))) v.
Proof. reflexivity. Qed.

(** C8, counterexample. On an array without dimension, here [np.array(3.0)]
    with [Huber(1)], [gr_coeffs] does not return: the quotient is computed and
    the assignment [aux[idx] = ...] raises [TypeError]. *)
Lemma gr_coeffs_raises_without_dimension :
  shape (scalar 3) = [] /\
  Potential.gr_coeffs (Huber.new 1) (scalar 3) = Raise TypeError /\
  ~ exists r, Potential.gr_coeffs (Huber.new 1) (scalar 3) = Ok r.
Proof.
  assert (H : Potential.gr_coeffs (Huber.new 1) (scalar 3) = Raise TypeError).
  { apply (gr_coeffs_without_dimension R_div_defined (Huber.new 1) _
             (Huber_gradient_elementwise 1)).
    reflexivity. }
  split; [reflexivity |]. split; [exact H |].
  intros [r Hr]. rewrite H in Hr. discriminate.
Qed.

(** C8, amended. For a potential whose [gradient] works entry by entry (as
    that of every variant does) and every array [u] with one dimension at
    least, the base-class [gr_coeffs] returns: the divisor [u[idx]] it builds
    has no zero entry, so no division by zero takes place, and the result has
    the shape of [u], with the stored [inf] where [u] is zero and
    [gradient(u_i) / u_i] elsewhere. *)
Theorem gr_coeffs_total {A : Type} {SA : Scalar A}
    (div_defined : forall x y : A, s_is_zero y = false -> exists q, s_div x y = Ok q)
    (P : Potential.t A) (g : A -> A)
    (gradient_elementwise : forall v : ndarray A, Potential.gradient P v = amap g v)
    (u : ndarray A) :
  shape u <> [] ->
  (exists den, mask_get u (np_nonzero_mask u) = Ok den /\
               Forall (fun y => s_is_zero y = false) (data den)) /\
  exists r, Potential.gr_coeffs P u = Ok r /\
            shape r = shape u /\
            Forall2 (gr_entry (Potential.inf P) g) (data u) (data r).
Proof. exact (gr_coeffs_run div_defined P g gradient_elementwise u). Qed.

(** On real entries: [inf] at the zeros, [g u / u] elsewhere. *)
Lemma gr_coeffs_real (P : Potential.t R) (g : R -> R) (u : ndarray R) :
  (forall v, Potential.gradient P v = amap g v) ->
  shape u <> [] ->
  exists r, Potential.gr_coeffs P u = Ok r /\
            shape r = shape u /\
            Forall2 (fun ui ri => (ui = 0 -> ri = Potential.inf P) /\
                                  (ui <> 0 -> ri = g ui / ui))
                    (data u) (data r).
Proof.
  intros Hg Hdim.
  destruct (gr_coeffs_run R_div_defined P g Hg u Hdim) as [_ [r [Hr [Hs Hall]]]].
  exists r. repeat split; trivial.
  eapply Forall2_impl; [| exact Hall].
  intros a b Hab. apply gr_entry_real. exact Hab.
Qed.

(** For [HerbertLeahy], whose [inf] is [np.inf]: the infinity at the zeros. *)
Lemma HerbertLeahy_gr_coeffs (delta : R) (u : ndarray xreal) :
  shape u <> [] ->
  exists r, Potential.gr_coeffs (HerbertLeahy.new delta) u = Ok r /\
            shape r = shape u /\
            Forall2 (fun ui ri => s_is_zero ui = true -> ri = PInf) (data u) (data r).
Proof.
  intros Hdim.
  destruct (gr_coeffs_run xreal_div_defined (HerbertLeahy.new delta) _
              (HerbertLeahy_gradient_elementwise delta) u Hdim)
    as [_ [r [Hr [Hs Hall]]]].
  exists r. repeat split; trivial.
  eapply Forall2_impl; [| exact Hall].
  intros a b Hab Hz. unfold gr_entry in Hab. rewrite Hz in Hab.
  rewrite Hab. simpl. unfold x_inf_of_sign. rewrite R_ltb_true by lra. reflexivity.
Qed.

(** [Square]: the coefficients are all 1. *)
Lemma Square_gr_coeffs_run (u : ndarray R) :
  shape u <> [] ->
  exists r, Potential.gr_coeffs Square.new u = Ok r /\
            shape r = shape u /\
            data r = repeat 1 (length (data u)).
Proof.
  intros Hdim.
  destruct (gr_coeffs_real Square.new (fun x => x) u Square_gradient_elementwise Hdim)
    as [r [Hr [Hs Hall]]].
  exists r. repeat split; trivial.
  induction Hall as [| ui ri us rs [H0 Hn] _ IH]; [reflexivity |].
  simpl. rewrite IH. f_equal.
  destruct (Req_dec_T ui 0) as [Hz | Hnz].
  - rewrite (H0 Hz). reflexivity.
  - rewrite (Hn Hnz). field. exact Hnz.
Qed.

(** C9, counterexample. [Square().gr_coeffs] at the number 0, an array
    without dimension: the call raises [TypeError] and returns no 1. *)
Lemma Square_gr_coeffs_raises_at_scalar_0 :
  shape (scalar 0) = [] /\
  Potential.gr_coeffs Square.new (scalar 0) = Raise TypeError /\
  ~ exists r, Potential.gr_coeffs Square.new (scalar 0) = Ok r.
Proof.
  assert (H : Potential.gr_coeffs Square.new (scalar 0) = Raise TypeError).
  { apply (gr_coeffs_without_dimension R_div_defined Square.new _
             Square_gradient_elementwise).
    reflexivity. }
  split; [reflexivity |]. split; [exact H |].
  intros [r Hr]. rewrite H in Hr. discriminate.
Qed.

(** C9, amended. For [Square] and every array [u] with one dimension at
    least, [gr_coeffs(u)] has the shape of [u] and every entry equal to 1,
    the entries where [u] is 0 included. *)
Theorem Square_gr_coeffs_ones (u : ndarray R) :
  shape u <> [] ->
  exists r, Potential.gr_coeffs Square.new u = Ok r /\
            shape r = shape u /\
            (forall i, (i < length (data u))%nat -> nth i (data r) 0 = 1) /\
            data r = repeat 1 (length (data u)).
Proof.
  intros Hdim.
  destruct (Square_gr_coeffs_run u Hdim) as [r [Hr [Hs Hd]]].
  exists r. repeat split; trivial.
  intros i Hi. rewrite Hd. apply nth_repeat_lt. exact Hi.
Qed.

Lemma Square_gr_coeffs_ones_witness :
  shape (mk_array [3%nat] [0; 5; -2]) <> [] /\
  exists r, Potential.gr_coeffs Square.new (mk_array [3%nat] [0; 5; -2]) = Ok r /\
            shape r = shape (mk_array [3%nat] [0; 5; -2]) /\
            (forall i, (i < length (data (mk_array [3%nat] [0; 5; -2]%R)))%nat ->
                       nth i (data r) 0 = 1) /\
            data r = repeat 1 (length (data (mk_array [3%nat] [0; 5; -2]))).
Proof.
  assert (Hdim : shape (mk_array [3%nat] [0; 5; -2]) <> []) by discriminate.
  split; [exact Hdim |].
  exact (Square_gr_coeffs_ones (mk_array [3%nat] [0; 5; -2]) Hdim).
Defined.

Lemma gr_coeffs_total_witness :
  (forall x y : R, s_is_zero y = false -> exists q, s_div x y = Ok q) /\
  (forall v : ndarray R,
     Potential.gradient (Huber.new 1) v
     = amap (fun u => if R_leb (Rabs u) 1 then 2 * u else 2 * 1 * R_sign u) v) /\
  shape (mk_array [3%nat] [0; 3; 1 / 2]) <> [] /\
  ((exists den, mask_get (mk_array [3%nat] [0; 3; 1 / 2])
                         (np_nonzero_mask (mk_array [3%nat] [0; 3; 1 / 2])) = Ok den /\
                Forall (fun y => s_is_zero y = false) (data den)) /\
   exists r, Potential.gr_coeffs (Huber.new 1) (mk_array [3%nat] [0; 3; 1 / 2]) = Ok r /\
             shape r = [3%nat] /\
             Forall2 (gr_entry (Potential.inf (Huber.new 1))
                               (fun u => if R_leb (Rabs u) 1 then 2 * u else 2 * 1 * R_sign u))
                     [0; 3; 1 / 2] (data r)).
Proof.
  assert (Hdim : shape (mk_array [3%nat] [0; 3; 1 / 2]) <> []) by discriminate.
  split; [exact R_div_defined |].
  split; [exact (Huber_gradient_elementwise 1) |].
  split; [exact Hdim |].
  exact (gr_coeffs_total R_div_defined (Huber.new 1) _
           (Huber_gradient_elementwise 1) (mk_array [3%nat] [0; 3; 1 / 2]) Hdim).
Defined.

(** ** The result monad *)

Lemma bind_Ok {A B} (m : result A) (k : A -> result B) (b : B) :
  bind m k = Ok b -> exists a, m = Ok a /\ k a = Ok b.
Proof. destruct m as [a | e]; simpl; [eauto | discriminate]. Qed.

(** Split the hypothesis [x <- m ;; k = Ok b] into [m = Ok a] and
    [k a = Ok b], as long as there is one. *)
Ltac bind_inv H :=
  repeat match type of H with
         | bind ?m _ = Ok _ =>
             let a := fresh "a" in
             let Ha := fresh "Hrun" in
             apply bind_Ok in H; destruct H as [a [Ha H]]
         end.

(** The same for one [bind], with names for the value and its equation. *)
Tactic Notation "bind_step" hyp(H) ident(a) ident(Ha) :=
  apply bind_Ok in H; destruct H as [a [Ha H]].

(** ** mmmg *)

Lemma size_reshape_col {A} (a : ndarray A) : size (reshape_col a) = size a.
Proof.
  change (size a * (1 * 1) = size a)%nat. lia.
Qed.

Lemma np_reshape_back {A} (a p : ndarray A) :
  shape p = shape (reshape_col a) ->
  np_reshape p (shape a) = Ok (mk_array (shape a) (data p)).
Proof.
  intros Hs. unfold np_reshape.
  replace (size p) with (size a); [now rewrite Nat.eqb_refl |].
  unfold size at 2. rewrite Hs. symmetry. apply (size_reshape_col a).
Qed.

Lemma np_reshape_shape {A} (a r : ndarray A) (s : list nat) :
  np_reshape a s = Ok r -> shape r = s /\ data r = data a.
Proof.
  unfold np_reshape. destruct (Nat.eqb (prod_shape s) (size a)); [| discriminate].
  intros H. injection H as <-. split; reflexivity.
Qed.

Lemma np_iadd_shape (a b r : ndarray R) : np_iadd a b = Ok r -> shape r = shape a.
Proof.
  unfold np_iadd. intros H. bind_inv H.
  destruct (list_eq_dec Nat.eq_dec (shape a0) (shape a)) as [He | _]; [| discriminate].
  injection H as <-. exact He.
Qed.

Lemma la_norm_scalar_0 : la_norm (scalar 0) = 0.
Proof.
  unfold la_norm, scalar, Rsum. simpl.
  replace (0 * 0 + 0) with 0 by ring. apply sqrt_0.
Qed.

Lemma last_snoc {A} (l : list A) (x d : A) : last (l ++ [x]) d = x.
Proof. apply last_last. Qed.

Lemma mmmg_loop_S (la_pinv : ndarray R -> result (ndarray R))
    (crit_list : list Crit.t) (init : ndarray R) (tol : R) (n : nat)
    (st : mmmg_state) :
  mmmg_loop la_pinv crit_list init tol (S n) st
  = (f <- mmmg_iter la_pinv crit_list init tol st ;;
     match f with
     | Break st' => Ok st'
     | Continue st' => mmmg_loop la_pinv crit_list init tol n st'
     end).
Proof. reflexivity. Qed.

Section MmmgProperties.

Variable la_pinv : ndarray R -> result (ndarray R).
Variable crit_list : list Crit.t.
Variable init : ndarray R.
Variable tol : R.

(** One pass through the loop body: one norm is recorded, that of the
    gradient at the current point; the pass ends the loop exactly when this
    norm is below [point.size * tol], and then leaves the point as it is. *)
Lemma mmmg_iter_spec (st : mmmg_state) (f : flow mmmg_state) :
  mmmg_iter la_pinv crit_list init tol st = Ok f ->
  exists grad,
    gradient crit_list (m_point st) (shape init) = Ok grad /\
    match f with
    | Break st' =>
        la_norm grad < INR (size (m_point st)) * tol /\
        m_point st' = m_point st /\
        m_norm_grad st' = m_norm_grad st ++ [la_norm grad] /\
        m_iterations st' = S (m_iterations st)
    | Continue st' =>
        ~ la_norm grad < INR (size (m_point st)) * tol /\
        shape (m_point st') = shape (m_point st) /\
        m_norm_grad st' = m_norm_grad st ++ [la_norm grad] /\
        m_iterations st' = S (m_iterations st)
    end.
Proof.
  unfold mmmg_iter. intros H.
  apply bind_Ok in H. destruct H as [grad [Hgrad H]].
  exists grad. split; [exact Hgrad |].
  rewrite last_snoc in H. unfold R_ltb in H.
  destruct (Rlt_dec (la_norm grad) (INR (size (m_point st)) * tol)) as [Hlt | Hge].
  - injection H as <-. simpl. auto.
  - bind_inv H. injection H as <-. simpl.
    repeat split; trivial.
    eapply np_iadd_shape; eassumption.
Qed.

(** The loop, from any state: what it appends to the trace. *)
Lemma mmmg_loop_spec (n : nat) (st st' : mmmg_state) :
  mmmg_loop la_pinv crit_list init tol n st = Ok st' ->
  exists l,
    m_norm_grad st' = m_norm_grad st ++ l /\
    m_iterations st' = (m_iterations st + length l)%nat /\
    (length l <= n)%nat /\
    shape (m_point st') = shape (m_point st) /\
    (forall i, (S i < length l)%nat ->
               ~ nth i l 0 < INR (size (m_point st)) * tol) /\
    ((l <> [] /\ last l 0 < INR (size (m_point st)) * tol /\
      exists grad, gradient crit_list (m_point st') (shape init) = Ok grad /\
                   last l 0 = la_norm grad) \/
     (length l = n /\ Forall (fun v => ~ v < INR (size (m_point st)) * tol) l)).
Proof.
  revert st. induction n as [| n IH]; intros st H.
  - simpl in H. injection H as <-. exists []. simpl.
    rewrite app_nil_r. do 4 (split; [auto |]). split.
    + intros i Hi. lia.
    + right. split; [reflexivity | constructor].
  - simpl in H. apply bind_Ok in H. destruct H as [f [Hiter H]].
    apply mmmg_iter_spec in Hiter. destruct Hiter as [grad [Hgrad Hf]].
    destruct f as [st1 | st1].
    + destruct Hf as [Hge [Hshape [Hnorm Hit]]].
      apply IH in H. destruct H as [l [Hl [Hits [Hlen [Hsh [Hpre Hend]]]]]].
      assert (Hsize : size (m_point st1) = size (m_point st))
        by (unfold size; now rewrite Hshape).
      rewrite Hsize in Hpre, Hend.
      exists (la_norm grad :: l). simpl.
      split; [rewrite Hl, Hnorm, <- app_assoc; reflexivity |].
      split; [rewrite Hits, Hit; lia |].
      split; [lia |].
      split; [congruence |].
      split; [intros [| i] Hi; [exact Hge | apply Hpre; lia] |].
      destruct Hend as [[Hne Hlast] | [Hfull Hall]].
      * left. split; [discriminate |].
        destruct l as [| v l]; [contradiction | exact Hlast].
      * right. split; [lia | constructor; assumption].
    + destruct Hf as [Hlt [Hpoint [Hnorm Hit]]].
      injection H as <-.
      exists [la_norm grad]. simpl.
      split; [exact Hnorm |].
      split; [lia |].
      split; [lia |].
      split; [congruence |].
      split; [intros i Hi; lia |].
      left. split; [discriminate |]. split; [exact Hlt |].
      exists grad. rewrite Hpoint. split; [exact Hgrad | reflexivity].
Qed.

(** A pass that does not stop moves the point: [point += move]. *)
Lemma mmmg_iter_update (st st' : mmmg_state) :
  mmmg_iter la_pinv crit_list init tol st = Ok (Continue st') ->
  exists move, np_iadd (m_point st) move = Ok (m_point st').
Proof.
  unfold mmmg_iter. intros H.
  bind_step H grad Hgrad.
  destruct (R_ltb (last (m_norm_grad st ++ [la_norm grad]) 0)
                  (INR (size (m_point st)) * tol)); [discriminate |].
  bind_step H directions Hdir. bind_step H op_directions Hop.
  bind_step H a Ha. bind_step H pa Hpa. bind_step H dt Hdt. bind_step H dg Hdg.
  bind_step H step Hstep. bind_step H move' Hmove. bind_step H point' Hpoint.
  injection H as <-. exists move'. exact Hpoint.
Qed.

(** The loop, from any state, pass by pass: the states [sts] the passes
    start with, followed by the state the loop ends with.  Each pass records
    the norm of the gradient at its point; after a norm that is not below the
    threshold the point is moved and the loop goes on; a norm below the
    threshold is the last one, and leaves the point as it is. *)
Lemma mmmg_loop_states (n : nat) (st st' : mmmg_state) :
  mmmg_loop la_pinv crit_list init tol n st = Ok st' ->
  exists sts l,
    m_norm_grad st' = m_norm_grad st ++ l /\
    length sts = length l /\
    nth 0 (sts ++ [st']) st' = st /\
    forall i, (i < length l)%nat ->
      exists grad,
        gradient crit_list (m_point (nth i (sts ++ [st']) st')) (shape init) = Ok grad /\
        nth i l 0 = la_norm grad /\
        ((~ la_norm grad < INR (size (m_point st)) * tol /\
          mmmg_iter la_pinv crit_list init tol (nth i (sts ++ [st']) st')
          = Ok (Continue (nth (S i) (sts ++ [st']) st')) /\
          exists move, np_iadd (m_point (nth i (sts ++ [st']) st')) move
                       = Ok (m_point (nth (S i) (sts ++ [st']) st'))) \/
         (la_norm grad < INR (size (m_point st)) * tol /\
          S i = length l /\
          mmmg_iter la_pinv crit_list init tol (nth i (sts ++ [st']) st')
          = Ok (Break (nth (S i) (sts ++ [st']) st')) /\
          m_point (nth (S i) (sts ++ [st']) st') = m_point (nth i (sts ++ [st']) st'))).
Proof.
  revert st. induction n as [| n IH]; intros st H.
  - cbn [mmmg_loop] in H. injection H as <-. exists [], [].
    rewrite app_nil_r. split; [reflexivity |]. split; [reflexivity |].
    split; [reflexivity |].
    intros i Hi. cbn [length] in Hi. lia.
  - rewrite mmmg_loop_S in H. bind_step H f Hiter.
    pose proof (mmmg_iter_spec st f Hiter) as [grad [Hgrad Hf]].
    destruct f as [st1 | st1].
    + destruct Hf as [Hge [Hshape [Hnorm _]]].
      destruct (mmmg_iter_update st st1 Hiter) as [move Hmove].
      destruct (IH st1 H) as [sts [l [Hl [Hlen [Hfirst Hstep]]]]].
      assert (Hsize : size (m_point st1) = size (m_point st))
        by (unfold size; now rewrite Hshape).
      rewrite Hsize in Hstep.
      exists (st :: sts), (la_norm grad :: l).
      split; [rewrite Hl, Hnorm, <- app_assoc; reflexivity |].
      split; [cbn [length]; now rewrite Hlen |].
      split; [reflexivity |].
      intros [| i] Hi.
      * exists grad. cbn [app nth]. rewrite Hfirst.
        split; [exact Hgrad |]. split; [reflexivity |].
        left. split; [exact Hge |]. split; [exact Hiter |].
        exists move. exact Hmove.
      * cbn [length] in Hi. assert (Hi' : (i < length l)%nat) by lia.
        destruct (Hstep i Hi') as [g [Hg [Hv Hcase]]].
        exists g. cbn [app nth length]. split; [exact Hg |]. split; [exact Hv |].
        destruct Hcase as [Hc | [Hb [Hlast Hrest]]].
        -- left. exact Hc.
        -- right. split; [exact Hb |]. split; [lia | exact Hrest].
    + destruct Hf as [Hlt [Hpoint [Hnorm _]]]. injection H as <-.
      exists [st], [la_norm grad].
      split; [exact Hnorm |]. split; [reflexivity |]. split; [reflexivity |].
      intros i Hi. cbn [length] in Hi. assert (i = 0%nat) by lia. subst i.
      exists grad. cbn [app nth]. split; [exact Hgrad |]. split; [reflexivity |].
      right. split; [exact Hlt |]. split; [reflexivity |].
      split; [exact Hiter | exact Hpoint].
Qed.

End MmmgProperties.

(** C6. When [mmmg] returns [(x, trace)]: [x] is the final point with the
    shape of [init]; [trace] holds one norm per iteration performed, and the
    norm an iteration records is the norm of the gradient at the point the
    iteration starts with, [init] for the first; after a norm that is not
    below [init.size * tol] the point is moved and the loop goes on; a norm
    below [init.size * tol] is the last one, and the point is left as it is;
    so the loop ended either on such a norm or after [max_iter] iterations,
    and the trace has at most [max_iter] entries, hence at most
    [max_iter + 1].  [sts] are the states the iterations start with. *)
Theorem mmmg_trace (la_pinv : ndarray R -> result (ndarray R))
    (crit_list : list Crit.t) (init : ndarray R) (tol : R) (max_iter : nat)
    (x : ndarray R) (trace : list R) :
  mmmg la_pinv crit_list init tol max_iter = Ok (x, trace) ->
  exists st sts,
    mmmg_run la_pinv crit_list init tol max_iter = Ok st /\
    shape x = shape init /\ data x = data (m_point st) /\
    trace = m_norm_grad st /\
    length trace = m_iterations st /\
    (length trace <= max_iter)%nat /\
    (length trace <= max_iter + 1)%nat /\
    (forall i, (S i < length trace)%nat -> ~ nth i trace 0 < INR (size init) * tol) /\
    ((trace <> [] /\ last trace 0 < INR (size init) * tol /\
      exists grad, gradient crit_list (m_point st) (shape init) = Ok grad /\
                   last trace 0 = la_norm grad) \/
     (length trace = max_iter /\
      Forall (fun v => ~ v < INR (size init) * tol) trace)) /\
    length sts = length trace /\
    mmmg_init crit_list init = Ok (nth 0 (sts ++ [st]) st) /\
    m_point (nth 0 (sts ++ [st]) st) = reshape_col init /\
    (forall i, (i < length trace)%nat ->
       exists grad,
         gradient crit_list (m_point (nth i (sts ++ [st]) st)) (shape init) = Ok grad /\
         nth i trace 0 = la_norm grad /\
         ((~ la_norm grad < INR (size init) * tol /\
           mmmg_iter la_pinv crit_list init tol (nth i (sts ++ [st]) st)
           = Ok (Continue (nth (S i) (sts ++ [st]) st)) /\
           exists move, np_iadd (m_point (nth i (sts ++ [st]) st)) move
                        = Ok (m_point (nth (S i) (sts ++ [st]) st))) \/
          (la_norm grad < INR (size init) * tol /\
           S i = length trace /\
           mmmg_iter la_pinv crit_list init tol (nth i (sts ++ [st]) st)
           = Ok (Break (nth (S i) (sts ++ [st]) st)) /\
           m_point (nth (S i) (sts ++ [st]) st) = m_point (nth i (sts ++ [st]) st)))).
Proof.
  unfold mmmg. intros H. bind_inv H. rename a into st, a0 into minimiser.
  injection H as <- <-.
  unfold mmmg_run in Hrun. bind_inv Hrun. rename a into st0.
  assert (Hst0 : m_point st0 = reshape_col init /\ m_norm_grad st0 = [] /\
                 m_iterations st0 = 0%nat).
  { unfold mmmg_init in Hrun1. bind_inv Hrun1. injection Hrun1 as <-. auto. }
  destruct Hst0 as [Hp0 [Hn0 Hi0]].
  destruct (mmmg_loop_states la_pinv crit_list init tol max_iter st0 st Hrun)
    as [sts [l' [Hl' [Hlen' [Hfirst Hstep]]]]].
  pose proof Hrun as Hloop.
  apply mmmg_loop_spec in Hrun.
  destruct Hrun as [l [Hl [Hits [Hlen [Hsh [Hpre Hend]]]]]].
  rewrite Hn0 in Hl, Hl'. cbn [app] in Hl, Hl'. rewrite Hi0 in Hits. simpl in Hits.
  subst l'. rewrite Hl in Hlen', Hstep.
  rewrite Hp0, size_reshape_col in Hpre, Hend, Hstep.
  apply np_reshape_shape in Hrun0. destruct Hrun0 as [Hs Hd].
  exists st, sts.
  split; [unfold mmmg_run; rewrite Hrun1; cbn [bind]; exact Hloop |].
  rewrite Hl.
  split; [exact Hs |]. split; [exact Hd |]. split; [reflexivity |].
  split; [now rewrite Hits |]. split; [exact Hlen |]. split; [lia |].
  split; [exact Hpre |]. split; [exact Hend |].
  split; [exact Hlen' |]. rewrite Hfirst.
  split; [exact Hrun1 |]. split; [exact Hp0 | exact Hstep].
Qed.

(** With no criterion, the first pass through the loop records the norm 0 of
    the empty sum and stops. *)
Lemma mmmg_run_empty (la_pinv : ndarray R -> result (ndarray R))
    (init : ndarray R) (tol : R) (n : nat) :
  (0 < size init)%nat -> 0 < tol ->
  mmmg_run la_pinv [] init tol (S n)
  = Ok (mk_mmmg (reshape_col init) (np_zeros_like (reshape_col init)) []
                np_ones_2_1 [0] 1).
Proof.
  intros Hsize Htol.
  unfold mmmg_run, mmmg_init. cbn [mapM bind mmmg_loop].
  unfold mmmg_iter. cbn [gradient py_sum_gen fold_left bind m_point m_norm_grad
                         m_move m_op_directions m_step m_iterations app last].
  rewrite la_norm_scalar_0.
  rewrite R_ltb_true; [reflexivity |].
  rewrite size_reshape_col. apply Rmult_lt_0_compat; [| exact Htol].
  apply lt_0_INR. exact Hsize.
Qed.

(** C10. With an empty criterion list, a non-empty [init], [tol > 0] and
    [max_iter >= 1], [mmmg] performs one iteration and returns [init] as it
    is, with the trace [[0.0]]. *)
Theorem mmmg_empty_crit_list (la_pinv : ndarray R -> result (ndarray R))
    (init : ndarray R) (tol : R) (max_iter : nat) :
  (0 < size init)%nat -> 0 < tol -> (1 <= max_iter)%nat ->
  mmmg la_pinv [] init tol max_iter = Ok (init, [0]) /\
  exists st, mmmg_run la_pinv [] init tol max_iter = Ok st /\
             m_iterations st = 1%nat /\
             m_point st = reshape_col init.
Proof.
  intros Hsize Htol Hmax.
  destruct max_iter as [| n]; [lia |].
  pose proof (mmmg_run_empty la_pinv init tol n Hsize Htol) as Hrun.
  split.
  - unfold mmmg. rewrite Hrun. cbn [bind m_point m_norm_grad].
    rewrite (np_reshape_back init (reshape_col init) eq_refl).
    destruct init as [s d]. reflexivity.
  - eexists. split; [exact Hrun |]. split; reflexivity.
Qed.

Lemma mmmg_empty_crit_list_witness :
  (0 < size (mk_array [2%nat; 2%nat] [1; 2; 3; 4]))%nat /\
  0 < 1 / 10000 /\
  (1 <= 500)%nat /\
  (mmmg (fun a => Ok a) [] (mk_array [2%nat; 2%nat] [1; 2; 3; 4]) (1 / 10000) 500
   = Ok (mk_array [2%nat; 2%nat] [1; 2; 3; 4], [0]) /\
   exists st, mmmg_run (fun a => Ok a) [] (mk_array [2%nat; 2%nat] [1; 2; 3; 4])
                       (1 / 10000) 500 = Ok st /\
              m_iterations st = 1%nat /\
              m_point st = reshape_col (mk_array [2%nat; 2%nat] [1; 2; 3; 4])).
Proof.
  assert (Hs : (0 < size (mk_array [2%nat; 2%nat] [1; 2; 3; 4]))%nat)
    by (unfold size; simpl; lia).
  assert (Ht : 0 < 1 / 10000) by lra.
  assert (Hm : (1 <= 500)%nat) by lia.
  split; [exact Hs |]. split; [exact Ht |]. split; [exact Hm |].
  exact (mmmg_empty_crit_list (fun a => Ok a) (mk_array [2%nat; 2%nat] [1; 2; 3; 4])
           (1 / 10000) 500 Hs Ht Hm).
Defined.

(** ** Shapes through the operations of the solvers *)

Lemma has_shape_wf {A} (a : ndarray A) (s : list nat) : has_shape a s -> wf a.
Proof. intros [Hs Hl]. unfold wf, size. now rewrite Hs. Qed.

Lemma wf_has_shape {A} (a : ndarray A) : wf a -> has_shape a (shape a).
Proof. intros H. split; [reflexivity | exact H]. Qed.

Lemma prod_shape_col (n : nat) : prod_shape [n; 1%nat] = n.
Proof. unfold prod_shape. simpl. lia. Qed.

Lemma prod_shape_2 (m n : nat) : prod_shape [m; n] = (m * n)%nat.
Proof. unfold prod_shape. simpl. lia. Qed.

Lemma reshape_col_has_shape {A} (a : ndarray A) :
  wf a -> has_shape (reshape_col a) [size a; 1%nat].
Proof.
  intros H. split; [reflexivity |]. rewrite prod_shape_col. exact H.
Qed.

Lemma np_reshape_has_shape {A} (p : ndarray A) (s : list nat) (n : nat) :
  has_shape p [n; 1%nat] -> prod_shape s = n ->
  exists x, np_reshape p s = Ok x /\ has_shape x s.
Proof.
  intros [Hs Hl] Hn. unfold np_reshape, size. rewrite Hs, prod_shape_col, Hn.
  rewrite Nat.eqb_refl. eexists. split; [reflexivity |].
  split; [reflexivity |]. simpl. rewrite Hl, prod_shape_col. now rewrite Hn.
Qed.

Lemma chunks_count {A} (k n : nat) (l : list A) : length (chunks k n l) = n.
Proof. revert l. induction n as [| n IH]; intros l; simpl; [| rewrite IH]; reflexivity. Qed.

Lemma prod_shape_ones (k : nat) : prod_shape (repeat 1%nat k) = 1%nat.
Proof.
  induction k as [| k IH]; [reflexivity |].
  change (prod_shape (repeat 1%nat (S k))) with (1 * prod_shape (repeat 1%nat k))%nat.
  rewrite IH. reflexivity.
Qed.

Lemma concat_repeat_repeat {A} (x : A) (m n : nat) :
  concat (repeat (repeat x n) m) = repeat x (m * n).
Proof.
  induction m as [| m IH]; [reflexivity |].
  simpl. rewrite IH. symmetry. apply repeat_app.
Qed.

(** A scalar against any shape: its entry everywhere. *)
Lemma broadcast_data_scalar {A} (x : A) (s : list nat) :
  broadcast_data (repeat 1%nat (length s)) s [x] = repeat x (prod_shape s).
Proof.
  induction s as [| b t IH]; [reflexivity |].
  change (broadcast_data (repeat 1%nat (length (b :: t))) (b :: t) [x])
    with (let parts := map (broadcast_data (repeat 1%nat (length t)) t)
                           (chunks (prod_shape (repeat 1%nat (length t))) 1 [x]) in
          if Nat.eqb 1 b then concat parts else concat (repeat (concat parts) b)).
  rewrite prod_shape_ones. cbn [chunks firstn skipn map concat]. rewrite IH, app_nil_r.
  change (prod_shape (b :: t)) with (b * prod_shape t)%nat.
  destruct (Nat.eqb_spec 1 b) as [<- | Hb].
  - now rewrite Nat.mul_1_l.
  - apply concat_repeat_repeat.
Qed.

Lemma broadcast_aligned_ones (s : list nat) :
  broadcast_aligned (repeat 1%nat (length s)) s = Some s.
Proof.
  induction s as [| b t IH]; [reflexivity |].
  simpl. rewrite IH. unfold broadcast_dim.
  destruct (Nat.eqb_spec 1 b) as [<- | Hb]; reflexivity.
Qed.

Lemma broadcast_shapes_scalar (s : list nat) : broadcast_shapes [] s = Some s.
Proof.
  unfold broadcast_shapes. cbn [length]. rewrite Nat.max_0_l.
  rewrite pad_shape_same. unfold pad_shape. cbn [length].
  rewrite Nat.sub_0_r, app_nil_r. apply broadcast_aligned_ones.
Qed.

(** [0 + a], the first step of Python's [sum]. *)
Lemma np_add_scalar (x : R) (a : ndarray R) :
  wf a -> np_add (scalar x) a = Ok (amap (Rplus x) a).
Proof.
  intros Hwf. unfold np_add, np_binop. cbn [shape scalar].
  rewrite broadcast_shapes_scalar.
  rewrite (broadcast_to_same a (shape a) eq_refl Hwf).
  unfold broadcast_to. cbn [shape data scalar]. unfold pad_shape. cbn [length].
  rewrite Nat.sub_0_r, app_nil_r, broadcast_data_scalar.
  unfold amap. f_equal. f_equal.
  unfold map2. rewrite <- Hwf. clear Hwf.
  induction (data a) as [| y l IH]; [reflexivity |].
  cbn [length repeat combine map fst snd]. now rewrite IH.
Qed.

Lemma map2_length {A B C} (f : A -> B -> C) (l1 : list A) (l2 : list B) :
  length l1 = length l2 -> length (map2 f l1 l2) = length l1.
Proof.
  intros H. unfold map2. rewrite length_map, length_combine, <- H. apply Nat.min_id.
Qed.

Lemma amap_has_shape {A B} (f : A -> B) (a : ndarray A) (s : list nat) :
  has_shape a s -> has_shape (amap f a) s.
Proof.
  intros [Hs Hl]. split; [exact Hs |]. unfold amap. cbn [data]. now rewrite length_map.
Qed.

Lemma np_add_has_shape (a b : ndarray R) (s : list nat) :
  has_shape a s -> has_shape b s ->
  exists r, np_add a b = Ok r /\ has_shape r s.
Proof.
  intros [Hsa Hla] [Hsb Hlb].
  assert (Hwa : wf a) by (apply (has_shape_wf a s); split; assumption).
  assert (Hwb : wf b) by (apply (has_shape_wf b s); split; assumption).
  unfold np_add. rewrite np_binop_same_shape by (trivial; congruence).
  eexists. split; [reflexivity |]. split; [exact Hsa |].
  cbn [data]. rewrite map2_length by congruence. exact Hla.
Qed.

(** Python's [sum] over terms of one shape: that shape, if there is a term. *)
Lemma py_sum_gen_has_shape {X} (f : X -> result (ndarray R)) (l : list X) (s : list nat) :
  Forall (fun x => exists a, f x = Ok a /\ has_shape a s) l ->
  l <> [] ->
  exists r, py_sum_gen f l = Ok r /\ has_shape r s.
Proof.
  intros Hall Hne. unfold py_sum_gen.
  destruct Hall as [| x l [a [Ha Hsa]] Hall]; [contradiction |].
  cbn [fold_left bind]. rewrite Ha. cbn [bind].
  rewrite np_add_scalar by (apply (has_shape_wf a s); exact Hsa).
  assert (Hacc : has_shape (amap (Rplus 0) a) s) by (apply amap_has_shape; exact Hsa).
  clear Ha Hne. revert Hacc. generalize (amap (Rplus 0) a) as acc.
  induction Hall as [| y l [b [Hb Hsb]] _ IH]; intros acc Hacc.
  - exists acc. split; [reflexivity | exact Hacc].
  - cbn [fold_left bind]. rewrite Hb. cbn [bind].
    destruct (np_add_has_shape acc b s Hacc Hsb) as [r [Hr Hsr]].
    rewrite Hr. apply IH. exact Hsr.
Qed.

Lemma rows_count {A} (a : ndarray A) (m n : nat) :
  shape a = [m; n] -> length (rows a) = m.
Proof. intros Hs. unfold rows. rewrite Hs. apply chunks_count. Qed.

Lemma rows_length {A} (a : ndarray A) (m n : nat) :
  has_shape a [m; n] -> Forall (fun r => length r = n) (rows a).
Proof.
  intros [Hs Hl]. unfold rows. rewrite Hs. apply chunks_length.
  rewrite Hl. apply prod_shape_2.
Qed.

Lemma concat_length_uniform {A} (ls : list (list A)) (n : nat) :
  Forall (fun r => length r = n) ls -> length (concat ls) = (length ls * n)%nat.
Proof.
  induction 1 as [| r ls Hr _ IH]; [reflexivity |].
  simpl. rewrite length_app, Hr, IH. reflexivity.
Qed.

(** [a @ b] *)
Lemma np_matmul_has_shape (a b : ndarray R) (m k n : nat) :
  has_shape a [m; k] -> has_shape b [k; n] ->
  exists r, np_matmul a b = Ok r /\ has_shape r [m; n].
Proof.
  intros [Hsa Hla] [Hsb Hlb]. unfold np_matmul. rewrite Hsa, Hsb, Nat.eqb_refl.
  eexists. split; [reflexivity |]. split; [reflexivity |].
  cbn [data]. rewrite (concat_length_uniform _ n).
  - rewrite length_map, (rows_count a m k Hsa). symmetry. apply prod_shape_2.
  - apply Forall_map. apply Forall_forall. intros r _.
    rewrite length_map. apply length_seq.
Qed.

(** [a.T] *)
Lemma np_transpose_has_shape (a : ndarray R) (m n : nat) :
  has_shape a [m; n] ->
  exists r, np_transpose 0 a = Ok r /\ has_shape r [n; m].
Proof.
  intros [Hs Hl]. unfold np_transpose. rewrite Hs.
  eexists. split; [reflexivity |]. split; [reflexivity |].
  cbn [data]. rewrite (concat_length_uniform _ m).
  - rewrite length_map, length_seq. symmetry. apply prod_shape_2.
  - apply Forall_map. apply Forall_forall. intros j _.
    unfold column. rewrite length_map. apply (rows_count a m n Hs).
Qed.

Lemma map2_app_length {A} (l1 l2 : list (list A)) (n1 n2 : nat) :
  length l1 = length l2 ->
  Forall (fun r => length r = n1) l1 -> Forall (fun r => length r = n2) l2 ->
  Forall (fun r => length r = (n1 + n2)%nat) (map2 (@app A) l1 l2).
Proof.
  intros Hlen H1. revert l2 Hlen.
  induction H1 as [| r1 l1 Hr1 _ IH]; intros l2 Hlen H2.
  - constructor.
  - destruct H2 as [| r2 l2 Hr2 H2]; [discriminate |].
    unfold map2. cbn [combine map fst snd]. constructor.
    + rewrite length_app. congruence.
    + apply IH; [simpl in Hlen; lia | exact H2].
Qed.

(** [np.c_[a, b]] *)
Lemma np_c_has_shape (a b : ndarray R) (m n1 n2 : nat) :
  has_shape a [m; n1] -> has_shape b [m; n2] ->
  exists r, np_c_ a b = Ok r /\ has_shape r [m; (n1 + n2)%nat].
Proof.
  intros Ha Hb. pose proof Ha as [Hsa Hla]. pose proof Hb as [Hsb Hlb].
  unfold np_c_, as_columns. rewrite Hsa, Hsb. cbn [bind]. rewrite Hsa, Hsb, Nat.eqb_refl.
  eexists. split; [reflexivity |]. split; [reflexivity |].
  cbn [data]. rewrite (concat_length_uniform _ (n1 + n2)).
  - rewrite map2_length by (rewrite (rows_count a m n1 Hsa), (rows_count b m n2 Hsb); reflexivity).
    rewrite (rows_count a m n1 Hsa). symmetry. apply prod_shape_2.
  - apply map2_app_length.
    + rewrite (rows_count a m n1 Hsa), (rows_count b m n2 Hsb). reflexivity.
    + apply (rows_length a m n1). exact Ha.
    + apply (rows_length b m n2). exact Hb.
Qed.

(** [np.tile(a, 2)] of a column *)
Lemma np_tile2_has_shape (a : ndarray R) (m : nat) :
  has_shape a [m; 1%nat] -> has_shape (np_tile2 a) [m; 2%nat].
Proof.
  intros [Hs Hl]. unfold np_tile2. rewrite Hs.
  cbn [last removelast app Nat.mul Nat.add].
  split; [reflexivity |]. cbn [data].
  rewrite (concat_length_uniform _ 2).
  - rewrite length_map, chunks_count.
    change (prod_shape [m]) with (m * 1)%nat. rewrite prod_shape_2. lia.
  - apply Forall_map.
    assert (Hch : Forall (fun c : list R => length c = 1%nat)
                         (chunks 1 (prod_shape [m]) (data a))).
    { apply chunks_length. rewrite Hl, prod_shape_col.
      change (prod_shape [m]) with (m * 1)%nat. lia. }
    eapply Forall_impl; [| exact Hch].
    intros c Hc. rewrite length_app, Hc. reflexivity.
Qed.

(** [a += b] *)
Lemma np_iadd_has_shape (a b : ndarray R) (s : list nat) :
  has_shape a s -> has_shape b s ->
  exists r, np_iadd a b = Ok r /\ has_shape r s.
Proof.
  intros Ha Hb. destruct (np_add_has_shape a b s Ha Hb) as [r [Hr Hsr]].
  unfold np_iadd. rewrite Hr. cbn [bind].
  destruct Ha as [Hsa _]. destruct Hsr as [Hs Hl].
  destruct (list_eq_dec Nat.eq_dec (shape r) (shape a)) as [_ | Hne].
  - exists r. split; [reflexivity | split; assumption].
  - congruence.
Qed.

Section MmmgReturns.

Variable la_pinv : ndarray R -> result (ndarray R).
Variable init : ndarray R.
Variable tol : R.

Hypothesis init_wf : wf init.
Hypothesis pinv_ok : pinv_2x2 la_pinv.

Lemma vect_operator_ok (crit : Crit.t) (M : nat) (p : ndarray R) :
  well_shaped_crit init crit M -> has_shape p [size init; 1%nat] ->
  exists v, vect (Crit.operator crit) p (shape init) = Ok v /\
            has_shape v [M; 1%nat].
Proof.
  intros [Hop _] Hp. unfold vect.
  destruct (np_reshape_has_shape p (shape init) (size init) Hp eq_refl) as [x [Hx Hsx]].
  rewrite Hx. cbn [bind].
  destruct (Hop x Hsx) as [o [Ho [Hwo Hso]]].
  rewrite Ho. cbn [bind reshape_col_out].
  eexists. split; [reflexivity |]. rewrite <- Hso. apply reshape_col_has_shape. exact Hwo.
Qed.

Lemma vect_gradient_ok (crit : Crit.t) (M : nat) (p : ndarray R) :
  well_shaped_crit init crit M -> has_shape p [size init; 1%nat] ->
  exists v, vect (fun x => g <- Crit.gradient crit x ;; Ok (Arr g)) p (shape init) = Ok v /\
            has_shape v [size init; 1%nat].
Proof.
  intros [_ [Hgr _]] Hp. unfold vect.
  destruct (np_reshape_has_shape p (shape init) (size init) Hp eq_refl) as [x [Hx Hsx]].
  rewrite Hx. cbn [bind].
  destruct (Hgr x Hsx) as [g [Hg [Hwg Hsg]]].
  rewrite Hg. cbn [bind reshape_col_out].
  eexists. split; [reflexivity |]. rewrite <- Hsg. apply reshape_col_has_shape. exact Hwg.
Qed.

Lemma gradient_ok (crit_list : list Crit.t) (p : ndarray R) :
  crit_list <> [] ->
  Forall (fun crit => exists M, well_shaped_crit init crit M) crit_list ->
  has_shape p [size init; 1%nat] ->
  exists grad, gradient crit_list p (shape init) = Ok grad /\
               has_shape grad [size init; 1%nat].
Proof.
  intros Hne Hcrits Hp. unfold gradient.
  apply py_sum_gen_has_shape; [| exact Hne].
  eapply Forall_impl; [| exact Hcrits].
  intros crit [M HM]. apply (vect_gradient_ok crit M p HM Hp).
Qed.

Lemma op_directions_ok (crit_list : list Crit.t) (grad step : ndarray R)
    (ops : list (ndarray R)) :
  has_shape grad [size init; 1%nat] -> has_shape step [2%nat; 1%nat] ->
  Forall2 (fun crit d => exists M, well_shaped_crit init crit M /\
                                   has_shape d [M; 2%nat]) crit_list ops ->
  exists ops',
    mapM (fun p : Crit.t * ndarray R =>
            let (crit, i_op_dir) := p in
            v <- vect (Crit.operator crit) grad (shape init) ;;
            w <- np_matmul i_op_dir step ;;
            np_c_ v w)
         (combine crit_list ops) = Ok ops' /\
    Forall2 (fun crit d => exists M, well_shaped_crit init crit M /\
                                     has_shape d [M; 2%nat]) crit_list ops'.
Proof.
  intros Hgrad Hstep Hall.
  induction Hall as [| crit d cs ds [M [HM Hd]] _ IH].
  - exists []. split; [reflexivity | constructor].
  - destruct IH as [ops' [Hops' Hall']].
    destruct (vect_operator_ok crit M grad HM Hgrad) as [v [Hv Hsv]].
    destruct (np_matmul_has_shape d step M 2 1 Hd Hstep) as [w [Hw Hsw]].
    destruct (np_c_has_shape v w M 1 1 Hsv Hsw) as [c [Hc Hsc]].
    exists (c :: ops'). split.
    + cbn [combine mapM]. rewrite Hv. cbn [bind]. rewrite Hw. cbn [bind].
      rewrite Hc. cbn [bind]. rewrite Hops'. reflexivity.
    + constructor; [| exact Hall']. exists M. split; assumption.
Qed.

Lemma majorant_sum_ok (crit_list : list Crit.t) (p : ndarray R)
    (ops : list (ndarray R)) :
  crit_list <> [] ->
  has_shape p [size init; 1%nat] ->
  Forall2 (fun crit d => exists M, well_shaped_crit init crit M /\
                                   has_shape d [M; 2%nat]) crit_list ops ->
  exists a,
    py_sum_gen (fun q : Crit.t * ndarray R =>
                  let (crit, i_op_dir) := q in
                  x <- np_reshape p (shape init) ;;
                  Crit.norm_mat_major crit i_op_dir x)
               (combine crit_list ops) = Ok a /\
    has_shape a [2%nat; 2%nat].
Proof.
  intros Hne Hp Hall.
  apply py_sum_gen_has_shape.
  - clear Hne.
    induction Hall as [| crit d cs ds [M [HM Hd]] _ IH]; [constructor |].
    cbn [combine]. constructor; [| exact IH].
    destruct (np_reshape_has_shape p (shape init) (size init) Hp eq_refl) as [x [Hx Hsx]].
    rewrite Hx. cbn [bind].
    destruct HM as [_ [_ Hnmm]]. apply Hnmm; assumption.
  - destruct Hall; [contradiction | discriminate].
Qed.

(** One pass through the loop body raises nothing and keeps the shapes. *)
Lemma mmmg_iter_ok (crit_list : list Crit.t) (st : mmmg_state) :
  crit_list <> [] ->
  mmmg_shapes init crit_list st ->
  exists f, mmmg_iter la_pinv crit_list init tol st = Ok f /\
            match f with
            | Continue st' | Break st' => mmmg_shapes init crit_list st'
            end.
Proof.
  intros Hne [Hpoint [Hmove [Hstep Hops]]].
  assert (Hcrits : Forall (fun crit => exists M, well_shaped_crit init crit M) crit_list).
  { clear - Hops. induction Hops as [| c d cs ds [M [HM _]] _ IH]; constructor; eauto. }
  unfold mmmg_iter.
  destruct (gradient_ok crit_list (m_point st) Hne Hcrits Hpoint)
    as [grad [Hgrad Hsgrad]].
  rewrite Hgrad. cbn [bind].
  destruct (R_ltb _ _).
  - eexists. split; [reflexivity |].
    split; [exact Hpoint |]. split; [exact Hmove |]. split; [exact Hstep | exact Hops].
  - pose proof (amap_has_shape Ropp grad _ Hsgrad) as Hneg.
    destruct (np_c_has_shape (np_neg grad) (m_move st) (size init) 1 1 Hneg Hmove)
      as [directions [Hdir Hsdir]].
    rewrite Hdir. cbn [bind].
    destruct (op_directions_ok crit_list grad (m_step st) (m_op_directions st)
                Hsgrad Hstep Hops)
      as [ops' [Hops' Hall']].
    rewrite Hops'. cbn [bind].
    destruct (majorant_sum_ok crit_list (m_point st) ops' Hne Hpoint Hall')
      as [a [Ha Hsa]].
    rewrite Ha. cbn [bind].
    destruct (pinv_ok a Hsa) as [pa [Hpa Hspa]].
    rewrite Hpa. cbn [bind].
    destruct (np_transpose_has_shape directions (size init) 2 Hsdir) as [dt [Hdt Hsdt]].
    rewrite Hdt. cbn [bind].
    destruct (np_matmul_has_shape dt grad 2 (size init) 1 Hsdt Hsgrad) as [dg [Hdg Hsdg]].
    rewrite Hdg. cbn [bind].
    pose proof (amap_has_shape Ropp pa _ Hspa) as Hnpa.
    destruct (np_matmul_has_shape (np_neg pa) dg 2 2 1 Hnpa Hsdg) as [step [Hst Hsst]].
    rewrite Hst. cbn [bind].
    destruct (np_matmul_has_shape directions step (size init) 2 1 Hsdir Hsst)
      as [move' [Hmv Hsmv]].
    rewrite Hmv. cbn [bind].
    destruct (np_iadd_has_shape (m_point st) move' _ Hpoint Hsmv) as [point' [Hpt Hspt]].
    rewrite Hpt. cbn [bind].
    eexists. split; [reflexivity |].
    split; [exact Hspt |]. split; [exact Hsmv |]. split; [exact Hsst | exact Hall'].
Qed.

Lemma mmmg_loop_ok (crit_list : list Crit.t) (n : nat) (st : mmmg_state) :
  crit_list <> [] ->
  mmmg_shapes init crit_list st ->
  exists st', mmmg_loop la_pinv crit_list init tol n st = Ok st' /\
              mmmg_shapes init crit_list st'.
Proof.
  intros Hne. revert st. induction n as [| n IH]; intros st Hst.
  - exists st. split; [reflexivity | exact Hst].
  - destruct (mmmg_iter_ok crit_list st Hne Hst) as [f [Hf Hsf]].
    rewrite mmmg_loop_S, Hf. cbn [bind].
    destruct f as [st1 | st1].
    + apply IH. exact Hsf.
    + exists st1. split; [reflexivity | exact Hsf].
Qed.

Lemma mmmg_init_ok (crit_list : list Crit.t) :
  Forall (fun crit => exists M, well_shaped_crit init crit M) crit_list ->
  exists st, mmmg_init crit_list init = Ok st /\ mmmg_shapes init crit_list st.
Proof.
  intros Hcrits. unfold mmmg_init.
  pose proof (reshape_col_has_shape init init_wf) as Hpoint.
  assert (Hmove : has_shape (np_zeros_like (reshape_col init)) [size init; 1%nat]).
  { destruct Hpoint as [Hs Hl]. split; [exact Hs |].
    unfold np_zeros_like. cbn [data]. rewrite repeat_length. exact Hl. }
  assert (Hops : exists ops,
             mapM (fun crit => v <- vect (Crit.operator crit)
                                      (np_zeros_like (reshape_col init)) (shape init) ;;
                               Ok (np_tile2 v)) crit_list = Ok ops /\
             Forall2 (fun crit d => exists M, well_shaped_crit init crit M /\
                                              has_shape d [M; 2%nat]) crit_list ops).
  { induction Hcrits as [| crit cs [M HM] _ IH].
    - exists []. split; [reflexivity | constructor].
    - destruct IH as [ops [Hops Hall]].
      destruct (vect_operator_ok crit M _ HM Hmove) as [v [Hv Hsv]].
      exists (np_tile2 v :: ops). split.
      + cbn [mapM]. rewrite Hv. cbn [bind]. rewrite Hops. reflexivity.
      + constructor; [| exact Hall]. exists M. split; [exact HM |].
        apply np_tile2_has_shape. exact Hsv. }
  destruct Hops as [ops [Hops Hall]]. rewrite Hops. cbn [bind].
  eexists. split; [reflexivity |].
  split; [exact Hpoint |]. split; [exact Hmove |]. split; [| exact Hall].
  split; reflexivity.
Qed.

(** [mmmg] returns. *)
Lemma mmmg_returns (crit_list : list Crit.t) (max_iter : nat) :
  crit_list <> [] ->
  Forall (fun crit => exists M, well_shaped_crit init crit M) crit_list ->
  exists x trace, mmmg la_pinv crit_list init tol max_iter = Ok (x, trace).
Proof.
  intros Hne Hcrits.
  destruct (mmmg_init_ok crit_list Hcrits) as [st0 [Hinit Hs0]].
  destruct (mmmg_loop_ok crit_list max_iter st0 Hne Hs0) as [st [Hloop [Hpoint _]]].
  unfold mmmg, mmmg_run. rewrite Hinit. cbn [bind]. rewrite Hloop. cbn [bind].
  destruct (np_reshape_has_shape (m_point st) (shape init) (size init) Hpoint eq_refl)
    as [x [Hx _]].
  rewrite Hx. cbn [bind]. eauto.
Qed.

End MmmgReturns.

Lemma broadcast_shapes_scalar_r (s : list nat) : broadcast_shapes s [] = Some s.
Proof.
  unfold broadcast_shapes. cbn [length]. rewrite Nat.max_0_r.
  rewrite pad_shape_same. unfold pad_shape. cbn [length].
  rewrite Nat.sub_0_r, app_nil_r.
  induction s as [| b t IH]; [reflexivity |].
  simpl. rewrite IH. unfold broadcast_dim.
  destruct (Nat.eqb_spec b 1) as [-> | Hb]; [reflexivity |].
  destruct (Nat.eqb_spec 1 1); [reflexivity | contradiction].
Qed.

(** [a - x] for a scalar [x]. *)
Lemma np_sub_scalar (a : ndarray R) (x : R) :
  wf a -> np_sub a (scalar x) = Ok (amap (fun v => v - x) a).
Proof.
  intros Hwf. unfold np_sub, np_binop. cbn [shape scalar].
  rewrite broadcast_shapes_scalar_r.
  rewrite (broadcast_to_same a (shape a) eq_refl Hwf).
  unfold broadcast_to. cbn [shape data scalar]. unfold pad_shape. cbn [length].
  rewrite Nat.sub_0_r, app_nil_r, broadcast_data_scalar.
  unfold amap. f_equal. f_equal.
  unfold map2. rewrite <- Hwf. clear Hwf.
  induction (data a) as [| y l IH]; [reflexivity |].
  cbn [length repeat combine map fst snd]. now rewrite IH.
Qed.

(** The criterion of the first example fits an unknown of any shape. *)
Lemma quad_identity_well_shaped (init : ndarray R) :
  well_shaped_crit init (QuadCriterion_as_crit quad_identity) (size init).
Proof.
  split; [| split].
  - intros x Hx. exists x. split; [reflexivity |].
    split; [apply (has_shape_wf x (shape init)); exact Hx |].
    unfold size. destruct Hx as [-> _]. reflexivity.
  - intros x Hx. pose proof (has_shape_wf x (shape init) Hx) as Hwf.
    cbn [QuadCriterion_as_crit Crit.gradient].
    unfold QuadCriterion.gradient. cbn [quad_identity QuadCriterion.normal
      QuadCriterion.mean_t QuadCriterion.base Criterion.hyper normal_identity bind].
    rewrite (np_sub_scalar x 0 Hwf). cbn [bind].
    eexists. split; [reflexivity |]. split.
    + apply (has_shape_wf _ (shape init)).
      apply amap_has_shape. apply amap_has_shape. exact Hx.
    + unfold size. cbn [np_scale amap shape]. destruct Hx as [-> _]. reflexivity.
  - intros W x HW Hx.
    cbn [QuadCriterion_as_crit Crit.norm_mat_major]. unfold QuadCriterion.norm_mat_major.
    destruct (np_transpose_has_shape W (size init) 2 HW) as [vt [Hvt Hsvt]].
    rewrite Hvt. cbn [bind].
    apply (np_matmul_has_shape vt W 2 (size init) 2 Hsvt HW).
Qed.

Lemma pinv_9_0_0_0_2x2 : pinv_2x2 pinv_9_0_0_0.
Proof.
  intros a _. eexists. split; [reflexivity |]. split; reflexivity.
Qed.

(** [mmmg] returns on that criterion, whatever the point it starts from. *)
Lemma mmmg_returns_example (init : ndarray R) (tol : R) (max_iter : nat) :
  wf init ->
  exists x trace,
    mmmg pinv_9_0_0_0 [QuadCriterion_as_crit quad_identity] init tol max_iter
    = Ok (x, trace).
Proof.
  intros Hwf.
  apply (mmmg_returns pinv_9_0_0_0 init tol Hwf pinv_9_0_0_0_2x2).
  - discriminate.
  - constructor; [| constructor]. exists (size init). apply quad_identity_well_shaped.
Qed.

(** ** mmcg *)

Lemma np_truth_ge0_Ok (a : ndarray R) (b : bool) :
  np_truth_ge0 a = Ok b -> size a = 1%nat /\ b = R_leb 0 (entry a).
Proof.
  unfold np_truth_ge0. destruct (Nat.eqb (size a) 1) eqn:Hs; [| discriminate].
  intros H. injection H as <-. apply Nat.eqb_eq in Hs. auto.
Qed.

(** C7. In an iteration of [mmcg] that does not stop, with [delta_old] the
    [delta] of the previous state, [delta_mid = residual^t sec_old],
    [sec = precond(residual)], [delta = residual^t sec] and
    [beta = (delta - delta_mid) / delta_old]: the next direction is
    [sec + beta * direction] if [beta >= 0], and [sec] if [beta < 0].  Nothing
    else enters the choice: there is no periodic restart. *)
Theorem mmcg_direction_update (crit_list : list Crit.t) (init : ndarray R)
    (tol : R) (precond : option (ndarray R -> result (ndarray R)))
    (st st' : mmcg_state) :
  mmcg_iter crit_list init tol precond st = Ok (Continue st') ->
  exists rt delta_mid num beta,
    ~ la_norm (c_residual st') < INR (size (c_point st')) * tol /\
    np_transpose 0 (c_residual st') = Ok rt /\
    np_matmul rt (c_sec st) = Ok delta_mid /\
    precond_ precond (c_residual st') = Ok (c_sec st') /\
    np_matmul rt (c_sec st') = Ok (c_delta st') /\
    np_sub (c_delta st') delta_mid = Ok num /\
    np_divide num (c_delta st) = Ok beta /\
    size beta = 1%nat /\
    (0 <= entry beta ->
     exists bd, np_mul beta (c_direction st) = Ok bd /\
                np_add (c_sec st') bd = Ok (c_direction st')) /\
    (entry beta < 0 -> c_direction st' = c_sec st').
Proof.
  unfold mmcg_iter. intros H.
  bind_step H op_direction Hop. bind_step H dt Hdt. bind_step H step0 Hstep0.
  bind_step H curv Hcurv. bind_step H step Hstep. bind_step H sd Hsd.
  bind_step H point Hpoint. bind_step H g Hg.
  rewrite last_snoc in H. unfold R_ltb in H.
  destruct (Rlt_dec (la_norm (np_neg g)) (INR (size point) * tol)) as [Hlt | Hge];
    [discriminate |].
  bind_step H rt Hrt. bind_step H delta_mid Hmid. bind_step H sec Hsec.
  bind_step H rt' Hrt'. bind_step H delta Hdelta. bind_step H num Hnum.
  bind_step H beta Hbeta. bind_step H nonneg Hnonneg.
  apply np_truth_ge0_Ok in Hnonneg. destruct Hnonneg as [Hsize Hb].
  assert (rt' = rt) by congruence. subst rt'.
  exists rt, delta_mid, num, beta.
  destruct nonneg.
  - bind_step H num' Hnum'. bind_step H beta' Hbeta'.
    bind_step H bd Hbd. bind_step H direction' Hdir.
    injection H as <-. cbn [c_residual c_sec c_direction c_delta c_point].
    assert (num' = num) by congruence. subst num'.
    assert (beta' = beta) by congruence. subst beta'.
    repeat (split; [assumption |]).
    split.
    + intros _. exists bd. split; assumption.
    + intros Hneg. symmetry in Hb. unfold R_leb in Hb.
      destruct (Rle_dec 0 (entry beta)); [lra | discriminate].
  - injection H as <-. cbn [c_residual c_sec c_direction c_delta c_point].
    repeat (split; [assumption |]).
    split.
    + intros Hpos. symmetry in Hb. rewrite (R_leb_true _ _ Hpos) in Hb. discriminate.
    + reflexivity.
Qed.

(** ** Criterion: shapes of the operator output and of the mean *)

Lemma np_binop_shape_error {A B C} (f : A -> B -> C) (a : ndarray A) (b : ndarray B) :
  broadcast_shapes (shape a) (shape b) = None <-> np_binop f a b = Raise ValueError.
Proof.
  unfold np_binop. destruct (broadcast_shapes (shape a) (shape b)).
  - split; discriminate.
  - split; reflexivity.
Qed.




(** ** QuadCriterion against Criterion *)

Lemma concat_repeat_singleton {A} (v : A) (n : nat) :
  concat (repeat [v] n) = repeat v n.
Proof. induction n as [| n IH]; [reflexivity |]. simpl. now rewrite IH. Qed.

Lemma broadcast_data_1_n {A} (v : A) (n : nat) :
  broadcast_data [1%nat] [n] [v] = repeat v n.
Proof.
  cbn [broadcast_data prod_shape fold_right chunks firstn skipn map concat app].
  destruct (Nat.eqb_spec 1 n) as [<- | Hn]; [reflexivity |].
  cbn [app]. apply concat_repeat_singleton.
Qed.

Lemma broadcast_rows_1_n {A} (n : nat) (d : list A) :
  concat (map (broadcast_data [1%nat] [n]) (chunks 1 (length d) d))
  = flat_map (fun v => repeat v n) d.
Proof.
  induction d as [| v d IH]; [reflexivity |].
  cbn [length chunks firstn skipn map concat flat_map].
  rewrite IH. f_equal. apply broadcast_data_1_n.
Qed.

(** A column against a matrix of as many rows: each entry along its row. *)
Lemma broadcast_data_col {A} (m n : nat) (d : list A) :
  length d = m ->
  broadcast_data [m; 1%nat] [m; n] d = flat_map (fun v => repeat v n) d.
Proof.
  intros Hd. subst m.
  change (broadcast_data [length d; 1%nat] [length d; n] d)
    with (if Nat.eqb (length d) (length d)
          then concat (map (broadcast_data [1%nat] [n]) (chunks 1 (length d) d))
          else concat (repeat (concat (map (broadcast_data [1%nat] [n])
                                           (chunks 1 (length d) d))) (length d))).
  rewrite Nat.eqb_refl. apply broadcast_rows_1_n.
Qed.

Lemma broadcast_shapes_col (m n : nat) :
  broadcast_shapes [m; 1%nat] [m; n] = Some [m; n].
Proof.
  unfold broadcast_shapes. cbn [length Nat.max pad_shape Nat.sub repeat app
                                broadcast_aligned].
  rewrite broadcast_dim_same. unfold broadcast_dim.
  destruct (Nat.eqb_spec 1 n) as [<- | Hn]; reflexivity.
Qed.

Lemma flat_map_repeat_ones (m n : nat) :
  flat_map (fun v : R => repeat v n) (repeat 1 m) = repeat 1 (m * n).
Proof.
  induction m as [| m IH]; [reflexivity |].
  cbn [repeat flat_map Nat.mul]. rewrite IH. symmetry. apply repeat_app.
Qed.

Lemma map2_mult_ones (k : nat) (l : list R) :
  length l = k -> map2 Rmult (repeat 1 k) l = l.
Proof.
  revert k. induction l as [| x l IH]; intros k Hk; subst k.
  - reflexivity.
  - unfold map2 in *. cbn [length repeat combine map fst snd].
    rewrite (IH (length l) eq_refl). f_equal. ring.
Qed.

(** Coefficients all equal to 1 leave the vectors as they are. *)
Lemma np_mul_ones_col (b W : ndarray R) (m n : nat) :
  shape W = [m; n] -> wf W -> wf b -> data b = repeat 1 m ->
  np_mul (reshape_col b) W = Ok W.
Proof.
  intros HsW HwW Hwb Hb.
  assert (Hsize : size b = m).
  { rewrite <- Hwb, Hb. apply repeat_length. }
  unfold np_mul, np_binop, reshape_col. cbn [shape data].
  rewrite Hsize, HsW, broadcast_shapes_col.
  unfold broadcast_to at 1. cbn [shape data length].
  change (pad_shape 2 [m; 1%nat]) with [m; 1%nat].
  rewrite broadcast_data_col by (rewrite Hb; apply repeat_length).
  rewrite (broadcast_to_same W [m; n] HsW HwW).
  rewrite Hb, flat_map_repeat_ones.
  rewrite map2_mult_ones.
  - destruct W as [s d]. simpl in HsW. now subst s.
  - rewrite HwW. unfold size. rewrite HsW. simpl. lia.
Qed.

Lemma QuadCriterion_init_inv op adj normal hyper mean q :
  QuadCriterion.__init__ op adj normal hyper mean = Ok q ->
  Criterion.__init__ op adj Square.new hyper mean = Ok (QuadCriterion.base q) /\
  QuadCriterion.normal q = normal /\
  Criterion._adjoint (QuadCriterion.base q) (Criterion._mean (QuadCriterion.base q))
  = Ok (QuadCriterion.mean_t q) /\
  Criterion.potential (QuadCriterion.base q) = Square.new /\
  Criterion.hyper (QuadCriterion.base q) = hyper.
Proof.
  unfold QuadCriterion.__init__. intros H.
  bind_step H self Hself. bind_step H mt Hmt. injection H as <-.
  cbn [QuadCriterion.base QuadCriterion.normal QuadCriterion.mean_t].
  repeat split; trivial.
  - unfold Criterion.__init__ in Hself. destruct mean as [a | l].
    + injection Hself as <-. reflexivity.
    + bind_step Hself m Hm. injection Hself as <-. reflexivity.
  - unfold Criterion.__init__ in Hself. destruct mean as [a | l].
    + injection Hself as <-. reflexivity.
    + bind_step Hself m Hm. injection Hself as <-. reflexivity.
Qed.

(** The linearity the operator contract asks of [adjoint] is used: with the
    callable [e + 1] in its place, the identity for operator and
    [normal = adjoint o operator], at [x = [5]] and [mean = [2]] the gradient
    of [QuadCriterion] is [(5 + 1) - (2 + 1) = 3] and that of [Criterion]
    with [Square] is [(5 - 2) + 1 = 4]. *)
Lemma QuadCriterion_gradient_differs :
  QuadCriterion.__init__ op_identity adj_shift normal_shift 1
    (Arr (mk_array [1%nat] [2])) = Ok quad_shift /\
  Criterion.__init__ op_identity adj_shift Square.new 1
    (Arr (mk_array [1%nat] [2])) = Ok (QuadCriterion.base quad_shift) /\
  (forall y, normal_shift y
             = (o <- Criterion._operator (QuadCriterion.base quad_shift) y ;;
                Criterion._adjoint (QuadCriterion.base quad_shift) o)) /\
  QuadCriterion.gradient quad_shift (mk_array [1%nat] [5])
  = Ok (mk_array [1%nat] [1 * (5 + 1 - (2 + 1))]) /\
  Criterion.gradient (QuadCriterion.base quad_shift) (mk_array [1%nat] [5])
  = Ok (mk_array [1%nat] [1 * (5 - 2 + 1)]) /\
  QuadCriterion.gradient quad_shift (mk_array [1%nat] [5])
  <> Criterion.gradient (QuadCriterion.base quad_shift) (mk_array [1%nat] [5]).
Proof.
  assert (Hq : QuadCriterion.gradient quad_shift (mk_array [1%nat] [5])
               = Ok (mk_array [1%nat] [1 * (5 + 1 - (2 + 1))])) by reflexivity.
  assert (Hc : Criterion.gradient (QuadCriterion.base quad_shift) (mk_array [1%nat] [5])
               = Ok (mk_array [1%nat] [1 * (5 - 2 + 1)])) by reflexivity.
  split; [reflexivity |]. split; [reflexivity |]. split; [reflexivity |].
  split; [exact Hq |]. split; [exact Hc |].
  rewrite Hq, Hc. intros H. injection H as H. lra.
Qed.

(** C5. For a [QuadCriterion] built from [operator], [adjoint], [normal],
    [hyper] and [mean], at every [x] where [operator(x) - mean] is defined:
    under the operator contract at [x], that is
    [normal(x) = adjoint(operator(x))] and, [adjoint] being linear,
    [adjoint(operator(x) - mean) = adjoint(operator(x)) - adjoint(mean)],
    [QuadCriterion.gradient(x)] is the gradient of the [Criterion] built from
    the same arguments and [Square].  [norm_mat_major(W, x)] is the matrix
    [W^t diag(b) W] for coefficients [b] all equal to 1, whatever [x], which
    [Criterion.norm_mat_major] returns too (as a float when it has a single
    entry) where its coefficients are defined; and [gr_coeffs] returns the
    constant 1. *)
Theorem QuadCriterion_refines_Criterion
    (op : ndarray R -> result arr_or_list) (adj : arr_or_list -> result (ndarray R))
    (normal : ndarray R -> result (ndarray R)) (hyper : R) (mean : arr_or_list)
    (q : QuadCriterion.t) :
  QuadCriterion.__init__ op adj normal hyper mean = Ok q ->
  Criterion.__init__ op adj Square.new hyper mean = Ok (QuadCriterion.base q) /\
  (forall x out obj,
     Criterion._operator (QuadCriterion.base q) x = Ok out ->
     np_sub out (Criterion._mean (QuadCriterion.base q)) = Ok obj ->
     normal x = Criterion._adjoint (QuadCriterion.base q) out ->
     Criterion._adjoint (QuadCriterion.base q) obj
     = (ta <- Criterion._adjoint (QuadCriterion.base q) out ;;
        tb <- Criterion._adjoint (QuadCriterion.base q)
                                 (Criterion._mean (QuadCriterion.base q)) ;;
        np_sub ta tb) ->
     QuadCriterion.gradient q x = Criterion.gradient (QuadCriterion.base q) x) /\
  (forall W x b m n,
     shape W = [m; n] -> wf W -> wf b -> data b = repeat 1 m ->
     QuadCriterion.norm_mat_major q W x = Criterion.major_matrix b W) /\
  (forall W x x',
     QuadCriterion.norm_mat_major q W x = QuadCriterion.norm_mat_major q W x') /\
  (forall W x out obj m n,
     shape W = [m; n] -> wf W ->
     Criterion._operator (QuadCriterion.base q) x = Ok out ->
     np_sub out (Criterion._mean (QuadCriterion.base q)) = Ok obj ->
     shape obj <> [] -> wf obj -> size obj = m ->
     Criterion.norm_mat_major (QuadCriterion.base q) W x
     = (M <- QuadCriterion.norm_mat_major q W x ;;
        Ok (if Nat.eqb (size M) 1 then py_float M else M))) /\
  (forall x, QuadCriterion.gr_coeffs q x = scalar 1).
Proof.
  intros Hinit.
  destruct (QuadCriterion_init_inv _ _ _ _ _ _ Hinit)
    as [Hbase [Hn [Hmean_t [Hpot Hhyper]]]].
  split; [exact Hbase |].
  split; [| split; [| split; [| split]]].
  - intros x out obj Hout Hobj Hnormal Hlinear.
    unfold QuadCriterion.gradient, Criterion.gradient.
    rewrite Hn, Hnormal, Hout. cbn [bind]. rewrite Hobj. cbn [bind].
    rewrite Hpot. change (Potential.gradient Square.new obj) with obj.
    rewrite Hlinear, Hmean_t.
    destruct (Criterion._adjoint (QuadCriterion.base q) out) as [ta | e];
      cbn [bind]; reflexivity.
  - intros W x b m n HsW HwW Hwb Hb.
    unfold QuadCriterion.norm_mat_major, Criterion.major_matrix.
    rewrite (np_mul_ones_col b W m n HsW HwW Hwb Hb).
    destruct (np_transpose 0 W); reflexivity.
  - reflexivity.
  - intros W x out obj m n HsW HwW Hout Hobj Hdim Hwobj Hsize.
    unfold Criterion.norm_mat_major, Criterion.gr_coeffs, QuadCriterion.norm_mat_major.
    rewrite Hout. cbn [bind]. rewrite Hobj. cbn [bind]. rewrite Hpot.
    destruct (Square_gr_coeffs_run obj Hdim) as [r [Hr [Hsr Hdr]]].
    rewrite Hr.
    assert (Hwr : wf r).
    { unfold wf, size. rewrite Hdr, Hsr, repeat_length. exact Hwobj. }
    assert (Hones : data r = repeat 1 m).
    { rewrite Hdr, Hwobj, Hsize. reflexivity. }
    destruct (np_transpose 0 W) as [vt | e]; cbn [bind]; [| reflexivity].
    rewrite (np_mul_ones_col r W m n HsW HwW Hwr Hones). cbn [bind].
    reflexivity.
  - reflexivity.
Qed.

Lemma quad_identity_init :
  QuadCriterion.__init__ op_identity adj_identity normal_identity
    Criterion.default_hyper Criterion.default_mean = Ok quad_identity.
Proof. reflexivity. Qed.

Lemma quad_diag_init :
  QuadCriterion.__init__ op_diag12 adj_diag12 normal_diag14 1
    (Arr (mk_array [2%nat] [0; 0])) = Ok quad_diag.
Proof. reflexivity. Qed.

(** The contract at [x = [3, 4]] for the operator [diag(1, 2)] and the mean
    [[0, 0]]: [normal(x) = adjoint(operator(x))], and the adjoint of the
    difference is the difference of the adjoints. *)
Lemma quad_diag_normal :
  normal_diag14 (mk_array [2%nat] [3; 4])
  = Criterion._adjoint (QuadCriterion.base quad_diag)
                       (mk_array [2%nat] [1 * 3; 2 * 4]).
Proof.
  unfold normal_diag14, Criterion._adjoint.
  cbn -[Rmult]. do 2 f_equal. f_equal; [ring |]. f_equal. ring.
Qed.

Lemma quad_diag_linear :
  Criterion._adjoint (QuadCriterion.base quad_diag)
                     (mk_array [2%nat] [1 * 3 - 0; 2 * 4 - 0])
  = (ta <- Criterion._adjoint (QuadCriterion.base quad_diag)
                              (mk_array [2%nat] [1 * 3; 2 * 4]) ;;
     tb <- Criterion._adjoint (QuadCriterion.base quad_diag)
                              (Criterion._mean (QuadCriterion.base quad_diag)) ;;
     np_sub ta tb).
Proof.
  unfold Criterion._adjoint, np_sub, np_binop.
  cbn -[Rmult Rminus]. do 2 f_equal. f_equal; [ring |]. f_equal. ring.
Qed.

Lemma QuadCriterion_refines_Criterion_witness :
  QuadCriterion.__init__ op_diag12 adj_diag12 normal_diag14 1
    (Arr (mk_array [2%nat] [0; 0])) = Ok quad_diag /\
  Criterion._operator (QuadCriterion.base quad_diag) (mk_array [2%nat] [3; 4])
  = Ok (mk_array [2%nat] [1 * 3; 2 * 4]) /\
  np_sub (mk_array [2%nat] [1 * 3; 2 * 4]) (Criterion._mean (QuadCriterion.base quad_diag))
  = Ok (mk_array [2%nat] [1 * 3 - 0; 2 * 4 - 0]) /\
  normal_diag14 (mk_array [2%nat] [3; 4])
  = Criterion._adjoint (QuadCriterion.base quad_diag) (mk_array [2%nat] [1 * 3; 2 * 4]) /\
  Criterion._adjoint (QuadCriterion.base quad_diag)
                     (mk_array [2%nat] [1 * 3 - 0; 2 * 4 - 0])
  = (ta <- Criterion._adjoint (QuadCriterion.base quad_diag)
                              (mk_array [2%nat] [1 * 3; 2 * 4]) ;;
     tb <- Criterion._adjoint (QuadCriterion.base quad_diag)
                              (Criterion._mean (QuadCriterion.base quad_diag)) ;;
     np_sub ta tb) /\
  QuadCriterion.gradient quad_diag (mk_array [2%nat] [3; 4])
  = Criterion.gradient (QuadCriterion.base quad_diag) (mk_array [2%nat] [3; 4]) /\
  QuadCriterion.norm_mat_major quad_diag (mk_array [2%nat; 1%nat] [3; 4])
                               (mk_array [2%nat] [3; 4])
  = Criterion.major_matrix (mk_array [2%nat] [1; 1]) (mk_array [2%nat; 1%nat] [3; 4]) /\
  Criterion.norm_mat_major (QuadCriterion.base quad_diag)
                           (mk_array [2%nat; 1%nat] [3; 4]) (mk_array [2%nat] [3; 4])
  = (M <- QuadCriterion.norm_mat_major quad_diag (mk_array [2%nat; 1%nat] [3; 4])
                                       (mk_array [2%nat] [3; 4]) ;;
     Ok (if Nat.eqb (size M) 1 then py_float M else M)).
Proof.
  pose proof (QuadCriterion_refines_Criterion op_diag12 adj_diag12 normal_diag14 1
                (Arr (mk_array [2%nat] [0; 0])) quad_diag quad_diag_init) as H.
  destruct H as [_ [Hg [Hm [_ [Hn _]]]]].
  assert (Hdim : shape (mk_array [2%nat] [1 * 3 - 0; 2 * 4 - 0]) <> []) by discriminate.
  split; [exact quad_diag_init |].
  split; [reflexivity |]. split; [reflexivity |].
  split; [exact quad_diag_normal |]. split; [exact quad_diag_linear |].
  split; [| split].
  - exact (Hg (mk_array [2%nat] [3; 4]) (mk_array [2%nat] [1 * 3; 2 * 4])
              (mk_array [2%nat] [1 * 3 - 0; 2 * 4 - 0]) eq_refl eq_refl
              quad_diag_normal quad_diag_linear).
  - exact (Hm (mk_array [2%nat; 1%nat] [3; 4]) (mk_array [2%nat] [3; 4])
              (mk_array [2%nat] [1; 1]) 2%nat 1%nat eq_refl eq_refl eq_refl eq_refl).
  - exact (Hn (mk_array [2%nat; 1%nat] [3; 4]) (mk_array [2%nat] [3; 4])
              (mk_array [2%nat] [1 * 3; 2 * 4]) (mk_array [2%nat] [1 * 3 - 0; 2 * 4 - 0])
              2%nat 1%nat eq_refl eq_refl eq_refl eq_refl Hdim eq_refl eq_refl).
Defined.

(** ** Runs of the solvers on the examples *)

(** Evaluate the structure of a run and leave the arithmetic as it is. *)
Ltac run :=
  repeat (progress (cbn -[Rplus Rmult Rminus Ropp Rdiv Rinv sqrt pow la_norm
                          R_ltb R_leb R_is_zero];
                    unfold np_neg, np_scale, amap, np_idiv, np_divide, R_div,
                           np_truth_ge0, entry)).

(** Two results of the same structure are equal when their entries are. *)
Ltac same_data :=
  repeat match goal with
         | |- Ok _ = Ok _ => f_equal
         | |- Continue _ = Continue _ => f_equal
         | |- Break _ = Break _ => f_equal
         | |- (_, _) = (_, _) => f_equal
         | |- mk_mmcg _ _ _ _ _ _ = mk_mmcg _ _ _ _ _ _ => f_equal
         | |- mk_mmmg _ _ _ _ _ _ = mk_mmmg _ _ _ _ _ _ => f_equal
         | |- mk_array _ _ = mk_array _ _ => f_equal
         | |- _ :: _ = _ :: _ => f_equal
         | |- la_norm _ = la_norm _ => f_equal
         | |- sqrt _ = sqrt _ => f_equal
         end;
  try reflexivity; try lra; try (field; lra).

Lemma la_norm_1 (x : R) : 0 <= x -> la_norm (mk_array [1%nat; 1%nat] [x]) = x.
Proof.
  intros Hx. unfold la_norm. cbn [data map Rsum fold_right].
  rewrite Rplus_0_r. apply sqrt_square. exact Hx.
Qed.

Lemma mmmg_example_init :
  mmmg_init [QuadCriterion_as_crit quad_identity] (mk_array [1%nat] [3]) = Ok mmmg_st0.
Proof. reflexivity. Qed.

(** First iteration: the gradient is [[3]], of norm 3; the step is [[1, 0]]
    and the move [[-3]]. *)
Lemma mmmg_example_iter1 :
  mmmg_iter pinv_9_0_0_0 [QuadCriterion_as_crit quad_identity]
            (mk_array [1%nat] [3]) (1 / 10) mmmg_st0
  = Ok (Continue mmmg_st1).
Proof.
  unfold mmmg_iter. run.
  match goal with
  | |- context [la_norm ?g] =>
      replace g with (mk_array [1%nat; 1%nat] [3]) by same_data
  end.
  rewrite la_norm_1 by lra.
  rewrite R_ltb_false by lra.
  unfold mmmg_st1. same_data.
Qed.

(** Second iteration: the gradient is [[0]] and the loop stops. *)
Lemma mmmg_example_iter2 :
  mmmg_iter pinv_9_0_0_0 [QuadCriterion_as_crit quad_identity]
            (mk_array [1%nat] [3]) (1 / 10) mmmg_st1
  = Ok (Break mmmg_st2).
Proof.
  unfold mmmg_iter. run.
  match goal with
  | |- context [la_norm ?g] =>
      replace g with (mk_array [1%nat; 1%nat] [0]) by same_data
  end.
  rewrite la_norm_1 by lra.
  rewrite R_ltb_true by lra.
  unfold mmmg_st2. same_data.
Qed.

Lemma mmmg_example_run :
  mmmg pinv_9_0_0_0 [QuadCriterion_as_crit quad_identity]
       (mk_array [1%nat] [3]) (1 / 10) 500
  = Ok (mk_array [1%nat] [0], [3; 0]).
Proof.
  unfold mmmg, mmmg_run. rewrite mmmg_example_init.
  cbn [bind]. rewrite mmmg_loop_S, mmmg_example_iter1.
  cbn [bind]. rewrite mmmg_loop_S, mmmg_example_iter2.
  reflexivity.
Qed.

Lemma mmmg_trace_witness :
  mmmg pinv_9_0_0_0 [QuadCriterion_as_crit quad_identity]
       (mk_array [1%nat] [3]) (1 / 10) 500
  = Ok (mk_array [1%nat] [0], [3; 0]) /\
  exists st sts,
    mmmg_run pinv_9_0_0_0 [QuadCriterion_as_crit quad_identity]
             (mk_array [1%nat] [3]) (1 / 10) 500 = Ok st /\
    shape (mk_array [1%nat] [0]) = shape (mk_array [1%nat] [3]) /\
    data (mk_array [1%nat] [0]) = data (m_point st) /\
    [3; 0] = m_norm_grad st /\
    length [3; 0] = m_iterations st /\
    (length [3; 0]%R <= 500)%nat /\
    (length [3; 0]%R <= 500 + 1)%nat /\
    (forall i, (S i < length [3; 0]%R)%nat ->
               ~ nth i [3; 0] 0 < INR (size (mk_array [1%nat] [3])) * (1 / 10)) /\
    (([3; 0] <> [] /\
      last [3; 0] 0 < INR (size (mk_array [1%nat] [3])) * (1 / 10) /\
      exists grad,
        gradient [QuadCriterion_as_crit quad_identity] (m_point st)
                 (shape (mk_array [1%nat] [3])) = Ok grad /\
        last [3; 0] 0 = la_norm grad) \/
     (length [3; 0] = 500%nat /\
      Forall (fun v => ~ v < INR (size (mk_array [1%nat] [3])) * (1 / 10)) [3; 0])) /\
    length sts = length [3; 0] /\
    mmmg_init [QuadCriterion_as_crit quad_identity] (mk_array [1%nat] [3])
    = Ok (nth 0 (sts ++ [st]) st) /\
    m_point (nth 0 (sts ++ [st]) st) = reshape_col (mk_array [1%nat] [3]) /\
    (forall i, (i < length [3; 0]%R)%nat ->
       exists grad,
         gradient [QuadCriterion_as_crit quad_identity]
                  (m_point (nth i (sts ++ [st]) st)) (shape (mk_array [1%nat] [3]))
         = Ok grad /\
         nth i [3; 0] 0 = la_norm grad /\
         ((~ la_norm grad < INR (size (mk_array [1%nat] [3])) * (1 / 10) /\
           mmmg_iter pinv_9_0_0_0 [QuadCriterion_as_crit quad_identity]
                     (mk_array [1%nat] [3]) (1 / 10) (nth i (sts ++ [st]) st)
           = Ok (Continue (nth (S i) (sts ++ [st]) st)) /\
           exists move, np_iadd (m_point (nth i (sts ++ [st]) st)) move
                        = Ok (m_point (nth (S i) (sts ++ [st]) st))) \/
          (la_norm grad < INR (size (mk_array [1%nat] [3])) * (1 / 10) /\
           S i = length [3; 0] /\
           mmmg_iter pinv_9_0_0_0 [QuadCriterion_as_crit quad_identity]
                     (mk_array [1%nat] [3]) (1 / 10) (nth i (sts ++ [st]) st)
           = Ok (Break (nth (S i) (sts ++ [st]) st)) /\
           m_point (nth (S i) (sts ++ [st]) st) = m_point (nth i (sts ++ [st]) st)))).
Proof.
  split; [exact mmmg_example_run |].
  exact (mmmg_trace pinv_9_0_0_0 [QuadCriterion_as_crit quad_identity]
           (mk_array [1%nat] [3]) (1 / 10) 500 (mk_array [1%nat] [0]) [3; 0]
           mmmg_example_run).
Defined.

Lemma mmcg_example_init :
  mmcg_init [QuadCriterion_as_crit quad_diag] (mk_array [2%nat] [1; 1]) None
  = Ok mmcg_st0.
Proof.
  unfold mmcg_init, mmcg_st0. run. unfold la_norm. run. same_data.
Qed.

Lemma la_norm_example :
  ~ la_norm (mk_array [2%nat; 1%nat] [-48 / 65; 12 / 65]) < (1 + 1) * (1 / 10).
Proof.
  unfold la_norm. cbn [data map Rsum fold_right].
  apply Rle_not_lt.
  replace ((1 + 1) * (1 / 10)) with (sqrt (1 / 25)) by (apply sqrt_lem_1; lra).
  apply sqrt_le_1_alt. lra.
Qed.

(** The first iteration of [mmcg]: the step is 17/65, the new residual
    [[-48/65, 12/65]], [delta_mid = 0], [delta = 2448/4225] and
    [beta = 144/4225]. *)
Lemma mmcg_example_iter :
  mmcg_iter [QuadCriterion_as_crit quad_diag] (mk_array [2%nat] [1; 1]) (1 / 10) None
            mmcg_st0
  = Ok (Continue mmcg_st1).
Proof.
  unfold mmcg_iter. run.
  rewrite R_is_zero_false by lra. run.
  match goal with
  | |- context [la_norm ?g] =>
      replace g with (mk_array [2%nat; 1%nat] [-48 / 65; 12 / 65]) by same_data
  end.
  rewrite R_ltb_false by (apply Rnot_lt_le; apply la_norm_example).
  rewrite R_is_zero_false by lra. run.
  rewrite R_leb_true
    by (match goal with
        | |- 0 <= ?e => replace e with (144 / 4225) by (field; lra); lra
        end).
  run. unfold mmcg_st1. same_data.
Qed.

Lemma mmcg_direction_update_witness :
  mmcg_iter [QuadCriterion_as_crit quad_diag] (mk_array [2%nat] [1; 1]) (1 / 10) None
            mmcg_st0
  = Ok (Continue mmcg_st1) /\
  exists rt delta_mid num beta,
    ~ la_norm (c_residual mmcg_st1) < INR (size (c_point mmcg_st1)) * (1 / 10) /\
    np_transpose 0 (c_residual mmcg_st1) = Ok rt /\
    np_matmul rt (c_sec mmcg_st0) = Ok delta_mid /\
    precond_ None (c_residual mmcg_st1) = Ok (c_sec mmcg_st1) /\
    np_matmul rt (c_sec mmcg_st1) = Ok (c_delta mmcg_st1) /\
    np_sub (c_delta mmcg_st1) delta_mid = Ok num /\
    np_divide num (c_delta mmcg_st0) = Ok beta /\
    size beta = 1%nat /\
    (0 <= entry beta ->
     exists bd, np_mul beta (c_direction mmcg_st0) = Ok bd /\
                np_add (c_sec mmcg_st1) bd = Ok (c_direction mmcg_st1)) /\
    (entry beta < 0 -> c_direction mmcg_st1 = c_sec mmcg_st1).
Proof.
  split; [exact mmcg_example_iter |].
  exact (mmcg_direction_update [QuadCriterion_as_crit quad_diag]
           (mk_array [2%nat] [1; 1]) (1 / 10) None mmcg_st0 mmcg_st1
           mmcg_example_iter).
Defined.

(** * Further properties of the code *)

(** ** Gradients as derivatives *)

Lemma derivable_pt_lim_sqr (u : R) : derivable_pt_lim (fun x => x ^ 2) u (2 * u).
Proof.
  replace (2 * u) with (INR 2 * u ^ Nat.pred 2) by (simpl; ring).
  apply derivable_pt_lim_pow.
Qed.

Lemma derivable_pt_lim_ext (f g : R -> R) (x l : R) :
  (forall z, f z = g z) -> derivable_pt_lim f x l -> derivable_pt_lim g x l.
Proof.
  intros Hfg Hf eps Heps. destruct (Hf eps Heps) as [d Hd].
  exists d. intros h Hh Hlt. rewrite <- !Hfg. apply Hd; assumption.
Qed.

(** X8. [Square]: the gradient is the derivative of the value. *)
Theorem Square_gradient_is_derivative (u : R) :
  derivable_pt_lim (at_point Square.value) u (at_point Square.gradient u).
Proof.
  change (at_point Square.gradient u) with u.
  apply (derivable_pt_lim_ext (fun x => x ^ 2 * / 2)); [reflexivity |].
  replace u with (2 * u * / 2 + u ^ 2 * 0) at 2 by field.
  apply (derivable_pt_lim_mult (fun x => x ^ 2) (fun _ => / 2)).
  - apply derivable_pt_lim_sqr.
  - apply derivable_pt_lim_const.
Qed.

(** X9. [GemanMcClure]: the gradient is the derivative of the value. *)
Theorem GemanMcClure_gradient_is_derivative (delta u : R) :
  delta <> 0 ->
  derivable_pt_lim (at_point (GemanMcClure.value delta)) u
                   (at_point (GemanMcClure.gradient delta) u).
Proof.
  intros Hd.
  assert (Hd2 : 0 < delta ^ 2) by (apply pow2_pos; exact Hd).
  assert (Hu : 0 <= u ^ 2) by apply pow2_ge_0.
  change (at_point (GemanMcClure.gradient delta) u)
    with (4 * u * delta ^ 2 / (2 * delta ^ 2 + u ^ 2) ^ 2).
  apply (derivable_pt_lim_ext
           (div_fct (fun x => x ^ 2) (fun x => 2 * delta ^ 2 + x ^ 2)));
    [reflexivity |].
  replace (4 * u * delta ^ 2 / (2 * delta ^ 2 + u ^ 2) ^ 2)
    with ((2 * u * (2 * delta ^ 2 + u ^ 2) - (0 + 2 * u) * u ^ 2)
          / Rsqr (2 * delta ^ 2 + u ^ 2))
    by (unfold Rsqr; field; lra).
  apply (derivable_pt_lim_div (fun x => x ^ 2) (fun x => 2 * delta ^ 2 + x ^ 2)).
  - apply derivable_pt_lim_sqr.
  - apply (derivable_pt_lim_plus (fun _ => 2 * delta ^ 2) (fun x => x ^ 2)).
    + apply derivable_pt_lim_const.
    + apply derivable_pt_lim_sqr.
  - lra.
Qed.

Lemma GemanMcClure_gradient_is_derivative_witness :
  3 <> 0 /\
  derivable_pt_lim (at_point (GemanMcClure.value 3)) 2
                   (at_point (GemanMcClure.gradient 3) 2).
Proof.
  assert (H : 3 <> 0) by lra.
  split; [exact H |].
  exact (GemanMcClure_gradient_is_derivative 3 2 H).
Defined.

(** X10. [SquareTruncApprox]: the gradient is the derivative of the value. *)
Theorem SquareTruncApprox_gradient_is_derivative (delta u : R) :
  delta <> 0 ->
  derivable_pt_lim (at_point (SquareTruncApprox.value delta)) u
                   (at_point (SquareTruncApprox.gradient delta) u).
Proof.
  intros Hd.
  assert (Hd2 : 0 < delta ^ 2) by (apply pow2_pos; exact Hd).
  change (at_point (SquareTruncApprox.gradient delta) u)
    with (u / delta ^ 2 * exp (- u ^ 2 / (2 * delta ^ 2))).
  set (inner := fun x : R => - x ^ 2 / (2 * delta ^ 2)).
  assert (Hinner : derivable_pt_lim inner u (- (u / delta ^ 2))).
  { unfold inner.
    apply (derivable_pt_lim_ext (fun x => (- / (2 * delta ^ 2)) * x ^ 2)).
    - intros z. field. lra.
    - replace (- (u / delta ^ 2)) with ((- / (2 * delta ^ 2)) * (2 * u)) by (field; lra).
      apply derivable_pt_lim_scal. apply derivable_pt_lim_sqr. }
  apply (derivable_pt_lim_ext (fun x => 1 - comp exp inner x)); [reflexivity |].
  replace (u / delta ^ 2 * exp (- u ^ 2 / (2 * delta ^ 2)))
    with (0 - exp (inner u) * - (u / delta ^ 2))
    by (unfold inner; ring).
  apply (derivable_pt_lim_minus (fun _ => 1) (comp exp inner)).
  - apply derivable_pt_lim_const.
  - apply derivable_pt_lim_comp; [exact Hinner | apply derivable_pt_lim_exp].
Qed.

Lemma SquareTruncApprox_gradient_is_derivative_witness :
  2 <> 0 /\
  derivable_pt_lim (at_point (SquareTruncApprox.value 2)) 1
                   (at_point (SquareTruncApprox.gradient 2) 1).
Proof.
  assert (H : 2 <> 0) by lra.
  split; [exact H |].
  exact (SquareTruncApprox_gradient_is_derivative 2 1 H).
Defined.

(** ** The projection potentials on one entry *)

Lemma VminProj_value_at (vmin u : R) :
  at_point (VminProj.value vmin) u
  = if R_ltb u vmin then (u - vmin) ^ 2 / 2 + 0 else 0.
Proof.
  unfold at_point, VminProj.value, entry, scalar. cbn [data filter].
  destruct (R_ltb u vmin); reflexivity.
Qed.

Lemma VminProj_gradient_at (vmin u : R) :
  at_point (VminProj.gradient vmin) u = if R_ltb vmin u then 0 else u - vmin.
Proof. reflexivity. Qed.

(** X12. [VminProj]: the gradient is the derivative of the value, at the bound
    too. *)
Theorem VminProj_gradient_is_derivative (vmin u : R) :
  derivable_pt_lim (at_point (VminProj.value vmin)) u
                   (at_point (VminProj.gradient vmin) u).
Proof.
  rewrite VminProj_gradient_at.
  destruct (Rtotal_order u vmin) as [Hlt | [Heq | Hgt]].
  - rewrite R_ltb_false by lra.
    apply (derivable_pt_lim_locally_ext (fun z => (z - vmin) ^ 2 / 2 + 0) _ u (u - 1) vmin).
    + lra.
    + intros z Hz. rewrite VminProj_value_at, R_ltb_true by lra. reflexivity.
    + apply (derivable_pt_lim_ext (fun z => / 2 * comp (fun x => x ^ 2) (fun x => x - vmin) z + 0)).
      * intros z. unfold comp. field.
      * replace (u - vmin) with (/ 2 * (2 * (u - vmin) * (1 - 0)) + 0) by field.
        apply (derivable_pt_lim_plus
                 (fun z => / 2 * comp (fun x => x ^ 2) (fun x => x - vmin) z) (fun _ => 0)).
        -- apply derivable_pt_lim_scal. apply derivable_pt_lim_comp.
           ++ apply (derivable_pt_lim_minus id (fun _ => vmin)).
              ** apply derivable_pt_lim_id.
              ** apply derivable_pt_lim_const.
           ++ apply derivable_pt_lim_sqr.
        -- apply derivable_pt_lim_const.
  - subst u. rewrite R_ltb_false by lra.
    replace (vmin - vmin) with 0 by ring.
    intros eps Heps. exists (mkposreal eps Heps). intros h Hh Hlt. cbn [pos] in Hlt.
    rewrite !VminProj_value_at. rewrite (R_ltb_false vmin vmin) by lra.
    destruct (Rcase_abs h) as [Hneg | Hpos].
    + rewrite R_ltb_true by lra.
      replace (((vmin + h - vmin) ^ 2 / 2 + 0 - 0) / h - 0) with (h / 2) by (field; lra).
      rewrite Rabs_left in Hlt by lra. rewrite Rabs_left by lra. lra.
    + rewrite R_ltb_false by lra.
      replace ((0 - 0) / h - 0) with 0 by (field; lra).
      rewrite Rabs_R0. lra.
  - rewrite R_ltb_true by lra.
    apply (derivable_pt_lim_locally_ext (fun _ => 0) _ u vmin (u + 1)).
    + lra.
    + intros z Hz. rewrite VminProj_value_at, R_ltb_false by lra. reflexivity.
    + apply derivable_pt_lim_const.
Qed.

Lemma VmaxProj_value_at (vmax u : R) :
  at_point (VmaxProj.value vmax) u
  = if R_ltb vmax u then (u - vmax) ^ 2 / 2 + 0 else 0.
Proof.
  unfold at_point, VmaxProj.value, entry, scalar. cbn [data filter].
  destruct (R_ltb vmax u); reflexivity.
Qed.

Lemma VmaxProj_gradient_at (vmax u : R) :
  at_point (VmaxProj.gradient vmax) u = if R_ltb u vmax then 0 else u - vmax.
Proof. reflexivity. Qed.

(** X13. [VmaxProj]: the gradient is the derivative of the value, at the bound
    too. *)
Theorem VmaxProj_gradient_is_derivative (vmax u : R) :
  derivable_pt_lim (at_point (VmaxProj.value vmax)) u
                   (at_point (VmaxProj.gradient vmax) u).
Proof.
  rewrite VmaxProj_gradient_at.
  destruct (Rtotal_order u vmax) as [Hlt | [Heq | Hgt]].
  - rewrite R_ltb_true by lra.
    apply (derivable_pt_lim_locally_ext (fun _ => 0) _ u (u - 1) vmax).
    + lra.
    + intros z Hz. rewrite VmaxProj_value_at, R_ltb_false by lra. reflexivity.
    + apply derivable_pt_lim_const.
  - subst u. rewrite R_ltb_false by lra.
    replace (vmax - vmax) with 0 by ring.
    intros eps Heps. exists (mkposreal eps Heps). intros h Hh Hlt. cbn [pos] in Hlt.
    rewrite !VmaxProj_value_at. rewrite (R_ltb_false vmax vmax) by lra.
    destruct (Rcase_abs h) as [Hneg | Hpos].
    + rewrite R_ltb_false by lra.
      replace ((0 - 0) / h - 0) with 0 by (field; lra).
      rewrite Rabs_R0. lra.
    + assert (Hh' : 0 < h) by lra.
      rewrite R_ltb_true by lra.
      replace (((vmax + h - vmax) ^ 2 / 2 + 0 - 0) / h - 0) with (h / 2) by (field; lra).
      rewrite Rabs_pos_eq in Hlt by lra. rewrite Rabs_pos_eq by lra. lra.
  - rewrite R_ltb_false by lra.
    apply (derivable_pt_lim_locally_ext (fun z => (z - vmax) ^ 2 / 2 + 0) _ u vmax (u + 1)).
    + lra.
    + intros z Hz. rewrite VmaxProj_value_at, R_ltb_true by lra. reflexivity.
    + apply (derivable_pt_lim_ext (fun z => / 2 * comp (fun x => x ^ 2) (fun x => x - vmax) z + 0)).
      * intros z. unfold comp. field.
      * replace (u - vmax) with (/ 2 * (2 * (u - vmax) * (1 - 0)) + 0) by field.
        apply (derivable_pt_lim_plus
                 (fun z => / 2 * comp (fun x => x ^ 2) (fun x => x - vmax) z) (fun _ => 0)).
        -- apply derivable_pt_lim_scal. apply derivable_pt_lim_comp.
           ++ apply (derivable_pt_lim_minus id (fun _ => vmax)).
              ** apply derivable_pt_lim_id.
              ** apply derivable_pt_lim_const.
           ++ apply derivable_pt_lim_sqr.
        -- apply derivable_pt_lim_const.
Qed.

(** ** Huber: the gradient is monotone *)

Lemma R_sign_neg (x : R) : x < 0 -> R_sign x = -1.
Proof.
  intros H. unfold R_sign. rewrite R_ltb_false by lra. rewrite R_ltb_true by lra. reflexivity.
Qed.

Lemma Huber_gradient_cases (delta u : R) :
  0 <= delta ->
  (- delta <= u /\ u <= delta /\ at_point (Huber.gradient delta) u = 2 * u) \/
  (delta < u /\ at_point (Huber.gradient delta) u = 2 * delta) \/
  (u < - delta /\ at_point (Huber.gradient delta) u = - (2 * delta)).
Proof.
  intros Hd. change (at_point (Huber.gradient delta) u)
    with (if R_leb (Rabs u) delta then 2 * u else 2 * delta * R_sign u).
  destruct (Rle_dec (Rabs u) delta) as [Hin | Hout].
  - left. rewrite R_leb_true by exact Hin.
    pose proof (Rle_abs u) as H1. pose proof (Rle_abs (- u)) as H2.
    rewrite Rabs_Ropp in H2. repeat split; lra.
  - right. rewrite R_leb_false by lra.
    destruct (Rcase_abs u) as [Hneg | Hpos].
    + right. rewrite Rabs_left in Hout by exact Hneg.
      rewrite R_sign_neg by exact Hneg. split; [lra | ring].
    + rewrite Rabs_right in Hout by exact Hpos. left.
      rewrite R_sign_pos by lra. split; [lra | ring].
Qed.

(** X16. [Huber]: the gradient does not decrease, as the gradient of a convex
    function, although the value has a jump at [|u| = delta]. *)
Theorem Huber_gradient_monotone (delta u v : R) :
  0 <= delta -> u <= v ->
  at_point (Huber.gradient delta) u <= at_point (Huber.gradient delta) v.
Proof.
  intros Hd Huv.
  destruct (Huber_gradient_cases delta u Hd) as [[Hu [Hu' ->]] | [[Hu ->] | [Hu ->]]];
    destruct (Huber_gradient_cases delta v Hd) as [[Hv [Hv' ->]] | [[Hv ->] | [Hv ->]]];
    lra.
Qed.

Lemma Huber_gradient_monotone_witness :
  0 <= 1 /\ -3 <= 1 / 2 /\
  at_point (Huber.gradient 1) (-3) <= at_point (Huber.gradient 1) (1 / 2).
Proof.
  assert (H1 : 0 <= 1) by lra.
  assert (H2 : -3 <= 1 / 2) by lra.
  split; [exact H1 |]. split; [exact H2 |].
  exact (Huber_gradient_monotone 1 (-3) (1 / 2) H1 H2).
Defined.

(** ** The projection potentials *)

Lemma Rsum_nonneg (l : list R) : Forall (fun x => 0 <= x) l -> 0 <= Rsum l.
Proof.
  induction 1 as [| x l Hx _ IH]; unfold Rsum in *; cbn [fold_right]; lra.
Qed.

Lemma filter_none {A} (f : A -> bool) (l : list A) :
  Forall (fun x => f x = false) l -> filter f l = [].
Proof.
  induction 1 as [| x l Hx _ IH]; [reflexivity |].
  cbn [filter]. rewrite Hx. exact IH.
Qed.

(** X14. [VminProj]: the value is a single number, not negative, and it is 0
    when no entry is below the bound. *)
Theorem VminProj_value_nonneg (vmin : R) (u : ndarray R) :
  shape (VminProj.value vmin u) = [] /\
  0 <= entry (VminProj.value vmin u) /\
  (Forall (fun x => vmin <= x) (data u) -> entry (VminProj.value vmin u) = 0).
Proof.
  split; [reflexivity |].
  unfold VminProj.value, entry, scalar. cbn [data nth].
  split.
  - apply Rsum_nonneg, Forall_map, Forall_forall. intros x _.
    pose proof (pow2_ge_0 (x - vmin)). lra.
  - intros Hall. rewrite (filter_none (fun x => R_ltb x vmin)); [reflexivity |].
    eapply Forall_impl; [| exact Hall].
    intros x Hx. cbv beta in Hx. apply R_ltb_false. lra.
Qed.

(** X15. [VmaxProj]: the value is a single number, not negative, and it is 0
    when no entry is above the bound. *)
Theorem VmaxProj_value_nonneg (vmax : R) (u : ndarray R) :
  shape (VmaxProj.value vmax u) = [] /\
  0 <= entry (VmaxProj.value vmax u) /\
  (Forall (fun x => x <= vmax) (data u) -> entry (VmaxProj.value vmax u) = 0).
Proof.
  split; [reflexivity |].
  unfold VmaxProj.value, entry, scalar. cbn [data nth].
  split.
  - apply Rsum_nonneg, Forall_map, Forall_forall. intros x _.
    pose proof (pow2_ge_0 (x - vmax)). lra.
  - intros Hall. rewrite (filter_none (fun x => R_ltb vmax x)); [reflexivity |].
    eapply Forall_impl; [| exact Hall].
    intros x Hx. cbv beta in Hx. apply R_ltb_false. lra.
Qed.

(** ** Criterion: stacking a list of arrays and splitting it again *)

Lemma nth_cumsum_from (acc x : nat) (p r : list nat) :
  nth (length p) (cumsum_from acc (x :: p ++ r)) 0%nat = (acc + x + list_sum p)%nat.
Proof.
  revert acc x. induction p as [| y p IH]; intros acc x.
  - cbn. lia.
  - cbn [length app]. change (cumsum_from acc (x :: y :: p ++ r))
      with ((acc + x)%nat :: cumsum_from (acc + x) (y :: p ++ r)).
    cbn [nth]. rewrite IH. unfold list_sum. cbn [fold_right]. lia.
Qed.

Lemma list_sum_cons (x : nat) (l : list nat) : list_sum (x :: l) = (x + list_sum l)%nat.
Proof. reflexivity. Qed.

Lemma concat_data_length {A} (l : list (ndarray A)) :
  Forall wf l -> length (concat (map (@data A) l)) = list_sum (map (@size A) l).
Proof.
  induction 1 as [| a l Ha _ IH]; [reflexivity |].
  cbn [map concat]. unfold list_sum in *. cbn [fold_right]. rewrite length_app, IH, Ha. reflexivity.
Qed.

Lemma size_eq_of_shape {A} (l l' : list (ndarray A)) :
  map (@shape A) l = map (@shape A) l' -> map (@size A) l = map (@size A) l'.
Proof.
  intros H. change (@size A) with (fun a : ndarray A => prod_shape (shape a)).
  rewrite <- !(map_map (@shape A) prod_shape). now rewrite H.
Qed.

(** The slice of the stacked vector between two consecutive offsets, with
    the shape recorded for it, is the array that was stacked there. *)
Lemma vec2list_from (v : ndarray R) (idx : list nat) (pre rest : list (ndarray R)) :
  Forall wf (pre ++ rest) ->
  shape v = [list_sum (map (@size R) (pre ++ rest)); 1%nat] ->
  data v = concat (map (@data R) (pre ++ rest)) ->
  idx = np_cumsum (0%nat :: map (@size R) (pre ++ rest)) ->
  mapM (fun p : nat * list nat =>
          let (i, shape_) := p in
          s <- slice0 v (nth i idx 0%nat) (nth (i + 1) idx 0%nat) ;;
          np_reshape s shape_)
       (combine (seq (length pre) (length rest)) (map (@shape R) rest))
  = Ok rest.
Proof.
  revert pre. induction rest as [| a rest IH]; intros pre Hwf Hs Hd Hidx; [reflexivity |].
  cbn [length seq map combine mapM].
  assert (Hlo : nth (length pre) idx 0%nat = list_sum (map (@size R) pre)).
  { rewrite Hidx, map_app. unfold np_cumsum.
    rewrite <- (length_map (@size R) pre) at 1. rewrite nth_cumsum_from. lia. }
  assert (Hhi : nth (length pre + 1) idx 0%nat
                = (list_sum (map (@size R) pre) + size a)%nat).
  { rewrite Hidx. replace (pre ++ a :: rest) with ((pre ++ [a]) ++ rest)
      by (rewrite <- app_assoc; reflexivity).
    rewrite map_app. unfold np_cumsum.
    replace (length pre + 1)%nat with (length (map (@size R) (pre ++ [a])))
      by (rewrite length_map, length_app; reflexivity).
    rewrite nth_cumsum_from, map_app, list_sum_app. cbn [map]. rewrite list_sum_cons. cbn. lia. }
  assert (Hwf2 := Hwf). apply Forall_app in Hwf2. destruct Hwf2 as [Hpre Hrest].
  assert (Ha : wf a) by (apply (Forall_inv Hrest)).
  assert (Hhead : (s <- slice0 v (nth (length pre) idx 0%nat)
                               (nth (length pre + 1) idx 0%nat) ;;
                   np_reshape s (shape a)) = Ok a).
  { rewrite Hlo, Hhi. unfold slice0. rewrite Hs.
    cbn [bind prod_shape fold_right].
    rewrite map_app, list_sum_app. cbn [map]. rewrite list_sum_cons.
    rewrite Nat.min_l by lia.
    replace (list_sum (map (@size R) pre) + size a - list_sum (map (@size R) pre))%nat
      with (size a) by lia.
    rewrite Hd, map_app, concat_app. cbn [map concat].
    rewrite !Nat.mul_1_r. rewrite <- (concat_data_length pre Hpre).
    rewrite skipn_app, skipn_all, Nat.sub_diag. cbn [skipn app].
    rewrite <- Ha. rewrite firstn_app, firstn_all, Nat.sub_diag. cbn [firstn].
    rewrite app_nil_r.
    unfold np_reshape, size at 1. cbn [shape prod_shape fold_right].
    rewrite Ha. replace (prod_shape (shape a) =? size a * (1 * 1))%nat with true
      by (symmetry; apply Nat.eqb_eq; unfold size; lia).
    cbn [data]. destruct a; reflexivity. }
  rewrite Hhead. cbn [bind].
  specialize (IH (pre ++ [a])).
  rewrite <- app_assoc in IH. cbn [app] in IH.
  rewrite length_app in IH. cbn [length] in IH.
  replace (length pre + 1)%nat with (S (length pre)) in IH by lia.
  rewrite (IH Hwf Hs Hd Hidx). reflexivity.
Qed.

(** X4. [_vec2list] undoes [_list2vec]: a criterion built with a list for mean
    splits the stacked vector of any list of arrays of the shapes of the mean
    into that list again. *)
Theorem Criterion_vec2list_list2vec
    (op : ndarray R -> result arr_or_list) (adj : arr_or_list -> result (ndarray R))
    (pot : Potential.t R) (hyper : R) (mean l : list (ndarray R))
    (c : Criterion.t) (v : ndarray R) :
  Criterion.__init__ op adj pot hyper (ArrList mean) = Ok c ->
  Forall wf l -> map (@shape R) l = map (@shape R) mean ->
  Criterion._list2vec l = Ok v ->
  Criterion._vec2list c v = Ok l.
Proof.
  intros Hinit Hwf Hshapes Hv.
  cbn [Criterion.__init__] in Hinit. bind_step Hinit m Hm. injection Hinit as <-.
  unfold Criterion._vec2list. cbn [Criterion._shape Criterion._idx].
  rewrite <- Hshapes, length_map.
  unfold Criterion._list2vec in Hv. destruct l as [| a l]; [discriminate |].
  injection Hv as <-.
  apply (vec2list_from _ _ [] (a :: l)).
  - exact Hwf.
  - cbn [shape app]. rewrite map_map.
    rewrite (map_ext _ (@size R) (fun x => size_reshape_col x)).
    cbn [map]. rewrite !list_sum_cons, size_reshape_col. reflexivity.
  - cbn [data app]. rewrite map_map. reflexivity.
  - cbn [app]. rewrite (size_eq_of_shape _ _ Hshapes). reflexivity.
Qed.

Lemma Criterion_vec2list_list2vec_witness :
  Criterion.__init__ op_identity adj_identity Square.new 1
    (ArrList [mk_array [2%nat] [0; 0]; mk_array [1; 2]%nat [0; 0]])
  = Ok (Criterion.mk op_identity adj_identity
          (ArrList [mk_array [2%nat] [0; 0]; mk_array [1; 2]%nat [0; 0]])
          true [[2%nat]; [1; 2]%nat] [0; 2; 4]%nat
          (mk_array [4; 1]%nat [0; 0; 0; 0]) 1 Square.new) /\
  Forall wf [mk_array [2%nat] [5; 6]; mk_array [1; 2]%nat [7; 8]] /\
  map (@shape R) [mk_array [2%nat] [5; 6]; mk_array [1; 2]%nat [7; 8]]
  = map (@shape R) [mk_array [2%nat] [0; 0]; mk_array [1; 2]%nat [0; 0]] /\
  Criterion._list2vec [mk_array [2%nat] [5; 6]; mk_array [1; 2]%nat [7; 8]]
  = Ok (mk_array [4; 1]%nat [5; 6; 7; 8]) /\
  Criterion._vec2list
    (Criterion.mk op_identity adj_identity
       (ArrList [mk_array [2%nat] [0; 0]; mk_array [1; 2]%nat [0; 0]])
       true [[2%nat]; [1; 2]%nat] [0; 2; 4]%nat
       (mk_array [4; 1]%nat [0; 0; 0; 0]) 1 Square.new)
    (mk_array [4; 1]%nat [5; 6; 7; 8])
  = Ok [mk_array [2%nat] [5; 6]; mk_array [1; 2]%nat [7; 8]].
Proof.
  assert (Hwf : Forall wf [mk_array [2%nat] [5; 6]; mk_array [1; 2]%nat [7; 8]])
    by (repeat constructor).
  split; [reflexivity |]. split; [exact Hwf |]. split; [reflexivity |].
  split; [reflexivity |].
  exact (Criterion_vec2list_list2vec op_identity adj_identity Square.new 1
           [mk_array [2%nat] [0; 0]; mk_array [1; 2]%nat [0; 0]]
           [mk_array [2%nat] [5; 6]; mk_array [1; 2]%nat [7; 8]]
           _ (mk_array [4; 1]%nat [5; 6; 7; 8]) eq_refl Hwf eq_refl eq_refl).
Defined.

(** ** HerbertLeahy *)

Lemma HerbertLeahy_value_finite (delta u : R) :
  delta <> 0 ->
  HerbertLeahy.value delta (scalar (Finite u))
  = scalar (Finite (ln (1 + u * u / delta ^ 2))).
Proof.
  intros Hd.
  assert (Hd2 : 0 < delta ^ 2) by (apply pow2_pos; exact Hd).
  assert (Hu : 0 <= u * u) by nra.
  assert (Hq : 0 <= u * u / delta ^ 2).
  { apply Rmult_le_pos; [exact Hu | left; apply Rinv_0_lt_compat; exact Hd2]. }
  unfold HerbertLeahy.value, amap, scalar. cbn [shape data map].
  unfold x_mul, x_div, x_add, x_log.
  rewrite (R_is_zero_false (delta ^ 2)) by lra.
  rewrite R_ltb_true by lra. reflexivity.
Qed.

Lemma HerbertLeahy_gradient_finite (delta u : R) :
  delta <> 0 ->
  HerbertLeahy.gradient delta (scalar (Finite u))
  = scalar (Finite (2 * u / (delta ^ 2 + u * u))).
Proof.
  intros Hd.
  assert (Hd2 : 0 < delta ^ 2) by (apply pow2_pos; exact Hd).
  assert (Hu : 0 <= u * u) by nra.
  unfold HerbertLeahy.gradient, amap, scalar. cbn [shape data map].
  unfold x_mul, x_div, x_add.
  rewrite (R_is_zero_false (delta ^ 2 + u * u)) by lra. reflexivity.
Qed.

(** X11. [HerbertLeahy]: for [delta <> 0], on finite entries read as real
    numbers, the gradient is the derivative of the value. *)
Theorem HerbertLeahy_gradient_is_derivative (delta u : R) :
  delta <> 0 ->
  derivable_pt_lim (at_finite (HerbertLeahy.value delta)) u
                   (at_finite (HerbertLeahy.gradient delta) u).
Proof.
  intros Hd.
  assert (Hd2 : 0 < delta ^ 2) by (apply pow2_pos; exact Hd).
  assert (Hu : 0 <= u * u) by nra.
  assert (Hv : forall x, at_finite (HerbertLeahy.value delta) x
                         = ln (1 + x * x / delta ^ 2)).
  { intros x. unfold at_finite. rewrite (HerbertLeahy_value_finite delta x Hd). reflexivity. }
  assert (Hg : at_finite (HerbertLeahy.gradient delta) u = 2 * u / (delta ^ 2 + u * u)).
  { unfold at_finite. rewrite (HerbertLeahy_gradient_finite delta u Hd). reflexivity. }
  rewrite Hg.
  apply (derivable_pt_lim_ext (fun x => ln (1 + x * x / delta ^ 2)));
    [intros z; symmetry; apply Hv |].
  set (inner := fun x : R => 1 + x * x / delta ^ 2).
  assert (Hinner : derivable_pt_lim inner u (2 * u / delta ^ 2)).
  { unfold inner.
    apply (derivable_pt_lim_ext (fun x => 1 + / delta ^ 2 * x ^ 2)).
    - intros z. field. lra.
    - replace (2 * u / delta ^ 2) with (0 + / delta ^ 2 * (2 * u)) by (field; lra).
      apply (derivable_pt_lim_plus (fun _ => 1) (fun x => / delta ^ 2 * x ^ 2)).
      + apply derivable_pt_lim_const.
      + apply derivable_pt_lim_scal. apply derivable_pt_lim_sqr. }
  apply (derivable_pt_lim_ext (comp ln inner)); [reflexivity |].
  replace (2 * u / (delta ^ 2 + u * u)) with (/ inner u * (2 * u / delta ^ 2))
    by (unfold inner; field; lra).
  apply derivable_pt_lim_comp; [exact Hinner |].
  apply derivable_pt_lim_ln. unfold inner.
  assert (0 <= u * u / delta ^ 2)
    by (apply Rmult_le_pos; [exact Hu | left; apply Rinv_0_lt_compat; exact Hd2]).
  lra.
Qed.

Lemma HerbertLeahy_gradient_is_derivative_witness :
  2 <> 0 /\
  derivable_pt_lim (at_finite (HerbertLeahy.value 2)) 3
                   (at_finite (HerbertLeahy.gradient 2) 3).
Proof.
  assert (H : 2 <> 0) by lra.
  split; [exact H |].
  exact (HerbertLeahy_gradient_is_derivative 2 3 H).
Defined.

(** X21. [HerbertLeahy] stores the infinity for [inf]: on every array with a
    dimension at least, [gr_coeffs] returns an array of the same shape with
    the infinity at each zero entry, while for [delta <> 0] the GR
    coefficient [gradient(u) / u] tends to the number [2 / delta^2] at 0. *)
Theorem HerbertLeahy_gr_coeffs_at_zero (delta : R) :
  delta <> 0 ->
  Potential.inf (HerbertLeahy.new delta) = PInf /\
  (forall u : ndarray xreal, shape u <> [] ->
     exists r, Potential.gr_coeffs (HerbertLeahy.new delta) u = Ok r /\
               shape r = shape u /\
               Forall2 (fun ui ri => s_is_zero ui = true -> ri = PInf)
                       (data u) (data r)) /\
  limit_at_0 (fun u => at_finite (HerbertLeahy.gradient delta) u / u) (2 / delta ^ 2).
Proof.
  intros Hd.
  assert (Hd2 : 0 < delta ^ 2) by (apply pow2_pos; exact Hd).
  split; [reflexivity |]. split; [intros u Hdim; apply HerbertLeahy_gr_coeffs; exact Hdim |].
  set (h := fun u : R => 2 / (delta ^ 2 + u * u)).
  replace (2 / delta ^ 2) with (h 0) by (unfold h; field; lra).
  apply (limit_at_0_of_continuous _ h).
  - unfold h. reg. lra.
  - intros u Hu. unfold at_finite.
    rewrite (HerbertLeahy_gradient_finite delta u Hd). cbn [scalar data nth finite_part].
    unfold h. assert (0 <= u * u) by nra. field. split; [lra | exact Hu].
Qed.

Lemma HerbertLeahy_gr_coeffs_at_zero_witness :
  1 <> 0 /\
  Potential.inf (HerbertLeahy.new 1) = PInf /\
  (forall u : ndarray xreal, shape u <> [] ->
     exists r, Potential.gr_coeffs (HerbertLeahy.new 1) u = Ok r /\
               shape r = shape u /\
               Forall2 (fun ui ri => s_is_zero ui = true -> ri = PInf)
                       (data u) (data r)) /\
  limit_at_0 (fun u => at_finite (HerbertLeahy.gradient 1) u / u) (2 / 1 ^ 2).
Proof.
  assert (H : 1 <> 0) by lra.
  split; [exact H |].
  exact (HerbertLeahy_gr_coeffs_at_zero 1 H).
Defined.

(** ** QuadCriterion *)

Lemma Rsum_map_half (l : list R) :
  Rsum (map (fun u => u ^ 2 / 2) l) = Rsum (map (fun u => u ^ 2) l) / 2.
Proof.
  induction l as [| x l IH]; unfold Rsum in *; cbn [map fold_right]; [field |].
  rewrite IH. field.
Qed.

(** X6. The override [QuadCriterion.value] returns what the method of the base
    class returns for the potential [Square]. *)
Theorem QuadCriterion_value_is_Criterion_value
    (op : ndarray R -> result arr_or_list) (adj : arr_or_list -> result (ndarray R))
    (normal : ndarray R -> result (ndarray R)) (hyper : R) (mean : arr_or_list)
    (q : QuadCriterion.t) (x : ndarray R) :
  QuadCriterion.__init__ op adj normal hyper mean = Ok q ->
  QuadCriterion.value q x = Criterion.value (QuadCriterion.base q) x.
Proof.
  intros Hinit.
  destruct (QuadCriterion_init_inv _ _ _ _ _ _ Hinit) as [_ [_ [_ [Hpot _]]]].
  unfold QuadCriterion.value, Criterion.value.
  destruct (Criterion._operator (QuadCriterion.base q) x) as [out | e]; [| reflexivity].
  cbn [bind].
  destruct (np_sub out (Criterion._mean (QuadCriterion.base q))) as [obj | e];
    [| reflexivity].
  cbn [bind]. f_equal. rewrite Hpot.
  unfold Potential.call, np_sum. cbn [Potential.value Square.new].
  unfold Square.value, amap. cbn [data]. rewrite Rsum_map_half. field.
Qed.

Lemma QuadCriterion_value_is_Criterion_value_witness :
  QuadCriterion.__init__ op_identity adj_identity normal_identity
    Criterion.default_hyper Criterion.default_mean = Ok quad_identity /\
  QuadCriterion.value quad_identity (mk_array [2%nat] [3; 4])
  = Criterion.value (QuadCriterion.base quad_identity) (mk_array [2%nat] [3; 4]).
Proof.
  split; [exact quad_identity_init |].
  exact (QuadCriterion_value_is_Criterion_value op_identity adj_identity normal_identity
           Criterion.default_hyper Criterion.default_mean quad_identity
           (mk_array [2%nat] [3; 4]) quad_identity_init).
Defined.

(** X5. A [QuadCriterion] built with a list of arrays for mean: the stacked mean
    is split into the list again before [adjoint] is called, so [mean_t] is
    [adjoint(mean)], and the construction fails only where [adjoint] does. *)
Theorem QuadCriterion_list_mean
    (op : ndarray R -> result arr_or_list) (adj : arr_or_list -> result (ndarray R))
    (normal : ndarray R -> result (ndarray R)) (hyper : R) (l : list (ndarray R)) :
  l <> [] -> Forall wf l ->
  exists c,
    Criterion.__init__ op adj Square.new hyper (ArrList l) = Ok c /\
    Criterion._stacked c = true /\
    Criterion._list2vec l = Ok (Criterion._mean c) /\
    QuadCriterion.__init__ op adj normal hyper (ArrList l)
    = (mt <- adj (ArrList l) ;; Ok (QuadCriterion.mk c normal mt)).
Proof.
  intros Hne Hwf.
  destruct l as [| a l]; [contradiction |].
  eexists. split; [reflexivity |]. split; [reflexivity |]. split; [reflexivity |].
  unfold QuadCriterion.__init__. cbn [Criterion.__init__ Criterion._list2vec bind].
  unfold Criterion._adjoint, Criterion._vec2list.
  cbn [Criterion._stacked Criterion._shape Criterion._idx Criterion._mean
       Criterion.adjoint].
  rewrite length_map.
  rewrite (vec2list_from _ _ [] (a :: l)).
  - reflexivity.
  - exact Hwf.
  - cbn [shape app]. rewrite map_map.
    rewrite (map_ext _ (@size R) (fun x => size_reshape_col x)). reflexivity.
  - cbn [data app]. rewrite map_map. reflexivity.
  - reflexivity.
Qed.

Lemma QuadCriterion_list_mean_witness :
  [mk_array [2%nat] [1; 2]; mk_array [1; 1]%nat [3]] <> [] /\
  Forall wf [mk_array [2%nat] [1; 2]; mk_array [1; 1]%nat [3]] /\
  exists c,
    Criterion.__init__ op_identity adj_identity Square.new 1
      (ArrList [mk_array [2%nat] [1; 2]; mk_array [1; 1]%nat [3]]) = Ok c /\
    Criterion._stacked c = true /\
    Criterion._list2vec [mk_array [2%nat] [1; 2]; mk_array [1; 1]%nat [3]]
    = Ok (Criterion._mean c) /\
    QuadCriterion.__init__ op_identity adj_identity normal_identity 1
      (ArrList [mk_array [2%nat] [1; 2]; mk_array [1; 1]%nat [3]])
    = (mt <- adj_identity (ArrList [mk_array [2%nat] [1; 2]; mk_array [1; 1]%nat [3]]) ;;
       Ok (QuadCriterion.mk c normal_identity mt)).
Proof.
  assert (Hne : [mk_array [2%nat] [1; 2]; mk_array [1; 1]%nat [3]] <> []) by discriminate.
  assert (Hwf : Forall wf [mk_array [2%nat] [1; 2]; mk_array [1; 1]%nat [3]])
    by (repeat constructor).
  split; [exact Hne |]. split; [exact Hwf |].
  exact (QuadCriterion_list_mean op_identity adj_identity normal_identity 1
           [mk_array [2%nat] [1; 2]; mk_array [1; 1]%nat [3]] Hne Hwf).
Defined.

(** ** mmmg returns *)

(** X1. With criteria and a pseudo-inverse of fitting shapes and at least one
    criterion, [mmmg] raises nothing: it returns a point of the shape of
    [init] and a trace of at most [max_iter] norms, with at least one as soon
    as [max_iter] is not 0. *)
Theorem mmmg_total (la_pinv : ndarray R -> result (ndarray R))
    (crit_list : list Crit.t) (init : ndarray R) (tol : R) (max_iter : nat) :
  wf init -> pinv_2x2 la_pinv -> crit_list <> [] ->
  Forall (fun crit => exists M, well_shaped_crit init crit M) crit_list ->
  exists x trace,
    mmmg la_pinv crit_list init tol max_iter = Ok (x, trace) /\
    has_shape x (shape init) /\
    (Nat.min 1 max_iter <= length trace <= max_iter)%nat.
Proof.
  intros Hwf Hpinv Hne Hcrits.
  destruct (mmmg_init_ok init Hwf crit_list Hcrits) as [st0 [Hinit Hs0]].
  destruct (mmmg_loop_ok la_pinv init tol Hpinv crit_list max_iter st0 Hne Hs0)
    as [st [Hloop [Hpoint _]]].
  destruct (np_reshape_has_shape (m_point st) (shape init) (size init) Hpoint eq_refl)
    as [x [Hx Hsx]].
  exists x, (m_norm_grad st). unfold mmmg, mmmg_run.
  rewrite Hinit. cbn [bind]. rewrite Hloop. cbn [bind]. rewrite Hx. cbn [bind].
  split; [reflexivity |]. split; [exact Hsx |].
  assert (Hn0 : m_norm_grad st0 = []).
  { unfold mmmg_init in Hinit. bind_inv Hinit. injection Hinit as <-. reflexivity. }
  destruct (mmmg_loop_spec la_pinv crit_list init tol max_iter st0 st Hloop)
    as [l [Hl [_ [Hlen [_ [_ Hend]]]]]].
  rewrite Hl, Hn0. cbn [app].
  destruct Hend as [[Hnil _] | [Hfull _]].
  - destruct l; [contradiction |]. cbn [length] in *. lia.
  - lia.
Qed.

Lemma mmmg_total_witness :
  wf (mk_array [1%nat] [3]) /\ pinv_2x2 pinv_9_0_0_0 /\
  [QuadCriterion_as_crit quad_identity] <> [] /\
  Forall (fun crit => exists M, well_shaped_crit (mk_array [1%nat] [3]) crit M)
         [QuadCriterion_as_crit quad_identity] /\
  exists x trace,
    mmmg pinv_9_0_0_0 [QuadCriterion_as_crit quad_identity] (mk_array [1%nat] [3])
         (1 / 10) 500 = Ok (x, trace) /\
    has_shape x (shape (mk_array [1%nat] [3])) /\
    (Nat.min 1 500 <= length trace <= 500)%nat.
Proof.
  assert (Hwf : wf (mk_array [1%nat] [3])) by reflexivity.
  assert (Hne : [QuadCriterion_as_crit quad_identity] <> []) by discriminate.
  assert (Hcrits : Forall (fun crit => exists M,
                             well_shaped_crit (mk_array [1%nat] [3]) crit M)
                          [QuadCriterion_as_crit quad_identity]).
  { constructor; [| constructor]. exists (size (mk_array [1%nat] [3])).
    apply quad_identity_well_shaped. }
  split; [exact Hwf |]. split; [exact pinv_9_0_0_0_2x2 |]. split; [exact Hne |].
  split; [exact Hcrits |].
  exact (mmmg_total pinv_9_0_0_0 [QuadCriterion_as_crit quad_identity]
           (mk_array [1%nat] [3]) (1 / 10) 500 Hwf pinv_9_0_0_0_2x2 Hne Hcrits).
Defined.

(** ** mmcg: the trace *)

Lemma mmcg_loop_S (crit_list : list Crit.t) (init : ndarray R) (tol : R)
    (precond : option (ndarray R -> result (ndarray R))) (n : nat) (st : mmcg_state) :
  mmcg_loop crit_list init tol precond (S n) st
  = (f <- mmcg_iter crit_list init tol precond st ;;
     match f with
     | Break st' => Ok st'
     | Continue st' => mmcg_loop crit_list init tol precond n st'
     end).
Proof. reflexivity. Qed.

Lemma la_norm_neg (a : ndarray R) : la_norm (np_neg a) = la_norm a.
Proof.
  unfold la_norm, np_neg, amap. cbn [data]. f_equal.
  induction (data a) as [| x l IH]; [reflexivity |].
  cbn [map]. unfold Rsum in *. cbn [fold_right]. rewrite IH. ring.
Qed.

Section MmcgProperties.

Variable crit_list : list Crit.t.
Variable init : ndarray R.
Variable tol : R.
Variable precond : option (ndarray R -> result (ndarray R)).

Lemma mmcg_init_spec (st : mmcg_state) :
  mmcg_init crit_list init precond = Ok st ->
  c_point st = reshape_col init /\ mmcg_inv crit_list init st /\
  exists g0, gradient crit_list (reshape_col init) (shape init) = Ok g0 /\
             c_norm_res st = [la_norm g0].
Proof.
  unfold mmcg_init. intros H.
  bind_step H g Hg. bind_step H sec Hsec. bind_step H rt Hrt. bind_step H delta Hdelta.
  injection H as <-. cbn [c_point c_residual c_norm_res].
  split; [reflexivity |]. split.
  - split; [reflexivity |]. exists g. split; [exact Hg |]. split; [reflexivity |].
    cbn [last]. apply la_norm_neg.
  - exists g. split; [exact Hg |]. now rewrite la_norm_neg.
Qed.

(** One pass through the body: the point keeps its shape, one norm is
    recorded, that of the gradient at the new point, and the pass ends the
    loop exactly when this norm is below [point.size * tol]. *)
Lemma mmcg_iter_spec (st : mmcg_state) (f : flow mmcg_state) :
  shape (c_point st) = [size init; 1%nat] ->
  mmcg_iter crit_list init tol precond st = Ok f ->
  mmcg_inv crit_list init (flow_state f) /\
  exists v, c_norm_res (flow_state f) = c_norm_res st ++ [v] /\
            match f with
            | Break _ => v < INR (size init) * tol
            | Continue _ => ~ v < INR (size init) * tol
            end.
Proof.
  intros Hshape. unfold mmcg_iter. intros H.
  bind_step H op_direction Hop. bind_step H dt Hdt. bind_step H step0 Hstep0.
  bind_step H curv Hcurv. bind_step H step Hstep. bind_step H sd Hsd.
  bind_step H point Hpoint. bind_step H g Hg.
  assert (Hsp : shape point = [size init; 1%nat])
    by (rewrite (np_iadd_shape _ _ _ Hpoint); exact Hshape).
  assert (Hsize : size point = size init).
  { unfold size at 1. rewrite Hsp. cbn [prod_shape fold_right]. lia. }
  rewrite last_snoc, Hsize, la_norm_neg in H. unfold R_ltb in H.
  assert (Hinv : forall sec direction delta,
             mmcg_inv crit_list init (mk_mmcg point (np_neg g) sec direction delta
                               (c_norm_res st ++ [la_norm g]))).
  { intros sec direction delta. split; [exact Hsp |].
    exists g. cbn [c_point c_residual c_norm_res].
    split; [exact Hg |]. split; [reflexivity |].
    apply last_snoc. }
  destruct (Rlt_dec (la_norm g) (INR (size init) * tol)) as [Hlt | Hge].
  - injection H as <-. cbn [flow_state]. split; [apply Hinv |].
    exists (la_norm g). cbn [c_norm_res]. split; [reflexivity | exact Hlt].
  - bind_step H rt Hrt. bind_step H delta_mid Hmid. bind_step H sec Hsec.
    bind_step H rt' Hrt'. bind_step H delta Hdelta. bind_step H num Hnum.
    bind_step H beta Hbeta. bind_step H nonneg Hnonneg.
    destruct nonneg.
    + bind_step H num' Hnum'. bind_step H beta' Hbeta'.
      bind_step H bd Hbd. bind_step H direction' Hdir.
      injection H as <-. cbn [flow_state]. split; [apply Hinv |].
      exists (la_norm g). cbn [c_norm_res].
      split; [reflexivity | exact Hge].
    + injection H as <-. cbn [flow_state]. split; [apply Hinv |].
      exists (la_norm g). cbn [c_norm_res].
      split; [reflexivity | exact Hge].
Qed.

(** The loop, from any state: what it appends to the trace. *)
Lemma mmcg_loop_spec (n : nat) (st st' : mmcg_state) :
  mmcg_inv crit_list init st ->
  mmcg_loop crit_list init tol precond n st = Ok st' ->
  mmcg_inv crit_list init st' /\
  exists l,
    c_norm_res st' = c_norm_res st ++ l /\
    (length l <= n)%nat /\
    (forall i, (S i < length l)%nat -> ~ nth i l 0 < INR (size init) * tol) /\
    ((l <> [] /\ last l 0 < INR (size init) * tol) \/
     (length l = n /\ Forall (fun v => ~ v < INR (size init) * tol) l)).
Proof.
  revert st. induction n as [| n IH]; intros st Hinv H.
  - cbn [mmcg_loop] in H. injection H as <-. split; [exact Hinv |].
    exists []. rewrite app_nil_r. split; [reflexivity |]. split; [cbn; lia |].
    split; [intros i Hi; cbn in Hi; lia |]. right. split; [reflexivity | constructor].
  - rewrite mmcg_loop_S in H. bind_step H f Hiter.
    apply mmcg_iter_spec in Hiter; [| exact (proj1 Hinv)].
    destruct Hiter as [Hinv1 [v [Hv Hf]]].
    destruct f as [st1 | st1]; cbn [flow_state] in Hinv1, Hv.
    + apply IH in H; [| exact Hinv1].
      destruct H as [Hinv' [l [Hl [Hlen [Hpre Hend]]]]].
      split; [exact Hinv' |].
      exists (v :: l). split; [rewrite Hl, Hv, <- app_assoc; reflexivity |].
      split; [cbn [length]; lia |].
      split; [intros [| i] Hi; [exact Hf | apply Hpre; cbn [length] in Hi; lia] |].
      destruct Hend as [[Hne Hlast] | [Hfull Hall]].
      * left. split; [discriminate |].
        destruct l as [| w l]; [contradiction | exact Hlast].
      * right. split; [cbn [length]; lia | constructor; assumption].
    + injection H as <-. split; [exact Hinv1 |].
      exists [v]. split; [exact Hv |]. split; [cbn [length]; lia |].
      split; [intros i Hi; cbn [length] in Hi; lia |].
      left. split; [discriminate | exact Hf].
Qed.

End MmcgProperties.

(** X2. When [mmcg] returns [(x, trace)]: [x] has the shape of [init]; the trace
    starts with the norm of the gradient at [init], which is recorded and not
    tested, and holds one more norm per iteration, so between 1 and
    [max_iter + 1]; its last entry is the norm of the gradient at [x]; no
    norm of an iteration but the last is below [init.size * tol]; and the
    loop ended either on a norm below [init.size * tol] or after [max_iter]
    iterations. *)
Theorem mmcg_trace (crit_list : list Crit.t) (init : ndarray R) (tol : R)
    (precond : option (ndarray R -> result (ndarray R))) (max_iter : nat)
    (x : ndarray R) (trace : list R) :
  mmcg crit_list init tol precond max_iter = Ok (x, trace) ->
  shape x = shape init /\
  (exists g0 l,
     gradient crit_list (reshape_col init) (shape init) = Ok g0 /\
     trace = la_norm g0 :: l /\
     (length l <= max_iter)%nat /\
     (forall i, (S i < length l)%nat -> ~ nth i l 0 < INR (size init) * tol) /\
     ((l <> [] /\ last l 0 < INR (size init) * tol) \/
      (length l = max_iter /\ Forall (fun v => ~ v < INR (size init) * tol) l))) /\
  (exists g, gradient crit_list (reshape_col x) (shape init) = Ok g /\
             last trace 0 = la_norm g).
Proof.
  unfold mmcg. intros H.
  bind_step H st0 Hinit. bind_step H st Hloop. bind_step H minimiser Hmin.
  injection H as <- <-.
  apply mmcg_init_spec in Hinit. destruct Hinit as [Hp0 [Hinv0 [g0 [Hg0 Hn0]]]].
  apply mmcg_loop_spec in Hloop; [| exact Hinv0].
  destruct Hloop as [[Hshape [g [Hg [_ Hlast]]]] [l [Hl [Hlen [Hpre Hend]]]]].
  apply np_reshape_shape in Hmin. destruct Hmin as [Hs Hd].
  split; [exact Hs |]. split.
  - exists g0, l. split; [exact Hg0 |]. split; [rewrite Hl, Hn0; reflexivity |].
    split; [exact Hlen |]. split; [exact Hpre | exact Hend].
  - exists g. split; [| exact Hlast].
    replace (reshape_col minimiser) with (c_point st); [exact Hg |].
    unfold reshape_col, size. rewrite Hs, Hd. fold (size init). rewrite <- Hshape.
    destruct (c_point st); reflexivity.
Qed.

Lemma mmcg_example_run :
  mmcg [QuadCriterion_as_crit quad_diag] (mk_array [2%nat] [1; 1]) (1 / 10) None 1
  = Ok (mk_array [2%nat] [48 / 65; -3 / 65],
        [sqrt 17; la_norm (mk_array [2%nat; 1%nat] [-48 / 65; 12 / 65])]).
Proof.
  unfold mmcg. rewrite mmcg_example_init. cbn [bind].
  rewrite mmcg_loop_S, mmcg_example_iter. reflexivity.
Qed.

Lemma mmcg_trace_witness :
  mmcg [QuadCriterion_as_crit quad_diag] (mk_array [2%nat] [1; 1]) (1 / 10) None 1
  = Ok (mk_array [2%nat] [48 / 65; -3 / 65],
        [sqrt 17; la_norm (mk_array [2%nat; 1%nat] [-48 / 65; 12 / 65])]) /\
  shape (mk_array [2%nat] [48 / 65; -3 / 65]) = shape (mk_array [2%nat] [1; 1]) /\
  (exists g0 l,
     gradient [QuadCriterion_as_crit quad_diag] (reshape_col (mk_array [2%nat] [1; 1]))
              (shape (mk_array [2%nat] [1; 1])) = Ok g0 /\
     [sqrt 17; la_norm (mk_array [2%nat; 1%nat] [-48 / 65; 12 / 65])] = la_norm g0 :: l /\
     (length l <= 1)%nat /\
     (forall i, (S i < length l)%nat ->
                ~ nth i l 0 < INR (size (mk_array [2%nat] [1; 1])) * (1 / 10)) /\
     ((l <> [] /\ last l 0 < INR (size (mk_array [2%nat] [1; 1])) * (1 / 10)) \/
      (length l = 1%nat /\
       Forall (fun v => ~ v < INR (size (mk_array [2%nat] [1; 1])) * (1 / 10)) l))) /\
  (exists g,
     gradient [QuadCriterion_as_crit quad_diag]
              (reshape_col (mk_array [2%nat] [48 / 65; -3 / 65]))
              (shape (mk_array [2%nat] [1; 1])) = Ok g /\
     last [sqrt 17; la_norm (mk_array [2%nat; 1%nat] [-48 / 65; 12 / 65])] 0 = la_norm g).
Proof.
  split; [exact mmcg_example_run |].
  exact (mmcg_trace [QuadCriterion_as_crit quad_diag] (mk_array [2%nat] [1; 1]) (1 / 10)
           None 1 (mk_array [2%nat] [48 / 65; -3 / 65])
           [sqrt 17; la_norm (mk_array [2%nat; 1%nat] [-48 / 65; 12 / 65])]
           mmcg_example_run).
Defined.

(** ** The sum of the gradients *)

Lemma nth_map2 {A B C} (f : A -> B -> C) (a : list A) (b : list B) (i : nat)
    (da : A) (db : B) (dc : C) :
  (i < length a)%nat -> (i < length b)%nat ->
  nth i (map2 f a b) dc = f (nth i a da) (nth i b db).
Proof.
  unfold map2. revert b i. induction a as [| x a IH]; intros [| y b] [| i] Ha Hb;
    cbn [length] in *; try lia; cbn [combine map nth fst snd]; [reflexivity |].
  apply IH; lia.
Qed.

Lemma vect_gradient_run (crit : Crit.t) (point x g : ndarray R) (shape_ : list nat) :
  np_reshape point shape_ = Ok x -> Crit.gradient crit x = Ok g ->
  vect (fun x => g <- Crit.gradient crit x ;; Ok (Arr g)) point shape_
  = Ok (reshape_col g).
Proof.
  intros Hx Hg. unfold vect. rewrite Hx. cbn [bind]. rewrite Hg. reflexivity.
Qed.

Lemma gradient_fold (n : nat) (point x : ndarray R) (shape_ : list nat)
    (crit_list : list Crit.t) (gs : list (ndarray R)) (acc : ndarray R) :
  np_reshape point shape_ = Ok x ->
  Forall2 (fun crit g => Crit.gradient crit x = Ok g /\ wf g /\ size g = n) crit_list gs ->
  has_shape acc [n; 1%nat] ->
  exists r,
    fold_left (fun acc crit =>
                 s <- acc ;;
                 a <- vect (fun x => g <- Crit.gradient crit x ;; Ok (Arr g)) point shape_ ;;
                 np_add s a)
              crit_list (Ok acc) = Ok r /\
    has_shape r [n; 1%nat] /\
    forall i, (i < n)%nat ->
      nth i (data r) 0 = nth i (data acc) 0 + Rsum (map (fun g => nth i (data g) 0) gs).
Proof.
  intros Hx Hall. revert acc.
  induction Hall as [| crit g cs gs [Hg [Hwf Hn]] _ IH]; intros acc Hacc.
  - exists acc. split; [reflexivity |]. split; [exact Hacc |].
    intros i _. unfold Rsum. cbn [map fold_right]. ring.
  - cbn [fold_left bind]. rewrite (vect_gradient_run crit point x g shape_ Hx Hg).
    cbn [bind].
    assert (Hcol : has_shape (reshape_col g) [n; 1%nat])
      by (rewrite <- Hn; apply reshape_col_has_shape; exact Hwf).
    unfold np_add.
    rewrite (np_binop_same_shape Rplus acc (reshape_col g))
      by (first [ rewrite (proj1 Hacc), (proj1 Hcol); reflexivity
                | eapply has_shape_wf; eassumption ]).
    assert (Hlen_acc : length (data acc) = n)
      by (rewrite (proj2 Hacc); cbn [prod_shape fold_right]; lia).
    assert (Hlen_g : length (data g) = n) by (rewrite <- Hn; exact Hwf).
    assert (Hnew : has_shape (mk_array (shape acc)
                                (map2 Rplus (data acc) (data (reshape_col g)))) [n; 1%nat]).
    { split; [exact (proj1 Hacc) |]. cbn [data reshape_col].
      unfold map2. rewrite length_map, length_combine, Hlen_acc, Hlen_g.
      cbn [prod_shape fold_right]. lia. }
    destruct (IH _ Hnew) as [r [Hr [Hsr Hnth]]].
    exists r. split; [exact Hr |]. split; [exact Hsr |].
    intros i Hi. rewrite (Hnth i Hi). cbn [data reshape_col].
    rewrite (nth_map2 Rplus (data acc) (data g) i 0 0 0) by lia.
    unfold Rsum. cbn [map fold_right]. ring.
Qed.

(** X3. [gradient(crit_list, point, shape)] is the sum of the gradients of the
    criteria at [point] reshaped, as a column: entry by entry, when the
    gradients have the same number [n] of entries. *)
Theorem gradient_is_sum (n : nat) (crit_list : list Crit.t) (gs : list (ndarray R))
    (point x : ndarray R) (shape_ : list nat) :
  crit_list <> [] ->
  np_reshape point shape_ = Ok x ->
  Forall2 (fun crit g => Crit.gradient crit x = Ok g /\ wf g /\ size g = n) crit_list gs ->
  exists r,
    gradient crit_list point shape_ = Ok r /\
    has_shape r [n; 1%nat] /\
    forall i, (i < n)%nat -> nth i (data r) 0 = Rsum (map (fun g => nth i (data g) 0) gs).
Proof.
  intros Hne Hx Hall.
  destruct Hall as [| crit g cs gs [Hg [Hwf Hn]] Hrest]; [contradiction |].
  unfold gradient, py_sum_gen. cbn [fold_left bind].
  rewrite (vect_gradient_run crit point x g shape_ Hx Hg). cbn [bind].
  assert (Hcol : has_shape (reshape_col g) [n; 1%nat])
    by (rewrite <- Hn; apply reshape_col_has_shape; exact Hwf).
  rewrite (np_add_scalar 0 (reshape_col g)) by (eapply has_shape_wf; exact Hcol).
  assert (Hacc : has_shape (amap (Rplus 0) (reshape_col g)) [n; 1%nat])
    by (apply amap_has_shape; exact Hcol).
  destruct (gradient_fold n point x shape_ cs gs _ Hx Hrest Hacc) as [r [Hr [Hsr Hnth]]].
  exists r. split; [exact Hr |]. split; [exact Hsr |].
  intros i Hi. rewrite (Hnth i Hi). cbn [amap data reshape_col].
  assert (Hlen_g : length (data g) = n) by (rewrite <- Hn; exact Hwf).
  rewrite (nth_indep _ 0 (0 + 0)) by (rewrite length_map; lia).
  rewrite (map_nth (Rplus 0)). unfold Rsum. cbn [map fold_right]. ring.
Qed.

Lemma gradient_is_sum_witness :
  [QuadCriterion_as_crit quad_identity; QuadCriterion_as_crit quad_diag] <> [] /\
  np_reshape (mk_array [2; 1]%nat [3; 4]) [2%nat] = Ok (mk_array [2%nat] [3; 4]) /\
  Forall2 (fun crit g => Crit.gradient crit (mk_array [2%nat] [3; 4]) = Ok g /\
                         wf g /\ size g = 2%nat)
          [QuadCriterion_as_crit quad_identity; QuadCriterion_as_crit quad_diag]
          [mk_array [2%nat] [1 * (3 - 0); 1 * (4 - 0)];
           mk_array [2%nat] [1 * (1 * 3 - 1 * 0); 1 * (4 * 4 - 2 * 0)]] /\
  exists r,
    gradient [QuadCriterion_as_crit quad_identity; QuadCriterion_as_crit quad_diag]
             (mk_array [2; 1]%nat [3; 4]) [2%nat] = Ok r /\
    has_shape r [2; 1]%nat /\
    forall i, (i < 2)%nat ->
      nth i (data r) 0
      = Rsum (map (fun g => nth i (data g) 0)
                  [mk_array [2%nat] [1 * (3 - 0); 1 * (4 - 0)];
                   mk_array [2%nat] [1 * (1 * 3 - 1 * 0); 1 * (4 * 4 - 2 * 0)]]).
Proof.
  assert (Hne : [QuadCriterion_as_crit quad_identity; QuadCriterion_as_crit quad_diag] <> [])
    by discriminate.
  assert (Hx : np_reshape (mk_array [2; 1]%nat [3; 4]) [2%nat]
               = Ok (mk_array [2%nat] [3; 4])) by reflexivity.
  assert (Hall : Forall2 (fun crit g => Crit.gradient crit (mk_array [2%nat] [3; 4]) = Ok g /\
                                        wf g /\ size g = 2%nat)
                   [QuadCriterion_as_crit quad_identity; QuadCriterion_as_crit quad_diag]
                   [mk_array [2%nat] [1 * (3 - 0); 1 * (4 - 0)];
                    mk_array [2%nat] [1 * (1 * 3 - 1 * 0); 1 * (4 * 4 - 2 * 0)]]).
  { repeat constructor. }
  split; [exact Hne |]. split; [exact Hx |]. split; [exact Hall |].
  exact (gradient_is_sum 2 _ _ _ _ _ Hne Hx Hall).
Defined.

(** ** The majorant matrix of a quadratic criterion *)

Lemma chunks_concat {A} (k : nat) (ls : list (list A)) :
  Forall (fun r => length r = k) ls -> chunks k (length ls) (concat ls) = ls.
Proof.
  induction 1 as [| r ls Hr _ IH]; [reflexivity |].
  cbn [length chunks concat].
  rewrite firstn_app, <- Hr, firstn_all, Nat.sub_diag. cbn [firstn]. rewrite app_nil_r.
  rewrite skipn_app, skipn_all, Nat.sub_diag. cbn [skipn app].
  rewrite Hr, IH. reflexivity.
Qed.

Lemma nth_concat_uniform {A} (n i j : nat) (ls : list (list A)) (d : A) :
  Forall (fun r => length r = n) ls -> (i < length ls)%nat -> (j < n)%nat ->
  nth (i * n + j) (concat ls) d = nth j (nth i ls []) d.
Proof.
  intros Hall. revert i. induction Hall as [| r ls Hr _ IH]; intros i Hi Hj;
    cbn [length] in Hi; [lia |].
  cbn [concat]. destruct i as [| i].
  - cbn [Nat.mul Nat.add nth]. apply app_nth1. lia.
  - rewrite app_nth2 by (rewrite Hr; cbn [Nat.mul]; lia).
    replace (S i * n + j - length r)%nat with (i * n + j)%nat by (rewrite Hr; cbn [Nat.mul]; lia).
    cbn [nth]. apply IH; lia.
Qed.

Lemma dot_comm (a b : list R) : dot a b = dot b a.
Proof.
  unfold dot, map2, Rsum. revert b.
  induction a as [| x a IH]; intros [| y b]; cbn [combine map fold_right fst snd];
    try reflexivity.
  rewrite IH. ring.
Qed.

Lemma dot_self_nonneg (a : list R) : 0 <= dot a a.
Proof.
  unfold dot, map2, Rsum.
  induction a as [| x a IH]; cbn [combine map fold_right fst snd]; [lra |].
  pose proof (Rle_0_sqr x) as Hx. unfold Rsqr in Hx. lra.
Qed.

(** X7. [QuadCriterion.norm_mat_major(W, x)] is the Gram matrix of the columns
    of [W]: for [W] of shape (m, n) it returns an n x n matrix whose entry
    (i, j) is the dot product of the columns i and j, so a symmetric matrix
    with no negative entry on its diagonal. *)
Theorem QuadCriterion_norm_mat_major_gram (q : QuadCriterion.t) (W x : ndarray R)
    (m n : nat) :
  has_shape W [m; n] ->
  exists G,
    QuadCriterion.norm_mat_major q W x = Ok G /\
    has_shape G [n; n] /\
    (forall i j, (i < n)%nat -> (j < n)%nat ->
       nth (i * n + j) (data G) 0 = dot (column 0 i (rows W)) (column 0 j (rows W))) /\
    (forall i j, (i < n)%nat -> (j < n)%nat ->
       nth (i * n + j) (data G) 0 = nth (j * n + i) (data G) 0) /\
    (forall i, (i < n)%nat -> 0 <= nth (i * n + i) (data G) 0).
Proof.
  intros HW. pose proof HW as [Hs Hl].
  set (col := fun j : nat => column 0 j (rows W)).
  assert (Hcols : Forall (fun r => length r = m) (map col (seq 0 n))).
  { apply Forall_map, Forall_forall. intros j _. unfold col, column.
    rewrite length_map. apply (rows_count W m n Hs). }
  assert (Hrun : QuadCriterion.norm_mat_major q W x
                 = Ok (mk_array [n; n]
                         (concat (map (fun r => map (fun j => dot r (col j)) (seq 0 n))
                                      (map col (seq 0 n)))))).
  { unfold QuadCriterion.norm_mat_major, np_transpose. rewrite Hs. cbn [bind].
    unfold np_matmul. cbn [shape]. rewrite Hs, Nat.eqb_refl.
    unfold rows at 2. cbn [shape data]. fold col.
    replace (chunks m n (concat (map col (seq 0 n)))) with (map col (seq 0 n));
      [reflexivity |].
    rewrite <- (chunks_concat m _ Hcols) at 1. rewrite length_map, length_seq. reflexivity. }
  assert (Hrows : Forall (fun r => length r = n)
                    (map (fun r => map (fun j => dot r (col j)) (seq 0 n))
                         (map col (seq 0 n)))).
  { apply Forall_map, Forall_forall. intros r _. rewrite length_map. apply length_seq. }
  assert (Hentry : forall i j, (i < n)%nat -> (j < n)%nat ->
            nth (i * n + j)
                (concat (map (fun r => map (fun j => dot r (col j)) (seq 0 n))
                             (map col (seq 0 n)))) 0
            = dot (col i) (col j)).
  { intros i j Hi Hj.
    rewrite (nth_concat_uniform n i j _ 0 Hrows)
      by (rewrite ?length_map, ?length_seq; lia).
    rewrite map_map.
    rewrite (nth_indep _ [] ((fun x0 => map (fun j0 => dot (col x0) (col j0)) (seq 0 n)) 0%nat))
      by (rewrite length_map, length_seq; lia).
    rewrite (map_nth (fun x0 => map (fun j0 => dot (col x0) (col j0)) (seq 0 n))).
    rewrite seq_nth by lia. cbn [Nat.add].
    rewrite (nth_indep _ 0 ((fun j0 => dot (col i) (col j0)) 0%nat))
      by (rewrite length_map, length_seq; lia).
    rewrite (map_nth (fun j0 => dot (col i) (col j0))).
    rewrite seq_nth by lia. reflexivity. }
  eexists. split; [exact Hrun |]. cbn [data].
  split; [| split; [| split]].
  - split; [reflexivity |]. cbn [data].
    rewrite (concat_length_uniform _ n Hrows), !length_map, length_seq.
    cbn [prod_shape fold_right]. lia.
  - exact Hentry.
  - intros i j Hi Hj. rewrite (Hentry i j Hi Hj), (Hentry j i Hj Hi). apply dot_comm.
  - intros i Hi. rewrite (Hentry i i Hi Hi). apply dot_self_nonneg.
Qed.

Lemma QuadCriterion_norm_mat_major_gram_witness :
  has_shape (mk_array [3; 2]%nat [1; 2; 3; 4; 5; 6]) [3; 2]%nat /\
  exists G,
    QuadCriterion.norm_mat_major quad_identity (mk_array [3; 2]%nat [1; 2; 3; 4; 5; 6])
                                 (mk_array [2%nat] [0; 0]) = Ok G /\
    has_shape G [2; 2]%nat /\
    (forall i j, (i < 2)%nat -> (j < 2)%nat ->
       nth (i * 2 + j) (data G) 0
       = dot (column 0 i (rows (mk_array [3; 2]%nat [1; 2; 3; 4; 5; 6])))
             (column 0 j (rows (mk_array [3; 2]%nat [1; 2; 3; 4; 5; 6])))) /\
    (forall i j, (i < 2)%nat -> (j < 2)%nat ->
       nth (i * 2 + j) (data G) 0 = nth (j * 2 + i) (data G) 0) /\
    (forall i, (i < 2)%nat -> 0 <= nth (i * 2 + i) (data G) 0).
Proof.
  assert (HW : has_shape (mk_array [3; 2]%nat [1; 2; 3; 4; 5; 6]) [3; 2]%nat)
    by (split; reflexivity).
  split; [exact HW |].
  exact (QuadCriterion_norm_mat_major_gram quad_identity
           (mk_array [3; 2]%nat [1; 2; 3; 4; 5; 6]) (mk_array [2%nat] [0; 0]) 3 2 HW).
Defined.

(** ** The difference operator *)

Lemma dot_nil_l (l : list R) : dot [] l = 0.
Proof. reflexivity. Qed.

Lemma dot_cons (x y : R) (a b : list R) : dot (x :: a) (y :: b) = x * y + dot a b.
Proof. reflexivity. Qed.

Lemma dot_app (a a' b b' : list R) :
  length a = length b -> dot (a ++ a') (b ++ b') = dot a b + dot a' b'.
Proof.
  revert b. induction a as [| x a IH]; intros [| y b] H; try discriminate.
  - simpl. unfold dot at 2. simpl. ring.
  - simpl app. rewrite !dot_cons, IH by (simpl in H; lia). ring.
Qed.

Lemma map2_cons {A B C} (f : A -> B -> C) (x : A) (y : B) (a : list A) (b : list B) :
  map2 f (x :: a) (y :: b) = f x y :: map2 f a b.
Proof. reflexivity. Qed.

Lemma dot_minus_l (a b c : list R) :
  length a = length b -> length b = length c ->
  dot (map2 Rminus a b) c = dot a c - dot b c.
Proof.
  revert b c. induction a as [| x a IH]; intros [| y b] [| z c] H1 H2; try discriminate.
  - unfold dot. simpl. ring.
  - rewrite map2_cons, !dot_cons, IH by (simpl in *; lia). ring.
Qed.

Lemma dot_opp_minus_r (a b c : list R) :
  length a = length b -> length b = length c ->
  dot a (map Ropp (map2 Rminus b c)) = dot a c - dot a b.
Proof.
  revert b c. induction a as [| x a IH]; intros [| y b] [| z c] H1 H2; try discriminate.
  - unfold dot. simpl. ring.
  - rewrite map2_cons. cbn [map]. rewrite !dot_cons, IH by (simpl in *; lia). ring.
Qed.

Lemma dot_zero_r (a : list R) : dot a (repeat 0 (length a)) = 0.
Proof.
  induction a as [| x a IH]; [reflexivity |].
  cbn [length repeat]. rewrite dot_cons, IH. ring.
Qed.

Lemma map2_minus_length (a b : list R) :
  length a = length b -> length (map2 Rminus a b) = length a.
Proof. apply map2_length. Qed.

(** The adjoint on the sub-arrays of one block, with [p] before them in the
    place of the zeros. *)

Lemma diff_rows_cons2 (r0 r1 : list R) (rs : list (list R)) :
  diff_rows (r0 :: r1 :: rs) = map2 Rminus r1 r0 :: diff_rows (r1 :: rs).
Proof. reflexivity. Qed.

Lemma adjoint_rows_cons (p y : list R) (n : nat) (ys : list (list R)) :
  adjoint_rows p n (y :: ys) = map Ropp (map2 Rminus y p) :: adjoint_rows y n ys.
Proof. reflexivity. Qed.

(** Summation by parts along the axis. *)
Lemma rows_adjoint (n : nat) (ys rs : list (list R)) (p : list R) :
  length rs = S (length ys) ->
  Forall (fun r => length r = n) rs -> Forall (fun y => length y = n) ys ->
  length p = n ->
  dot (concat (diff_rows rs)) (concat ys)
  = dot (concat rs) (concat (adjoint_rows p n ys)) - dot (hd [] rs) p.
Proof.
  revert rs p. induction ys as [| y ys IH]; intros rs p Hlen Hrs Hys Hp.
  - destruct rs as [| r0 [| r1 rs]]; try discriminate.
    apply Forall_inv in Hrs.
    change (adjoint_rows p n []) with [map Ropp (map2 Rminus (repeat 0 n) p)].
    change (diff_rows [r0]) with (@nil (list R)).
    cbn [concat hd]. rewrite !app_nil_r.
    rewrite dot_opp_minus_r by (rewrite ?repeat_length; congruence).
    rewrite <- Hrs. rewrite (dot_zero_r r0), dot_nil_l. ring.
  - destruct rs as [| r0 [| r1 rs]]; try discriminate.
    pose proof (Forall_inv Hrs) as Hr0. apply Forall_inv_tail in Hrs.
    pose proof (Forall_inv Hrs) as Hr1.
    pose proof (Forall_inv Hys) as Hy. apply Forall_inv_tail in Hys.
    cbv beta in Hr0, Hr1, Hy.
    rewrite diff_rows_cons2, adjoint_rows_cons. cbn [concat hd].
    rewrite dot_app by (rewrite map2_minus_length; congruence).
    rewrite dot_app by (rewrite length_map, map2_minus_length; congruence).
    rewrite (IH (r1 :: rs) y) by (trivial; cbn [length] in *; lia).
    cbn [hd].
    rewrite dot_minus_l by congruence.
    rewrite dot_opp_minus_r by congruence.
    change (concat (r1 :: rs)) with (r1 ++ concat rs). ring.
Qed.

Lemma diff_rows_length (n : nat) (rs : list (list R)) :
  Forall (fun r => length r = n) rs ->
  length (diff_rows rs) = (length rs - 1)%nat /\
  Forall (fun r => length r = n) (diff_rows rs).
Proof.
  intros H. destruct rs as [| r0 rs]; [split; [reflexivity | constructor] |].
  revert r0 H. induction rs as [| r1 rs IH]; intros r0 H.
  - split; [reflexivity | constructor].
  - rewrite diff_rows_cons2.
    pose proof (Forall_inv H) as H0. apply Forall_inv_tail in H.
    pose proof (Forall_inv H) as H1. cbv beta in H0, H1.
    destruct (IH r1 H) as [Hl Hf]. split.
    + cbn [length] in *. lia.
    + constructor; [| exact Hf]. rewrite map2_minus_length; congruence.
Qed.

Lemma adjoint_rows_length (n : nat) (p : list R) (ys : list (list R)) :
  length p = n -> Forall (fun r => length r = n) ys ->
  length (adjoint_rows p n ys) = S (length ys) /\
  Forall (fun r => length r = n) (adjoint_rows p n ys).
Proof.
  intros Hp Hys. unfold adjoint_rows.
  assert (Hall : Forall (fun r => length r = n) (p :: ys ++ [repeat 0 n])).
  { constructor; [exact Hp |]. apply Forall_app. split; [exact Hys |].
    constructor; [apply repeat_length | constructor]. }
  destruct (diff_rows_length n _ Hall) as [Hl Hf]. split.
  - rewrite length_map, Hl. cbn [length]. rewrite length_app. cbn [length]. lia.
  - apply Forall_map. eapply Forall_impl; [| exact Hf].
    intros r Hr. rewrite length_map. exact Hr.
Qed.

(** The blocks of the argument of [forward] and of the argument of [adjoint]
    fit: as many blocks, one sub-array more in each block of the first. *)

Lemma blocks_adjoint (n : nat) (Bx By : list (list (list R))) :
  Forall2 (blocks_fit n) Bx By ->
  dot (of_axis_rows (map diff_rows Bx)) (of_axis_rows By)
  = dot (of_axis_rows Bx) (of_axis_rows (map (adjoint_rows (repeat 0 n) n) By)).
Proof.
  unfold of_axis_rows.
  induction 1 as [| bx by_ Bx By [Hlen [Hbx Hby]] _ IH]; [reflexivity |].
  cbn [map concat].
  destruct (diff_rows_length n bx Hbx) as [Hdl Hdf].
  destruct (adjoint_rows_length n (repeat 0 n) by_ (repeat_length 0 n) Hby) as [Hal Haf].
  rewrite dot_app.
  2:{ rewrite (concat_length_uniform _ n Hdf), (concat_length_uniform _ n Hby).
      f_equal. lia. }
  rewrite dot_app.
  2:{ rewrite (concat_length_uniform _ n Hbx), (concat_length_uniform _ n Haf).
      f_equal. lia. }
  rewrite IH. f_equal.
  rewrite (rows_adjoint n by_ bx (repeat 0 n) Hlen Hbx Hby (repeat_length 0 n)).
  destruct bx as [| r0 bx]; [discriminate |].
  pose proof (Forall_inv Hbx) as Hr0. cbv beta in Hr0. cbn [hd].
  rewrite <- Hr0, dot_zero_r. ring.
Qed.

Lemma axis_blocks_fit (inner dk outer : nat) (dx dy : list R) :
  (1 <= dk)%nat ->
  length dx = (outer * (dk * inner))%nat ->
  length dy = (outer * ((dk - 1) * inner))%nat ->
  Forall2 (blocks_fit inner)
          (map (chunks inner dk) (chunks (dk * inner) outer dx))
          (map (chunks inner (dk - 1)) (chunks ((dk - 1) * inner) outer dy)).
Proof.
  intros Hdk. revert dx dy. induction outer as [| outer IH]; intros dx dy Hx Hy.
  - constructor.
  - cbn [chunks map]. constructor.
    + split; [| split].
      * rewrite !chunks_count. lia.
      * apply chunks_length. rewrite length_firstn. nia.
      * apply chunks_length. rewrite length_firstn. nia.
    + apply IH; rewrite length_skipn; nia.
Qed.

Lemma of_axis_rows_chunks {A} (inner dk outer : nat) (d : list A) :
  length d = (outer * (dk * inner))%nat ->
  of_axis_rows (map (chunks inner dk) (chunks (dk * inner) outer d)) = d.
Proof.
  intros Hd. unfold of_axis_rows. rewrite map_map.
  assert (Hmap : map (fun x => concat (chunks inner dk x)) (chunks (dk * inner) outer d)
                 = chunks (dk * inner) outer d).
  { pose proof (chunks_length (dk * inner) outer d Hd) as Hall.
    induction Hall as [| c cs Hc _ IHc]; [reflexivity |].
    cbn [map]. rewrite IHc, concat_chunks, <- Hc. now rewrite firstn_all. }
  rewrite Hmap, concat_chunks, <- Hd. apply firstn_all.
Qed.

Lemma map_opp_of_axis_rows (n : nat) (B : list (list (list R))) :
  map Ropp (of_axis_rows (map (fun rs => diff_rows (repeat 0 n :: rs ++ [repeat 0 n])) B))
  = of_axis_rows (map (adjoint_rows (repeat 0 n) n) B).
Proof.
  unfold of_axis_rows, adjoint_rows.
  rewrite concat_map, !map_map. f_equal. apply map_ext. intros rs.
  apply concat_map.
Qed.

(** *** Axes and shapes *)

Lemma normalize_axis_Ok (axis : Z) (ndim k : nat) :
  normalize_axis axis ndim = Ok k -> (k < ndim)%nat.
Proof.
  unfold normalize_axis.
  destruct (Z.leb_spec (- Z.of_nat ndim) axis) as [Hlo | Hlo]; [| discriminate].
  destruct (Z.ltb_spec axis (Z.of_nat ndim)) as [Hhi | Hhi]; [| discriminate].
  cbn [andb]. intros H. injection H as <-.
  destruct (Z.ltb_spec axis 0); lia.
Qed.

Lemma set_axis_length (s : list nat) (k n : nat) :
  (k < length s)%nat -> length (set_axis s k n) = length s.
Proof.
  intros Hk. unfold set_axis. rewrite length_app. cbn [length].
  rewrite length_firstn, length_skipn. lia.
Qed.

Lemma set_axis_parts (s : list nat) (k n : nat) :
  (k < length s)%nat ->
  firstn k (set_axis s k n) = firstn k s /\
  nth k (set_axis s k n) 0%nat = n /\
  skipn (S k) (set_axis s k n) = skipn (S k) s.
Proof.
  intros Hk. unfold set_axis.
  assert (Hf : length (firstn k s) = k) by (rewrite length_firstn; lia).
  split; [| split].
  - rewrite firstn_app, Hf, Nat.sub_diag, firstn_O, app_nil_r.
    rewrite <- Hf at 1. apply firstn_all.
  - rewrite app_nth2 by lia. rewrite Hf, Nat.sub_diag. reflexivity.
  - rewrite skipn_app, Hf.
    rewrite (skipn_all2 (firstn k s)) by lia.
    replace (S k - k)%nat with 1%nat by lia. reflexivity.
Qed.

Lemma set_axis_same (s : list nat) (k : nat) :
  (k < length s)%nat -> set_axis s k (nth k s 0%nat) = s.
Proof.
  intros Hk. unfold set_axis.
  rewrite <- (firstn_skipn k s) at 4.
  f_equal. revert k Hk. induction s as [| a s IH]; intros k Hk; [simpl in Hk; lia |].
  destruct k as [| k]; [reflexivity |].
  cbn [nth skipn]. apply IH. simpl in Hk. lia.
Qed.

Lemma prod_shape_app (s t : list nat) :
  prod_shape (s ++ t) = (prod_shape s * prod_shape t)%nat.
Proof.
  induction s as [| a s IH].
  - change (prod_shape []) with 1%nat. cbn [app]. lia.
  - change (prod_shape ((a :: s) ++ t)) with (a * prod_shape (s ++ t))%nat.
    change (prod_shape (a :: s)) with (a * prod_shape s)%nat.
    rewrite IH. lia.
Qed.

Lemma prod_shape_set_axis (s : list nat) (k n : nat) :
  prod_shape (set_axis s k n)
  = (prod_shape (firstn k s) * (n * prod_shape (skipn (S k) s)))%nat.
Proof.
  unfold set_axis. rewrite prod_shape_app. reflexivity.
Qed.

Lemma prod_shape_axis (s : list nat) (k : nat) :
  (k < length s)%nat ->
  prod_shape s
  = (prod_shape (firstn k s) * (nth k s 0%nat * prod_shape (skipn (S k) s)))%nat.
Proof.
  intros Hk. rewrite <- (set_axis_same s k Hk) at 1. apply prod_shape_set_axis.
Qed.

Lemma np_diff_eq (a : ndarray R) (axis : Z) (k : nat) :
  normalize_axis axis (length (shape a)) = Ok k ->
  np_diff a axis
  = Ok (mk_array (set_axis (shape a) k (nth k (shape a) 0%nat - 1))
                 (of_axis_rows (map diff_rows (axis_rows (shape a) k (data a))))).
Proof.
  intros H. pose proof (normalize_axis_Ok _ _ _ H) as Hk.
  unfold np_diff. destruct (shape a) as [| d s]; [simpl in Hk; lia |].
  rewrite H. reflexivity.
Qed.

Lemma np_diff_pad0_eq (a : ndarray R) (axis : Z) (k : nat) :
  normalize_axis axis (length (shape a)) = Ok k ->
  np_diff_pad0 a axis
  = Ok (mk_array (set_axis (shape a) k (nth k (shape a) 0%nat + 2 - 1))
          (of_axis_rows
             (map (fun rs => diff_rows (repeat 0 (prod_shape (skipn (S k) (shape a)))
                                          :: rs ++ [repeat 0 (prod_shape (skipn (S k) (shape a)))]))
                  (axis_rows (shape a) k (data a))))).
Proof.
  intros H. pose proof (normalize_axis_Ok _ _ _ H) as Hk.
  unfold np_diff_pad0. destruct (shape a) as [| d s]; [simpl in Hk; lia |].
  rewrite H. reflexivity.
Qed.

Lemma of_axis_rows_length (m n : nat) (B : list (list (list R))) :
  Forall (fun b => length b = m /\ Forall (fun r => length r = n) b) B ->
  length (of_axis_rows B) = (length B * (m * n))%nat.
Proof.
  unfold of_axis_rows.
  induction 1 as [| b B [Hb Hr] _ IH]; [reflexivity |].
  cbn [map concat length]. rewrite length_app, IH, (concat_length_uniform _ n Hr), Hb. lia.
Qed.

Lemma axis_rows_blocks (inner dk outer : nat) (d : list R) :
  length d = (outer * (dk * inner))%nat ->
  length (map (chunks inner dk) (chunks (dk * inner) outer d)) = outer /\
  Forall (fun b => length b = dk /\ Forall (fun r => length r = inner) b)
         (map (chunks inner dk) (chunks (dk * inner) outer d)).
Proof.
  intros Hd. split; [rewrite length_map; apply chunks_count |].
  apply Forall_map.
  eapply Forall_impl; [| exact (chunks_length (dk * inner) outer d Hd)].
  intros c Hc. split; [apply chunks_count | apply chunks_length; exact Hc].
Qed.

(** [forward] takes one entry off the axis. *)
Lemma Diff_forward_has_shape (axis : Z) (k : nat) (s : list nat) (x : ndarray R) :
  normalize_axis axis (length s) = Ok k ->
  has_shape x s ->
  exists fx, Diff.forward axis x = Ok fx /\
             has_shape fx (set_axis s k (nth k s 0%nat - 1)) /\
             data fx = of_axis_rows (map diff_rows (axis_rows s k (data x))).
Proof.
  intros axis_ok [Hs Hl].
  pose proof (normalize_axis_Ok _ _ _ axis_ok) as axis_in_shape.
  unfold Diff.forward.
  rewrite (np_diff_eq x axis k) by (rewrite Hs; exact axis_ok).
  rewrite Hs. eexists. split; [reflexivity |]. split; [| reflexivity].
  split; [reflexivity |]. cbn [data].
  rewrite (prod_shape_axis s k axis_in_shape) in Hl.
  unfold axis_rows.
  set (dk := nth k s 0%nat) in *.
  set (inner := prod_shape (skipn (S k) s)) in *.
  set (outer := prod_shape (firstn k s)) in *.
  destruct (axis_rows_blocks inner dk outer (data x) Hl) as [Hn Hb].
  rewrite (of_axis_rows_length (dk - 1) inner).
  - rewrite length_map, Hn, prod_shape_set_axis. reflexivity.
  - apply Forall_map. eapply Forall_impl; [| exact Hb].
    intros b [Hb1 Hb2]. destruct (diff_rows_length inner b Hb2) as [H1 H2].
    split; [lia | exact H2].
Qed.

(** [adjoint] puts one entry on the axis. *)
Lemma Diff_adjoint_has_shape (axis : Z) (k : nat) (s : list nat) (y : ndarray R)
    (n : nat) :
  normalize_axis axis (length s) = Ok k ->
  has_shape y (set_axis s k n) ->
  exists ay, Diff.adjoint axis y = Ok ay /\ has_shape ay (set_axis s k (n + 1)) /\
             data ay
             = of_axis_rows
                 (map (adjoint_rows (repeat 0 (prod_shape (skipn (S k) s)))
                                    (prod_shape (skipn (S k) s)))
                      (map (chunks (prod_shape (skipn (S k) s)) n)
                           (chunks (n * prod_shape (skipn (S k) s))
                                   (prod_shape (firstn k s)) (data y)))).
Proof.
  intros axis_ok [Hs Hl].
  pose proof (normalize_axis_Ok _ _ _ axis_ok) as axis_in_shape.
  unfold Diff.adjoint.
  destruct (set_axis_parts s k n axis_in_shape) as [Hf [Hn Hsk]].
  rewrite (np_diff_pad0_eq y axis k)
    by (rewrite Hs, set_axis_length by exact axis_in_shape; exact axis_ok).
  cbn [bind]. rewrite Hs, Hn, Hsk.
  unfold axis_rows. rewrite Hn, Hsk, Hf.
  unfold np_neg, amap. cbn [shape data]. rewrite map_opp_of_axis_rows.
  eexists. split; [reflexivity |]. split; [| reflexivity].
  rewrite prod_shape_set_axis in Hl.
  set (inner := prod_shape (skipn (S k) s)) in *.
  set (outer := prod_shape (firstn k s)) in *.
  destruct (axis_rows_blocks inner n outer (data y) Hl) as [Hc Hb].
  split.
  - cbn [shape]. unfold set_axis at 1. rewrite Hf, Hsk.
    replace (n + 2 - 1)%nat with (n + 1)%nat by lia. reflexivity.
  - cbn [data]. rewrite (of_axis_rows_length (n + 1) inner).
    + rewrite length_map, Hc, prod_shape_set_axis. reflexivity.
    + apply Forall_map. eapply Forall_impl; [| exact Hb].
      intros b [Hb1 Hb2].
      destruct (adjoint_rows_length inner (repeat 0 inner) b (repeat_length 0 inner) Hb2)
        as [H1 H2].
      split; [lia | exact H2].
Qed.

(** X22. [Diff(axis).adjoint] is the adjoint of [Diff(axis).forward] for the dot
    product of the entries: for [x] with at least one entry along the axis and
    [y] of the shape of [forward(x)], both calls return, [adjoint(y)] has the
    shape of [x], and [<forward(x), y> = <x, adjoint(y)>]. *)
Theorem Diff_adjoint_is_adjoint (axis : Z) (k : nat) (x y : ndarray R) :
  normalize_axis axis (length (shape x)) = Ok k ->
  wf x -> (1 <= nth k (shape x) 0%nat)%nat ->
  has_shape y (set_axis (shape x) k (nth k (shape x) 0%nat - 1)) ->
  exists fx ay,
    Diff.forward axis x = Ok fx /\ Diff.adjoint axis y = Ok ay /\
    has_shape fx (shape y) /\ has_shape ay (shape x) /\
    dot (data fx) (data y) = dot (data x) (data ay).
Proof.
  intros Hk Hwf Hdk Hy.
  pose proof (normalize_axis_Ok _ _ _ Hk) as Hin.
  destruct (Diff_forward_has_shape axis k (shape x) x Hk (wf_has_shape x Hwf))
    as [fx [Hfx [Hsfx Hdfx]]].
  destruct (Diff_adjoint_has_shape axis k (shape x) y _ Hk Hy) as [ay [Hay [Hsay Hday]]].
  exists fx, ay. split; [exact Hfx |]. split; [exact Hay |].
  destruct Hy as [Hsy Hly].
  split; [rewrite Hsy; exact Hsfx |]. split.
  - replace (nth k (shape x) 0%nat - 1 + 1)%nat with (nth k (shape x) 0%nat) in Hsay by lia.
    rewrite (set_axis_same (shape x) k Hin) in Hsay. exact Hsay.
  - pose proof Hwf as Hlx. unfold wf, size in Hlx.
    rewrite (prod_shape_axis (shape x) k Hin) in Hlx.
    rewrite prod_shape_set_axis in Hly.
    rewrite Hdfx, Hday. unfold axis_rows.
    set (dk := nth k (shape x) 0%nat) in *.
    set (inner := prod_shape (skipn (S k) (shape x))) in *.
    set (outer := prod_shape (firstn k (shape x))) in *.
    rewrite <- (of_axis_rows_chunks inner (dk - 1) outer (data y) Hly) at 1.
    rewrite <- (of_axis_rows_chunks inner dk outer (data x) Hlx) at 2.
    apply blocks_adjoint. apply axis_blocks_fit; assumption.
Qed.

Lemma Diff_adjoint_is_adjoint_witness :
  normalize_axis (-1) (length (shape (mk_array [2; 3]%nat [1; 2; 4; 7; 11; 16]))) = Ok 1%nat /\
  wf (mk_array [2; 3]%nat [1; 2; 4; 7; 11; 16]) /\
  (1 <= nth 1 (shape (mk_array [2; 3]%nat [1; 2; 4; 7; 11; 16])) 0%nat)%nat /\
  has_shape (mk_array [2; 2]%nat [1; 0; 0; 1])
            (set_axis (shape (mk_array [2; 3]%nat [1; 2; 4; 7; 11; 16])) 1
                      (nth 1 (shape (mk_array [2; 3]%nat [1; 2; 4; 7; 11; 16])) 0%nat - 1)) /\
  exists fx ay,
    Diff.forward (-1) (mk_array [2; 3]%nat [1; 2; 4; 7; 11; 16]) = Ok fx /\
    Diff.adjoint (-1) (mk_array [2; 2]%nat [1; 0; 0; 1]) = Ok ay /\
    has_shape fx (shape (mk_array [2; 2]%nat [1; 0; 0; 1])) /\
    has_shape ay (shape (mk_array [2; 3]%nat [1; 2; 4; 7; 11; 16])) /\
    dot (data fx) (data (mk_array [2; 2]%nat [1; 0; 0; 1]))
    = dot (data (mk_array [2; 3]%nat [1; 2; 4; 7; 11; 16])) (data ay).
Proof.
  assert (Hk : normalize_axis (-1) (length (shape (mk_array [2; 3]%nat [1; 2; 4; 7; 11; 16])))
               = Ok 1%nat) by reflexivity.
  assert (Hwf : wf (mk_array [2; 3]%nat [1; 2; 4; 7; 11; 16])) by reflexivity.
  assert (Hdk : (1 <= nth 1 (shape (mk_array [2; 3]%nat [1; 2; 4; 7; 11; 16])) 0%nat)%nat)
    by (simpl; lia).
  assert (Hy : has_shape (mk_array [2; 2]%nat [1; 0; 0; 1])
                 (set_axis (shape (mk_array [2; 3]%nat [1; 2; 4; 7; 11; 16])) 1
                    (nth 1 (shape (mk_array [2; 3]%nat [1; 2; 4; 7; 11; 16])) 0%nat - 1)))
    by (split; reflexivity).
  split; [exact Hk |]. split; [exact Hwf |]. split; [exact Hdk |]. split; [exact Hy |].
  exact (Diff_adjoint_is_adjoint (-1) 1 (mk_array [2; 3]%nat [1; 2; 4; 7; 11; 16])
           (mk_array [2; 2]%nat [1; 0; 0; 1]) Hk Hwf Hdk Hy).
Defined.

(** X23. [fwback] of the difference operator, [adjoint(forward(x))], returns an
    array of the shape of [x] as soon as [x] has an entry along the axis; on
    an empty axis the result has one entry along it. *)
Theorem Diff_fwback_shape (axis : Z) (k : nat) (x : ndarray R) :
  normalize_axis axis (length (shape x)) = Ok k ->
  wf x ->
  exists r,
    Operator.fwback (Diff.new axis) x = Ok r /\
    has_shape r (set_axis (shape x) k (Nat.max 1 (nth k (shape x) 0%nat))) /\
    ((1 <= nth k (shape x) 0%nat)%nat -> has_shape r (shape x)).
Proof.
  intros Hk Hwf.
  destruct (Diff_forward_has_shape axis k (shape x) x Hk (wf_has_shape x Hwf))
    as [fx [Hfx [Hsfx _]]].
  destruct (Diff_adjoint_has_shape axis k (shape x) fx _ Hk Hsfx) as [r [Hr [Hsr _]]].
  exists r. unfold Operator.fwback, Operator.backward.
  cbn [Diff.new Operator.forward Operator.adjoint]. rewrite Hfx. cbn [bind].
  split; [exact Hr |].
  replace (Nat.max 1 (nth k (shape x) 0%nat)) with (nth k (shape x) 0%nat - 1 + 1)%nat by lia.
  split; [exact Hsr |].
  intros Hdk. replace (nth k (shape x) 0%nat - 1 + 1)%nat with (nth k (shape x) 0%nat) in Hsr by lia.
  rewrite (set_axis_same (shape x) k (normalize_axis_Ok _ _ _ Hk)) in Hsr. exact Hsr.
Qed.

Lemma Diff_fwback_shape_witness :
  normalize_axis 0 (length (shape (mk_array [3; 1]%nat [1; 4; 9]))) = Ok 0%nat /\
  wf (mk_array [3; 1]%nat [1; 4; 9]) /\
  exists r,
    Operator.fwback (Diff.new 0) (mk_array [3; 1]%nat [1; 4; 9]) = Ok r /\
    has_shape r (set_axis (shape (mk_array [3; 1]%nat [1; 4; 9])) 0
                          (Nat.max 1 (nth 0 (shape (mk_array [3; 1]%nat [1; 4; 9])) 0%nat))) /\
    ((1 <= nth 0 (shape (mk_array [3; 1]%nat [1; 4; 9])) 0%nat)%nat ->
     has_shape r (shape (mk_array [3; 1]%nat [1; 4; 9]))).
Proof.
  assert (Hk : normalize_axis 0 (length (shape (mk_array [3; 1]%nat [1; 4; 9]))) = Ok 0%nat)
    by reflexivity.
  assert (Hwf : wf (mk_array [3; 1]%nat [1; 4; 9])) by reflexivity.
  split; [exact Hk |]. split; [exact Hwf |].
  exact (Diff_fwback_shape 0 0 (mk_array [3; 1]%nat [1; 4; 9]) Hk Hwf).
Defined.

(** ** mmmg at a point where the gradient is small *)

Lemma mmmg_init_point (crit_list : list Crit.t) (init : ndarray R) (st0 : mmmg_state) :
  mmmg_init crit_list init = Ok st0 ->
  m_point st0 = reshape_col init /\ m_norm_grad st0 = [].
Proof.
  unfold mmmg_init. intros H. bind_inv H. injection H as <-. split; reflexivity.
Qed.

(** X25. When the norm of the gradient at [init] is below [init.size * tol]
    already and [max_iter] is not 0, [mmmg] stops in its first iteration,
    before any update: it returns [init] as it is and that norm alone. *)
Theorem mmmg_stops_at_once (la_pinv : ndarray R -> result (ndarray R))
    (crit_list : list Crit.t) (init : ndarray R) (tol : R) (n : nat)
    (st0 : mmmg_state) (g : ndarray R) :
  mmmg_init crit_list init = Ok st0 ->
  gradient crit_list (reshape_col init) (shape init) = Ok g ->
  la_norm g < INR (size init) * tol ->
  mmmg la_pinv crit_list init tol (S n) = Ok (init, [la_norm g]).
Proof.
  intros Hinit Hg Hlt.
  destruct (mmmg_init_point crit_list init st0 Hinit) as [Hp Hn].
  unfold mmmg, mmmg_run. rewrite Hinit. cbn [bind].
  rewrite mmmg_loop_S. unfold mmmg_iter. rewrite Hp, Hg. cbn [bind].
  rewrite last_snoc, size_reshape_col, R_ltb_true by exact Hlt.
  cbn [bind m_point m_norm_grad]. rewrite Hn.
  rewrite (np_reshape_back init (reshape_col init) eq_refl). cbn [bind app data reshape_col].
  destruct init; reflexivity.
Qed.

Lemma mmmg_stops_at_once_witness :
  mmmg_init [QuadCriterion_as_crit quad_identity] (mk_array [2%nat] [0; 0])
  = Ok (mk_mmmg (mk_array [2; 1]%nat [0; 0]) (mk_array [2; 1]%nat [0; 0])
                [mk_array [2; 2]%nat [0; 0; 0; 0]] np_ones_2_1 [] 0) /\
  gradient [QuadCriterion_as_crit quad_identity]
           (reshape_col (mk_array [2%nat] [0; 0])) (shape (mk_array [2%nat] [0; 0]))
  = Ok (mk_array [2; 1]%nat [0 + 1 * (0 - 0); 0 + 1 * (0 - 0)]) /\
  la_norm (mk_array [2; 1]%nat [0 + 1 * (0 - 0); 0 + 1 * (0 - 0)])
  < INR (size (mk_array [2%nat] [0; 0])) * (1 / 10) /\
  mmmg pinv_9_0_0_0 [QuadCriterion_as_crit quad_identity] (mk_array [2%nat] [0; 0])
       (1 / 10) (S 499)
  = Ok (mk_array [2%nat] [0; 0],
        [la_norm (mk_array [2; 1]%nat [0 + 1 * (0 - 0); 0 + 1 * (0 - 0)])]).
Proof.
  assert (Hinit : mmmg_init [QuadCriterion_as_crit quad_identity] (mk_array [2%nat] [0; 0])
                  = Ok (mk_mmmg (mk_array [2; 1]%nat [0; 0]) (mk_array [2; 1]%nat [0; 0])
                                [mk_array [2; 2]%nat [0; 0; 0; 0]] np_ones_2_1 [] 0))
    by reflexivity.
  assert (Hg : gradient [QuadCriterion_as_crit quad_identity]
                 (reshape_col (mk_array [2%nat] [0; 0])) (shape (mk_array [2%nat] [0; 0]))
               = Ok (mk_array [2; 1]%nat [0 + 1 * (0 - 0); 0 + 1 * (0 - 0)]))
    by reflexivity.
  assert (Hlt : la_norm (mk_array [2; 1]%nat [0 + 1 * (0 - 0); 0 + 1 * (0 - 0)])
                < INR (size (mk_array [2%nat] [0; 0])) * (1 / 10)).
  { unfold la_norm. cbn [data map Rsum fold_right size shape prod_shape INR].
    replace ((0 + 1 * (0 - 0)) * (0 + 1 * (0 - 0)) + ((0 + 1 * (0 - 0)) * (0 + 1 * (0 - 0)) + 0))
      with 0 by ring.
    rewrite sqrt_0. simpl. lra. }
  split; [exact Hinit |]. split; [exact Hg |]. split; [exact Hlt |].
  exact (mmmg_stops_at_once pinv_9_0_0_0 [QuadCriterion_as_crit quad_identity]
           (mk_array [2%nat] [0; 0]) (1 / 10) 499 _ _ Hinit Hg Hlt).
Defined.

(** ** Criterion: the gradient of a stacked criterion *)

Lemma map2_concat {A B C} (f : A -> B -> C) (la : list (list A)) (lb : list (list B)) :
  Forall2 (fun a b => length a = length b) la lb ->
  map2 f (concat la) (concat lb) = concat (map2 (map2 f) la lb).
Proof.
  induction 1 as [| a b la lb Hab _ IH]; [reflexivity |].
  unfold map2 in *. cbn [concat combine map fst snd].
  rewrite <- IH. clear IH.
  revert b Hab. induction a as [| x a IHa]; intros [| y b] Hab; cbn [length] in Hab;
    try discriminate; [reflexivity |].
  cbn [app combine map fst snd]. rewrite IHa by (injection Hab as Hab; exact Hab).
  reflexivity.
Qed.

Lemma same_shapes_lengths (outs mean : list (ndarray R)) :
  Forall wf outs -> Forall wf mean ->
  map (@shape R) outs = map (@shape R) mean ->
  Forall2 (fun a b => length a = length b) (map (@data R) outs) (map (@data R) mean).
Proof.
  intros Ho. revert mean. induction Ho as [| o outs Hwo _ IH]; intros [| m mean] Hm Hs;
    cbn [map] in Hs; try discriminate; [constructor |].
  injection Hs as Hs1 Hs2. cbn [map]. constructor.
  - rewrite Hwo, (Forall_inv Hm). unfold size. now rewrite Hs1.
  - apply IH; [exact (Forall_inv_tail Hm) | exact Hs2].
Qed.

Lemma stack_wf (l : list (ndarray R)) :
  Forall wf l ->
  wf (mk_array [list_sum (map (@size R) l); 1%nat] (concat (map (@data R) l))).
Proof.
  intros Hwf. unfold wf. cbn [data]. rewrite (concat_data_length l Hwf).
  change (size (mk_array [list_sum (map (@size R) l); 1%nat] (concat (map (@data R) l))))
    with (list_sum (map (@size R) l) * (1 * 1))%nat.
  lia.
Qed.

Lemma list2vec_run (l : list (ndarray R)) :
  l <> [] ->
  Criterion._list2vec l
  = Ok (mk_array [list_sum (map (@size R) l); 1%nat] (concat (map (@data R) l))).
Proof.
  intros Hne. destruct l as [| a l]; [contradiction |].
  unfold Criterion._list2vec. rewrite !map_map.
  rewrite (map_ext _ (@size R) (fun x => size_reshape_col x)). reflexivity.
Qed.

Lemma list2vec_Ok (l : list (ndarray R)) (v : ndarray R) :
  Criterion._list2vec l = Ok v ->
  l <> [] /\
  v = mk_array [list_sum (map (@size R) l); 1%nat] (concat (map (@data R) l)).
Proof.
  intros H. destruct l as [| a l]; [discriminate |].
  split; [discriminate |].
  rewrite list2vec_run in H by discriminate. injection H as <-. reflexivity.
Qed.


Lemma residual_list_spec (g : R -> R) (outs mean : list (ndarray R)) :
  Forall wf outs -> Forall wf mean ->
  map (@shape R) outs = map (@shape R) mean ->
  Forall wf (residual_list g outs mean) /\
  map (@shape R) (residual_list g outs mean) = map (@shape R) mean /\
  map (@data R) (residual_list g outs mean)
  = map (map g) (map2 (map2 Rminus) (map (@data R) outs) (map (@data R) mean)).
Proof.
  intros Ho. revert mean. induction Ho as [| o outs Hwo _ IH]; intros [| m mean] Hm Hs;
    cbn [map] in Hs; try discriminate.
  - split; [constructor | split; reflexivity].
  - injection Hs as Hs1 Hs2.
    destruct (IH mean (Forall_inv_tail Hm) Hs2) as [Hwf [Hsh Hd]].
    unfold residual_list, map2 in *. cbn [combine map fst snd].
    split; [| split].
    + constructor; [| exact Hwf]. unfold wf, size. cbn [data shape].
      rewrite !length_map, length_combine, Hwo, (Forall_inv Hm). unfold size.
      rewrite Hs1. apply Nat.min_id.
    + cbn [shape]. rewrite Hs1. f_equal. exact Hsh.
    + cbn [data]. f_equal. exact Hd.
Qed.

(** X26. The gradient of a criterion built with a list of arrays for mean,
    whose operator returns a list of arrays of the shapes of the mean, and
    whose potential has a gradient that works entry by entry: the stacking
    and the splitting cancel, and the adjoint is called on the list of the
    arrays [phi'(out_i - mean_i)], each with the shape of [mean_i]. *)
Theorem Criterion_gradient_stacked
    (op : ndarray R -> result arr_or_list) (adj : arr_or_list -> result (ndarray R))
    (pot : Potential.t R) (g : R -> R) (hyper : R) (mean outs : list (ndarray R))
    (c : Criterion.t) (x : ndarray R) :
  Criterion.__init__ op adj pot hyper (ArrList mean) = Ok c ->
  (forall v, Potential.gradient pot v = amap g v) ->
  op x = Ok (ArrList outs) ->
  Forall wf mean -> Forall wf outs ->
  map (@shape R) outs = map (@shape R) mean ->
  Criterion.gradient c x
  = (r <- adj (ArrList (residual_list g outs mean)) ;; Ok (np_scale hyper r)).
Proof.
  intros Hinit Hgrad Hop Hwm Hwo Hshapes.
  cbn [Criterion.__init__] in Hinit. bind_step Hinit m Hm. injection Hinit as <-.
  apply list2vec_Ok in Hm. destruct Hm as [Hne ->].
  assert (Hne' : outs <> []).
  { intros ->. destruct mean; [contradiction | discriminate]. }
  unfold Criterion.gradient, Criterion._operator, Criterion._adjoint.
  cbn [Criterion._stacked Criterion.operator Criterion._mean Criterion.potential
       Criterion.hyper Criterion.adjoint].
  rewrite Hop. cbn [bind]. rewrite (list2vec_run outs Hne'). cbn [bind].
  set (O := outs) in *. set (M := mean) in *.
  assert (Hsizes : map (@size R) O = map (@size R) M) by (apply size_eq_of_shape; exact Hshapes).
  unfold np_sub.
  rewrite np_binop_same_shape;
    [| cbn [shape]; rewrite Hsizes; reflexivity
     | apply stack_wf; exact Hwo
     | apply stack_wf; exact Hwm ].
  cbn [bind shape data]. rewrite Hgrad. unfold amap. cbn [shape data].
  destruct (residual_list_spec g O M Hwo Hwm Hshapes) as [Hwr [Hsr Hdr]].
  unfold Criterion._vec2list. cbn [Criterion._shape Criterion._idx].
  rewrite <- Hsr, length_map.
  rewrite (vec2list_from _ _ [] (residual_list g O M)).
  - reflexivity.
  - exact Hwr.
  - cbn [shape app]. f_equal. f_equal.
    rewrite (size_eq_of_shape _ _ Hsr). exact Hsizes.
  - cbn [data app]. rewrite Hdr.
    rewrite (map2_concat Rminus _ _ (same_shapes_lengths O M Hwo Hwm Hshapes)).
    apply concat_map.
  - cbn [app]. rewrite (size_eq_of_shape _ _ Hsr). reflexivity.
Qed.

Lemma Criterion_gradient_stacked_witness :
  Criterion.__init__ op_twice adj_twice (Huber.new 1) 2
    (ArrList [mk_array [2%nat] [1; 1]; mk_array [2%nat] [0; 5]])
  = Ok (Criterion.mk op_twice adj_twice
          (ArrList [mk_array [2%nat] [1; 1]; mk_array [2%nat] [0; 5]])
          true [[2%nat]; [2%nat]] [0; 2; 4]%nat
          (mk_array [4; 1]%nat [1; 1; 0; 5]) 2 (Huber.new 1)) /\
  (forall v, Potential.gradient (Huber.new 1) v
             = amap (fun u => if R_leb (Rabs u) 1 then 2 * u else 2 * 1 * R_sign u) v) /\
  op_twice (mk_array [2%nat] [3; 4])
  = Ok (ArrList [mk_array [2%nat] [3; 4]; mk_array [2%nat] [3; 4]]) /\
  Forall wf [mk_array [2%nat] [1; 1]; mk_array [2%nat] [0; 5]] /\
  Forall wf [mk_array [2%nat] [3; 4]; mk_array [2%nat] [3; 4]] /\
  map (@shape R) [mk_array [2%nat] [3; 4]; mk_array [2%nat] [3; 4]]
  = map (@shape R) [mk_array [2%nat] [1; 1]; mk_array [2%nat] [0; 5]] /\
  Criterion.gradient
    (Criterion.mk op_twice adj_twice
       (ArrList [mk_array [2%nat] [1; 1]; mk_array [2%nat] [0; 5]])
       true [[2%nat]; [2%nat]] [0; 2; 4]%nat
       (mk_array [4; 1]%nat [1; 1; 0; 5]) 2 (Huber.new 1))
    (mk_array [2%nat] [3; 4])
  = (r <- adj_twice
            (ArrList (residual_list
                        (fun u => if R_leb (Rabs u) 1 then 2 * u else 2 * 1 * R_sign u)
                        [mk_array [2%nat] [3; 4]; mk_array [2%nat] [3; 4]]
                        [mk_array [2%nat] [1; 1]; mk_array [2%nat] [0; 5]])) ;;
     Ok (np_scale 2 r)).
Proof.
  assert (Hwm : Forall wf [mk_array [2%nat] [1; 1]; mk_array [2%nat] [0; 5]])
    by (repeat constructor).
  assert (Hwo : Forall wf [mk_array [2%nat] [3; 4]; mk_array [2%nat] [3; 4]])
    by (repeat constructor).
  split; [reflexivity |]. split; [exact (Huber_gradient_elementwise 1) |].
  split; [reflexivity |]. split; [exact Hwm |]. split; [exact Hwo |].
  split; [reflexivity |].
  exact (Criterion_gradient_stacked op_twice adj_twice (Huber.new 1) _ 2
           [mk_array [2%nat] [1; 1]; mk_array [2%nat] [0; 5]]
           [mk_array [2%nat] [3; 4]; mk_array [2%nat] [3; 4]]
           _ (mk_array [2%nat] [3; 4]) eq_refl (Huber_gradient_elementwise 1)
           eq_refl Hwm Hwo eq_refl).
Defined.
